(** * The write path of the in-memory cache: [src/cache/inmemory/writeToStore.ts]

    A shallow embedding of [StoreWriter] (writeQueryToStore,
    writeSelectionSetToStore, processSelectionSet, processFieldValue) and of
    [walkWithMergeOverrides], followed by the properties of the write path.

    JavaScript values are modelled as a closed tree type; the mutable
    collaborators of a write (the entity store, the dedup table [written] of
    the write context, the diagnostics channel) are threaded explicitly as a
    state; exceptions are results that still carry that state. *)

From Stdlib Require Import DecimalString.
From stdpp Require Import gmap strings list fin_maps.

Set Warnings "-register-all".
Open Scope string_scope.
Open Scope Z_scope.
Open Scope list_scope.

(** ** JavaScript values *)

(** JSON-like values as they occur in result objects and in the store.
    [undefined] is not a value: an absent property is [None].

    [VHost name] is not data: it stands for what the host has under [name]
    when a read leaves the own properties of a value and goes up its
    prototype chain (a built-in method such as [Object.prototype.toString]),
    or goes into such a value.  The embedding does not determine it (in a
    host of an earlier edition of the language, or inside a host value, it
    may be undefined); it carries it through reads and stops ([HostValue])
    where the code would go on with it. *)
Inductive StoreValue : Type :=
| VNull
| VBool (b : bool)
| VNum (n : Z)
| VStr (s : string)
| VArr (items : list StoreValue)
| VObj (fields : list (string * StoreValue))
| VRef (id : string)
| VHost (name : string).

(** A Store Object: the field map kept under one entity key. *)
Definition StoreObject : Type := list (string * StoreValue).

Section value_induction.
Variable P : StoreValue -> Prop.
Hypothesis Hnull : P VNull.
Hypothesis Hbool : forall b, P (VBool b).
Hypothesis Hnum : forall n, P (VNum n).
Hypothesis Hstr : forall s, P (VStr s).
Hypothesis Harr : forall l, Forall P l -> P (VArr l).
Hypothesis Hobj : forall fs, Forall (fun kv => P (snd kv)) fs -> P (VObj fs).
Hypothesis Href : forall id, P (VRef id).
Hypothesis Hhost : forall name, P (VHost name).

End value_induction.

(** *** Own properties of objects: association lists in insertion order *)

Fixpoint alookup {V : Type} (k : string) (l : list (string * V)) : option V :=
  match l with
  | [] => None
  | (k', v) :: r => if String.eqb k k' then Some v else alookup k r
  end.

(** [o[k] = v]: an existing key keeps its position, a new key goes last. *)
Fixpoint aset {V : Type} (k : string) (v : V) (l : list (string * V))
  : list (string * V) :=
  match l with
  | [] => [(k, v)]
  | (k', v') :: r =>
      if String.eqb k k' then (k, v) :: r else (k', v') :: aset k v r
  end.

Definition akeys {V : Type} (l : list (string * V)) : list string := map fst l.

(** The property name of array index [i]. *)
Definition index_key (i : nat) : string :=
  NilEmpty.string_of_uint (Nat.to_uint i).

(** An array seen as the object of its index properties, from index [i]. *)
Fixpoint index_entries (i : nat) (l : list StoreValue) : list (string * StoreValue) :=
  match l with
  | [] => []
  | x :: r => (index_key i, x) :: index_entries (S i) r
  end.

Definition string_length_Z (s : string) : Z := Z.of_nat (String.length s).

(** The own property [name] of a value, as [hasOwnProperty] sees it: the
    members of an object, the indices and the [length] of an array or a
    string, the [__ref] of a Reference. *)
Definition ownProp (o : StoreValue) (name : string) : option StoreValue :=
  match o with
  | VObj fs => alookup name fs
  | VArr l =>
      if String.eqb name "length" then Some (VNum (Z.of_nat (length l)))
      else alookup name (index_entries 0 l)
  | VStr s =>
      if String.eqb name "length" then Some (VNum (string_length_Z s))
      else alookup name
             (index_entries 0 (map (fun c => VStr (String c EmptyString))
                                   (String.list_ascii_of_string s)))
  | VRef id => if String.eqb name "__ref" then Some (VStr id) else None
  | VNull | VBool _ | VNum _ | VHost _ => None
  end.

(** The property names of [Object.prototype] (ECMAScript, Annex B
    included): what every ordinary object inherits. *)
Definition Object_prototype : list string :=
  ["constructor"; "hasOwnProperty"; "isPrototypeOf"; "propertyIsEnumerable";
   "toLocaleString"; "toString"; "valueOf"; "__proto__";
   "__defineGetter__"; "__defineSetter__";
   "__lookupGetter__"; "__lookupSetter__"].

(** The property names of [Number.prototype] and [Boolean.prototype], and
    those of [Array.prototype] and [String.prototype] in ECMAScript 2024
    with Annex B (a host of an earlier edition has fewer of the last two). *)
Definition Number_prototype : list string :=
  ["constructor"; "toExponential"; "toFixed"; "toLocaleString";
   "toPrecision"; "toString"; "valueOf"].

Definition Boolean_prototype : list string :=
  ["constructor"; "toString"; "valueOf"].

Definition Array_prototype : list string :=
  ["length"; "constructor"; "at"; "concat"; "copyWithin"; "fill"; "find";
   "findIndex"; "findLast"; "findLastIndex"; "lastIndexOf"; "pop"; "push";
   "reverse"; "shift"; "unshift"; "slice"; "sort"; "splice"; "includes";
   "indexOf"; "join"; "keys"; "entries"; "values"; "forEach"; "filter";
   "flat"; "flatMap"; "map"; "every"; "some"; "reduce"; "reduceRight";
   "toLocaleString"; "toString"; "toReversed"; "toSorted"; "toSpliced";
   "with"].

Definition String_prototype : list string :=
  ["length"; "constructor"; "anchor"; "at"; "big"; "blink"; "bold";
   "charAt"; "charCodeAt"; "codePointAt"; "concat"; "endsWith";
   "fontcolor"; "fontsize"; "fixed"; "includes"; "indexOf"; "isWellFormed";
   "italics"; "lastIndexOf"; "link"; "localeCompare"; "match"; "matchAll";
   "normalize"; "padEnd"; "padStart"; "repeat"; "replace"; "replaceAll";
   "search"; "slice"; "small"; "split"; "strike"; "sub"; "substr";
   "substring"; "sup"; "startsWith"; "toString"; "toWellFormed"; "trim";
   "trimStart"; "trimLeft"; "trimEnd"; "trimRight"; "toLocaleLowerCase";
   "toLocaleUpperCase"; "toLowerCase"; "toUpperCase"; "valueOf"].

(** The names a value finds on its prototype chain: those of its own
    prototype, and those of [Object.prototype], which ends every chain.
    Every member of a host value is left to the host. *)
Definition prototype_chain (o : StoreValue) : list string :=
  match o with
  | VObj _ | VRef _ => Object_prototype
  | VArr _ => Array_prototype ++ Object_prototype
  | VStr _ => String_prototype ++ Object_prototype
  | VNum _ => Number_prototype ++ Object_prototype
  | VBool _ => Boolean_prototype ++ Object_prototype
  | VNull | VHost _ => []
  end.

(** Whether a read of [name] that finds no own property of [o] is answered
    by the host. *)
Definition inherited (o : StoreValue) (name : string) : bool :=
  match o with
  | VHost _ => true
  | _ => bool_decide (name ∈ prototype_chain o)
  end.

(** [o[name]] for a value [o] that is not null: the own property, else what
    the prototype chain gives.  (A read of a member of null throws; the
    reads of the writer test for null first or stand behind a guard.) *)
Definition getProp (o : StoreValue) (name : string) : option StoreValue :=
  match ownProp o name with
  | Some v => Some v
  | None => if inherited o name then Some (VHost name) else None
  end.

Definition is_host (v : StoreValue) : bool :=
  match v with VHost _ => true | _ => false end.

Definition is_null (v : StoreValue) : bool :=
  match v with VNull => true | _ => false end.

(** Truthiness, [a || b] and [a && b] on possibly undefined values. *)
Definition truthy (v : StoreValue) : bool :=
  match v with
  | VNull => false
  | VBool b => b
  | VNum n => negb (Z.eqb n 0)
  | VStr s => negb (String.eqb s "")
  | VArr _ | VObj _ | VRef _ | VHost _ => true
  end.

Definition otruthy (o : option StoreValue) : bool :=
  match o with Some v => truthy v | None => false end.

Definition js_or (a b : option StoreValue) : option StoreValue :=
  if otruthy a then a else b.

Definition js_and (a b : option StoreValue) : option StoreValue :=
  if otruthy a then b else a.

(** ** Collaborators that are not part of this file of the source *)

(** Modelled from the spec: [DeepMerger.merge] (utilities/common/mergeDeep),
    the "structural accumulate" of the write context: objects merge
    key-by-key, arrays merge positionally, scalars are replaced by the new
    value.  Where the two shapes differ the incoming value replaces the old
    one. *)
Fixpoint mergeDeep (target source : StoreValue) {struct source} : StoreValue :=
  match source with
  | VObj sfs =>
      match target with
      | VObj tfs =>
          VObj ((fix keys (sfs : list (string * StoreValue)) (tfs : StoreObject)
                   {struct sfs} : StoreObject :=
                   match sfs with
                   | [] => tfs
                   | (k, sv) :: rest =>
                       keys rest
                         (match alookup k tfs with
                          | Some tv => aset k (mergeDeep tv sv) tfs
                          | None => aset k sv tfs
                          end)
                   end) sfs tfs)
      | _ => source
      end
  | VArr sl =>
      match target with
      | VArr tl =>
          VArr ((fix items (sl tl : list StoreValue) {struct sl} : list StoreValue :=
                   match sl, tl with
                   | [], _ => tl
                   | s :: sl', [] => s :: items sl' []
                   | s :: sl', t :: tl' => mergeDeep t s :: items sl' tl'
                   end) sl tl)
      | _ => source
      end
  | _ => source
  end.

(** [context.merge(existing, incoming)] on two field maps. *)
Fixpoint mergeFields (tfs sfs : StoreObject) {struct sfs} : StoreObject :=
  match sfs with
  | [] => tfs
  | (k, sv) :: rest =>
      mergeFields
        (match alookup k tfs with
         | Some tv => aset k (mergeDeep tv sv) tfs
         | None => aset k sv tfs
         end) rest
  end.

(** Modelled from the spec: [cloneDeep] (utilities/common/cloneDeep), the
    deep copy of a leaf.  On immutable trees the copy is the tree again; the
    copy as an operation on a heap is [Aliasing.cloneDeep] below. *)
Fixpoint cloneDeep (v : StoreValue) : StoreValue :=
  match v with
  | VArr l => VArr (map cloneDeep l)
  | VObj fs => VObj (map (fun kv => (fst kv, cloneDeep (snd kv))) fs)
  | _ => v
  end.

(** Modelled from the spec: [makeReference] (utilities/graphql/storeUtils),
    the Reference to an entity key. *)
Definition makeReference (dataId : string) : StoreValue := VRef dataId.

(** Modelled from the spec: the Entity Store (entityStore.ts), a mapping from
    entity key to field map with point reads, merge-on-write of a whole field
    map under a key, and the retain-root operation. *)
Record NormalizedCache : Type := mkCache {
  data : gmap string StoreObject;
  rootIds : gmap string nat;
}.

Definition defaultNormalizedCacheFactory : NormalizedCache :=
  {| data := ∅; rootIds := ∅ |}.

Definition store_get (c : NormalizedCache) (dataId : string)
  : option StoreObject := data c !! dataId.

Definition store_getFieldValue (c : NormalizedCache) (dataId name : string)
  : option StoreValue :=
  match store_get c dataId with
  | Some fs => alookup name fs
  | None => None
  end.

Definition store_merge (c : NormalizedCache) (dataId : string)
  (incoming : StoreObject) : NormalizedCache :=
  {| data :=
       <[dataId :=
           match store_get c dataId with
           | Some existing => mergeFields existing incoming
           | None => incoming
           end]> (data c);
     rootIds := rootIds c |}.

Definition store_retain (c : NormalizedCache) (rootId : string)
  : NormalizedCache :=
  {| data := data c;
     rootIds := <[rootId := S (default O (rootIds c !! rootId))]> (rootIds c) |}.

(** ** Query documents (the part of the graphql AST the writer reads) *)

Inductive ValueNode : Type :=
| Variable_ (name : string)
| Const_ (v : StoreValue).

Record DirectiveNode : Type := mkDirective {
  directive_name : string;
  directive_arguments : list (string * ValueNode);
}.

(** A [SelectionSetNode] is compared by object identity in the dedup table
    ([sets.indexOf(selectionSet)]); [node] is that identity. *)
Inductive SelectionNode : Type :=
| Field (f : FieldNode)
| FragmentSpread (name : string) (directives : list DirectiveNode)
| InlineFragment (typeCondition : option string)
    (directives : list DirectiveNode) (selectionSet : SelectionSetNode)
with FieldNode : Type :=
| mkField (alias : option string) (name : string)
    (arguments : list (string * ValueNode))
    (directives : list DirectiveNode) (selectionSet : option SelectionSetNode)
with SelectionSetNode : Type :=
| mkSelectionSet (node : nat) (selections : list SelectionNode).

Definition field_alias (f : FieldNode) : option string :=
  match f with mkField a _ _ _ _ => a end.
Definition field_name (f : FieldNode) : string :=
  match f with mkField _ n _ _ _ => n end.
Definition field_arguments (f : FieldNode) : list (string * ValueNode) :=
  match f with mkField _ _ a _ _ => a end.
Definition field_directives (f : FieldNode) : list DirectiveNode :=
  match f with mkField _ _ _ d _ => d end.
Definition field_selectionSet (f : FieldNode) : option SelectionSetNode :=
  match f with mkField _ _ _ _ s => s end.
Definition node (s : SelectionSetNode) : nat :=
  match s with mkSelectionSet n _ => n end.
Definition selections (s : SelectionSetNode) : list SelectionNode :=
  match s with mkSelectionSet _ l => l end.

(** What [getFragmentFromSelection] yields: an inline fragment, or the
    definition a spread names. *)
Record Fragment : Type := mkFragment {
  fragment_name : option string;
  fragment_typeCondition : option string;
  fragment_selectionSet : SelectionSetNode;
}.

Record VariableDefinitionNode : Type := mkVariableDefinition {
  variable : string;
  defaultValue : option StoreValue;
}.

Inductive DefinitionNode : Type :=
| OperationDefinition (variableDefinitions : list VariableDefinitionNode)
    (selectionSet : SelectionSetNode)
| FragmentDefinition (name : string) (typeCondition : string)
    (selectionSet : SelectionSetNode).

Definition DocumentNode : Type := list DefinitionNode.

(** Modelled from the spec: [getOperationDefinition], the operation of the
    query document (absent when the document has none). *)
Fixpoint getOperationDefinition (query : DocumentNode)
  : option (list VariableDefinitionNode * SelectionSetNode) :=
  match query with
  | [] => None
  | OperationDefinition vds ss :: _ => Some (vds, ss)
  | FragmentDefinition _ _ _ :: r => getOperationDefinition r
  end.

(** Modelled from the spec: [createFragmentMap(getFragmentDefinitions(query))],
    the fragment lookup table of one write, by fragment name. *)
Fixpoint createFragmentMap (query : DocumentNode) : gmap string Fragment :=
  match query with
  | [] => ∅
  | OperationDefinition _ _ :: r => createFragmentMap r
  | FragmentDefinition n tc ss :: r =>
      <[n := mkFragment (Some n) (Some tc) ss]> (createFragmentMap r)
  end.

(** [{...a, ...b}]: the own properties of [a], then those of [b], a later
    value replacing an earlier one under the same name. *)
Definition objectSpread (a b : StoreObject) : StoreObject :=
  fold_left (fun acc kv => aset (fst kv) (snd kv) acc) b a.

(** Modelled from the spec: [getDefaultValues], the default values of the
    variables the operation declares. *)
Definition getDefaultValues (vds : list VariableDefinitionNode) : StoreObject :=
  fold_left
    (fun acc vd =>
       match defaultValue vd with
       | Some v => aset (variable vd) v acc
       | None => acc
       end) vds [].

(** Modelled from the spec: [resultKeyNameFromField], the result key of a
    field: its alias if present, else its name. *)
Definition resultKeyNameFromField (f : FieldNode) : string :=
  match field_alias f with Some a => a | None => field_name f end.

(** Modelled from the spec: [getFragmentFromSelection]; an inline fragment
    is its own fragment, a spread is looked up by name and [None] stands for
    the failed invariant when no fragment has that name. *)
Definition getFragmentFromSelection (selection : SelectionNode)
  (fragmentMap : gmap string Fragment) : option Fragment :=
  match selection with
  | InlineFragment tc _ ss => Some (mkFragment None tc ss)
  | FragmentSpread n _ => fragmentMap !! n
  | Field _ => None
  end.

(** ** Merge overrides *)

(** [StoreValueMergeFunction]: called as [merge(existing, incoming)], either
    of which may be undefined. *)
Definition MergeFunction : Type := option StoreValue -> option StoreValue -> StoreValue.

(** [MergeOverrides]: per property name (a storage key or an array index)
    an optional merge function and an optional child tree. *)
Inductive MergeOverrides : Type :=
| Overrides (entries :
    list (string * (option MergeFunction * option MergeOverrides))).

Definition OverrideEntry : Type :=
  (option MergeFunction * option MergeOverrides)%type.

Definition entries (o : MergeOverrides) : list (string * OverrideEntry) :=
  match o with Overrides es => es end.

(** Modelled from the spec: [context.merge] on two overrides trees, with the
    same structural accumulate as [mergeDeep]: key by key, a nested tree
    merged recursively, anything else (a function, an undefined member of
    the incoming entry) replacing what was there. *)
Fixpoint mergeOverridesDeep (target source : MergeOverrides) {struct source}
  : MergeOverrides :=
  match source with
  | Overrides ses =>
      Overrides
        ((fix keys (ses tes : list (string * OverrideEntry)) {struct ses}
            : list (string * OverrideEntry) :=
            match ses with
            | [] => tes
            | (k, (sm, sc)) :: rest =>
                keys rest
                  (match alookup k tes with
                   | Some (_, tc) =>
                       aset k
                         (sm,
                          match sc with
                          | Some c =>
                              match tc with
                              | Some c0 => Some (mergeOverridesDeep c0 c)
                              | None => Some c
                              end
                          | None => None
                          end) tes
                   | None => aset k (sm, sc) tes
                   end)
            end) ses (entries target))
  end.

(** [context.merge(mergeOverrides[storeFieldName], { merge, child })]. *)
Definition mergeEntry (existing : option OverrideEntry) (incoming : OverrideEntry)
  : OverrideEntry :=
  match existing with
  | None => incoming
  | Some (_, tc) =>
      (fst incoming,
       match snd incoming with
       | Some c =>
           match tc with
           | Some c0 => Some (mergeOverridesDeep c0 c)
           | None => Some c
           end
       | None => None
       end)
  end.

Section MergeOverrides_induction.
Variable P : MergeOverrides -> Prop.
Hypothesis Hnode :
  forall es,
    Forall (fun e : string * OverrideEntry =>
              match snd (snd e) with Some c => P c | None => True end) es ->
    P (Overrides es).

Fixpoint MergeOverrides_ind' (o : MergeOverrides) : P o :=
  match o with
  | Overrides es =>
      Hnode es
        ((fix go (es : list (string * OverrideEntry))
            : Forall (fun e : string * OverrideEntry =>
                        match snd (snd e) with
                        | Some c => P c
                        | None => True
                        end) es :=
            match es with
            | [] => Forall_nil_2 _
            | e :: r =>
                Forall_cons_2 _ e r
                  (match e as e0
                     return match snd (snd e0) with
                            | Some c => P c
                            | None => True
                            end
                   with
                   | (k, (m, c)) =>
                       match c as c0
                         return match c0 with
                                | Some c => P c
                                | None => True
                                end
                       with
                       | Some c' => MergeOverrides_ind' c'
                       | None => I
                       end
                   end) (go r)
            end) es)
  end.
End MergeOverrides_induction.

(** ** The policy provider and the utilities taken as parameters *)

(** [this.policies] (policies.ts), consumed through its interface. *)
Record Policies : Type := mkPolicies {
  rootTypenamesById : string -> option string;
  identify : StoreValue -> SelectionSetNode -> gmap string Fragment -> option string;
  getStoreFieldName : option StoreValue -> FieldNode -> StoreObject -> string;
  getFieldMergeFunction :
    option StoreValue -> FieldNode -> StoreObject -> option MergeFunction;
  fragmentMatches : Fragment -> option StoreValue -> bool;
  usingPossibleTypes : bool;
}.

(** [getTypenameFromResult] (storeUtils) and [shouldInclude] (directives). *)
Record Utilities : Type := mkUtilities {
  getTypenameFromResult :
    StoreValue -> SelectionSetNode -> gmap string Fragment -> option StoreValue;
  shouldInclude : SelectionNode -> StoreObject -> bool;
}.

(** ** State, failures and the results of the writer *)

(** What one write does to its collaborators, in order. *)
Inductive Event : Type :=
| EvRetain (dataId : string)                     (* store.retain(dataId) *)
| EvWritten (dataId : string) (selectionSet : nat) (* sets.push(selectionSet) *)
| EvMerge (dataId : string) (incoming : StoreObject) (* store.merge(dataId, _) *)
| EvWarn (resultFieldKey : string) (result : StoreValue). (* invariant.warn(_) *)

Record WriteState : Type := mkState {
  store : NormalizedCache;
  written : gmap string (list nat);
  trace : list Event;
}.

Inductive WriteError : Type :=
| OutOfFuel            (* the recursion bound of the embedding was reached *)
| TypeError            (* a property written on a non-object, or read on
                          undefined *)
| InvariantViolation   (* a failed [invariant(...)] of a collaborator *)
| Unrepresentable      (* a JavaScript object outside the value type *)
| ReadOfNull           (* [result[resultFieldKey]] on a result that is null:
                          a TypeError of the engine as well, kept apart from
                          the one of an assignment *)
| HostValue.           (* the code goes on with a value of the host, which
                          the embedding does not follow *)

(** A thrown exception keeps the state reached so far: nothing is rolled
    back. *)
Inductive Completion (A : Type) : Type :=
| Ok (a : A) (st : WriteState)
| Throw (e : WriteError) (st : WriteState).
Arguments Ok {A} a st.
Arguments Throw {A} e st.

Definition M (A : Type) : Type := WriteState -> Completion A.

Definition ret {A : Type} (a : A) : M A := fun st => Ok a st.
Definition throw {A : Type} (e : WriteError) : M A := fun st => Throw e st.
Definition bind {A B : Type} (m : M A) (k : A -> M B) : M B :=
  fun st =>
    match m st with
    | Ok a st' => k a st'
    | Throw e st' => Throw e st'
    end.

Notation "'let*' x ':=' m 'in' k" := (bind m (fun x => k))
  (at level 10, x pattern, m at level 200, k at level 200).

Definition get_state : M WriteState := fun st => Ok st st.
Definition log (e : Event) : M unit :=
  fun st => Ok tt (mkState (store st) (written st) (trace st ++ [e])).

Definition final_state {A : Type} (r : Completion A) : WriteState :=
  match r with Ok _ st => st | Throw _ st => st end.

(** The read-only part of [WriteContext]; [store] and [written] are in the
    state and [merge] is [mergeDeep]. *)
Record WriteContext : Type := mkContext {
  variables : StoreObject;
  fragmentMap : gmap string Fragment;
}.

(** ** walkWithMergeOverrides *)

(** [incomingObject[name] = v]; assigning to undefined, to null or (in
    strict code) to a primitive throws. *)
Definition setProp (o : option StoreValue) (name : string) (v : StoreValue)
  : WriteError + StoreValue :=
  match o with
  | Some (VObj fs) => inr (VObj (aset name v fs))
  | Some (VArr l) =>
      match alookup name (index_entries 0 (l ++ [VNull])) with
      | Some _ =>
          inr (VArr (map snd (aset name v (index_entries 0 l))))
      | None => inl Unrepresentable
      end
  | Some (VRef _) => inl Unrepresentable
  | Some (VHost _) => inl HostValue
  | Some VNull | Some (VBool _) | Some (VNum _) | Some (VStr _) | None =>
      inl TypeError
  end.

(** [o && o[name]]. *)
Definition guardedProp (o : option StoreValue) (name : string) : option StoreValue :=
  js_and o (match o with Some v => getProp v name | None => None end).

(** One of the two values a merge function would be called with comes from
    the host. *)
Definition from_host (existingValue incomingValue : option StoreValue) : bool :=
  match existingValue, incomingValue with
  | Some (VHost _), _ | _, Some (VHost _) => true
  | _, _ => false
  end.

Definition is_reference_type (v : option StoreValue) : bool :=
  match v with
  | Some (VObj _) | Some (VArr _) => true
  | _ => false
  end.

(** The source returns nothing and updates [incomingObject] in place; here
    the updated [incomingObject] is the result.  The recursive call on
    [child] updates the object [incomingValue] refers to, which stays the
    member [name] of [incomingObject]: that is the [setProp] after the
    recursive call.  [maybeDeepFreeze(existingValue)] changes no value of
    this tree model; the walker with the freeze is
    [Aliasing.walkWithMergeOverrides].  An assignment to undefined, null or
    a primitive throws whatever the merge function returns; where the
    assignment can be made, a merge function that would be handed a host
    value is not applied and the walk stops with [HostValue]. *)
Fixpoint walkWithMergeOverrides (existingObject incomingObject : option StoreValue)
  (overrides : MergeOverrides) {struct overrides}
  : WriteError + option StoreValue :=
  match overrides with
  | Overrides es =>
      (fix forEach (es : list (string * OverrideEntry))
         (incomingObject : option StoreValue) {struct es}
         : WriteError + option StoreValue :=
         match es with
         | [] => inr incomingObject
         | (name, (merge, child)) :: rest =>
             let existingValue := guardedProp existingObject name in
             let incomingValue := guardedProp incomingObject name in
             let walked :=
               match child with
               | Some c =>
                   match walkWithMergeOverrides existingValue incomingValue c with
                   | inr incomingValue' =>
                       if is_reference_type incomingValue'
                       then
                         match setProp incomingObject name
                                 (default VNull incomingValue') with
                         | inr o => inr (Some o, incomingValue')
                         | inl e => inl e
                         end
                       else inr (incomingObject, incomingValue')
                   | inl e => inl e
                   end
               | None => inr (incomingObject, incomingValue)
               end in
             match walked with
             | inl e => inl e
             | inr (incomingObject, incomingValue) =>
                 match merge with
                 | Some f =>
                     match setProp incomingObject name
                             (f existingValue incomingValue) with
                     | inr o =>
                         if from_host existingValue incomingValue
                         then inl HostValue
                         else forEach rest (Some o)
                     | inl e => inl e
                     end
                 | None => forEach rest incomingObject
                 end
             end
         end) es incomingObject
  end.

(** ** StoreWriter *)

(** The operations of a write on its collaborators. *)
Definition sets_push (dataId : string) (selectionSet : SelectionSetNode)
  : M unit :=
  fun st =>
    Ok tt
      (mkState (store st)
         (<[dataId := default [] (written st !! dataId) ++ [node selectionSet]]>
            (written st))
         (trace st ++ [EvWritten dataId (node selectionSet)])).

Definition store_merge_op (dataId : string) (incoming : StoreObject) : M unit :=
  fun st =>
    Ok tt
      (mkState (store_merge (store st) dataId incoming) (written st)
         (trace st ++ [EvMerge dataId incoming])).

Definition store_retain_op (dataId : string) : M unit :=
  fun st =>
    Ok tt
      (mkState (store_retain (store st) dataId) (written st)
         (trace st ++ [EvRetain dataId])).

Definition invariant_warn (resultFieldKey : string) (result : StoreValue) : M unit :=
  log (EvWarn resultFieldKey result).

(** [sets.indexOf(selectionSet) >= 0] for [sets = written[dataId] || []]. *)
Definition already_written (st : WriteState) (dataId : string)
  (selectionSet : SelectionSetNode) : bool :=
  bool_decide (node selectionSet ∈ default [] (written st !! dataId)).

(** [directives.some(({ name }) => name.value === 'defer' ||
    name.value === 'client')]. *)
Definition deferred_or_client (ds : list DirectiveNode) : bool :=
  existsb
    (fun d =>
       String.eqb (directive_name d) "defer"
       || String.eqb (directive_name d) "client") ds.

(** [x] is not undefined, as the condition of an [if] on a function or an
    object. *)
Definition defined {A : Type} (x : option A) : bool :=
  match x with Some _ => true | None => false end.

Definition Processed (A : Type) : Type := (A * option MergeOverrides)%type.

Section StoreWriter.
Variable policies : Policies.
Variable utils : Utilities.
(** [process.env.NODE_ENV === 'production'] *)
Variable production : bool.
Variable context : WriteContext.

(** The [typename] of [writeSelectionSetToStore]:
    [getTypenameFromResult(result, selectionSet, context.fragmentMap) ||
     store.getFieldValue(dataId, "__typename") ||
     this.policies.rootTypenamesById[dataId]], on the store as it is when
    the expression is evaluated. *)
Definition resolve_typename (st : WriteState) (dataId : string)
  (result : StoreValue) (selectionSet : SelectionSetNode) : option StoreValue :=
  js_or
    (js_or
       (getTypenameFromResult utils result selectionSet (fragmentMap context))
       (store_getFieldValue (store st) dataId "__typename"))
    (VStr <$> rootTypenamesById policies dataId).

Section Bodies.
(** The recursive calls, one level of recursion down. *)
Variable processSelectionSet_rec :
  StoreValue -> SelectionSetNode -> option MergeOverrides -> option StoreValue ->
  M (Processed StoreObject).
Variable processFieldValue_rec :
  StoreValue -> FieldNode -> M (Processed StoreValue).

(** The end of [writeSelectionSetToStore]: the override pass against
    [store.get(dataId)], then [store.merge(dataId, processed.result)]. *)
Definition commit_processed (dataId : string)
  (processed : Processed StoreObject) : M NormalizedCache :=
  let* st2 := get_state in
  let* incoming :=
    match snd processed with
    | Some mergeOverrides =>
        match
          walkWithMergeOverrides
            (VObj <$> store_get (store st2) dataId)
            (Some (VObj (fst processed))) mergeOverrides
        with
        | inr (Some (VObj fields)) => ret fields
        | inr _ => throw Unrepresentable
        | inl e => throw e
        end
    | None => ret (fst processed)
    end in
  let* _ := store_merge_op dataId incoming in
  let* st3 := get_state in
  ret (store st3).

Definition writeSelectionSetToStore_body (dataId : string)
  (result : StoreValue) (selectionSet : SelectionSetNode)
  : M NormalizedCache :=
  fun st =>
    if already_written st dataId selectionSet then Ok (store st) st
    else
      (let* _ := sets_push dataId selectionSet in
       let* st1 := get_state in
       let typename := resolve_typename st1 dataId result selectionSet in
       let* processed :=
         processSelectionSet_rec result selectionSet None typename in
       commit_processed dataId processed) st.

(** One turn of [selectionSet.selections.forEach]; the accumulator is
    the pair of the local variables [mergedFields] and [mergeOverrides]. *)
Definition processSelection (result : StoreValue) (typename : option StoreValue)
  (acc : Processed StoreObject) (selection : SelectionNode)
  : M (Processed StoreObject) :=
  let '(mergedFields, mergeOverrides) := acc in
  if negb (shouldInclude utils selection (variables context)) then ret acc
  else
    match selection with
    | Field f =>
        let resultFieldKey := resultKeyNameFromField f in
        if is_null result then throw ReadOfNull
        else
        match getProp result resultFieldKey with
        | Some value =>
            if is_host value then throw HostValue
            else
            let storeFieldName :=
              getStoreFieldName policies typename f (variables context) in
            let* processed := processFieldValue_rec value f in
            let merge :=
              getFieldMergeFunction policies typename f
                (variables context) in
            let mergeOverrides :=
              if defined merge || defined (snd processed) then
                let es := from_option entries [] mergeOverrides in
                Some
                  (Overrides
                     (aset storeFieldName
                        (mergeEntry (alookup storeFieldName es)
                           (merge, snd processed)) es))
              else mergeOverrides in
            ret (mergeFields mergedFields [(storeFieldName, fst processed)],
                 mergeOverrides)
        | None =>
            if usingPossibleTypes policies
               && negb (deferred_or_client (field_directives f))
            then
              let* _ := invariant_warn resultFieldKey result in ret acc
            else ret acc
        end
    | _ =>
        match getFragmentFromSelection selection (fragmentMap context) with
        | None => throw InvariantViolation
        | Some fragment =>
            if fragmentMatches policies fragment typename then
              let* processed :=
                processSelectionSet_rec result
                  (fragment_selectionSet fragment) mergeOverrides typename in
              (* The callee was handed this very [mergeOverrides] object
                 and extended it in place, so
                 [context.merge(mergeOverrides, processed.mergeOverrides)]
                 merges the object with itself, or undefined with it. *)
              ret (mergeFields mergedFields (fst processed),
                   match snd processed with
                   | Some o => Some o
                   | None => mergeOverrides
                   end)
            else ret acc
        end
    end.

Fixpoint forEach_selection (result : StoreValue) (typename : option StoreValue)
  (sels : list SelectionNode) (acc : Processed StoreObject)
  : M (Processed StoreObject) :=
  match sels with
  | [] => ret acc
  | selection :: rest =>
      let* acc' := processSelection result typename acc selection in
      forEach_selection result typename rest acc'
  end.

Definition processSelectionSet_body (result : StoreValue)
  (selectionSet : SelectionSetNode) (mergeOverrides : option MergeOverrides)
  (typename : option StoreValue) : M (Processed StoreObject) :=
  let mergedFields : StoreObject :=
    match typename with
    | Some (VStr t) => [("__typename", VStr t)]
    | _ => []
    end in
  forEach_selection result typename (selections selectionSet)
    (mergedFields, mergeOverrides).

(** [value.map((item, i) => ...)] with the sparse [overrides] it fills. *)
Fixpoint map_items (field : FieldNode) (items : list StoreValue) (i : nat)
  : M (list StoreValue * list (string * OverrideEntry)) :=
  match items with
  | [] => ret ([], [])
  | item :: rest =>
      let* processed := processFieldValue_rec item field in
      let* tail := map_items field rest (S i) in
      ret (fst processed :: fst tail,
           match snd processed with
           | Some mergeOverrides =>
               (index_key i, (None, Some mergeOverrides)) :: snd tail
           | None => snd tail
           end)
  end.

Definition processFieldValue_body
  (writeSelectionSetToStore_rec :
     string -> StoreValue -> SelectionSetNode -> M NormalizedCache)
  (value : StoreValue) (field : FieldNode) : M (Processed StoreValue) :=
  match field_selectionSet field, value with
  | None, _ | Some _, VNull =>
      ret (if production then value else cloneDeep value, None)
  | Some _, VArr items =>
      let* mapped := map_items field items 0 in
      ret (VArr (fst mapped),
           match snd mapped with
           | [] => None
           | overrides => Some (Overrides overrides)
           end)
  | Some selectionSet, _ =>
      match
        (if truthy value
         then identify policies value selectionSet (fragmentMap context)
         else None)
      with
      | Some dataId =>
          let* _ := writeSelectionSetToStore_rec dataId value selectionSet in
          ret (makeReference dataId, None)
      | None =>
          let* processed :=
            processSelectionSet_rec value selectionSet None
              (getTypenameFromResult utils value selectionSet
                 (fragmentMap context)) in
          ret (VObj (fst processed), snd processed)
      end
  end.
End Bodies.

(** The three methods call each other; [fuel] bounds the depth of the
    calls, and a call that would go deeper throws [OutOfFuel]. *)
Fixpoint processSelectionSet (fuel : nat) (result : StoreValue)
  (selectionSet : SelectionSetNode) (mergeOverrides : option MergeOverrides)
  (typename : option StoreValue) {struct fuel} : M (Processed StoreObject) :=
  match fuel with
  | O => throw OutOfFuel
  | S n =>
      processSelectionSet_body (processSelectionSet n) (processFieldValue n)
        result selectionSet mergeOverrides typename
  end
with processFieldValue (fuel : nat) (value : StoreValue) (field : FieldNode)
  {struct fuel} : M (Processed StoreValue) :=
  match fuel with
  | O => throw OutOfFuel
  | S n =>
      processFieldValue_body (processSelectionSet n) (processFieldValue n)
        (writeSelectionSetToStore_body (processSelectionSet n))
        value field
  end.

Definition writeSelectionSetToStore (fuel : nat) (dataId : string)
  (result : StoreValue) (selectionSet : SelectionSetNode) : M NormalizedCache :=
  writeSelectionSetToStore_body (processSelectionSet fuel)
    dataId result selectionSet.
End StoreWriter.

(** [writeQueryToStore]'s argument object; an omitted member is [None]. *)
Record WriteQueryOptions : Type := mkOptions {
  opt_query : DocumentNode;
  opt_result : option StoreValue;
  opt_dataId : option string;
  opt_store : option NormalizedCache;
  opt_variables : option StoreObject;
}.

Section writeQueryToStore.
Variable policies : Policies.
Variable utils : Utilities.
Variable production : bool.

(** The state a top-level write starts from: the store it was given or a
    new one, and a new dedup table. *)
Definition initial_state (options : WriteQueryOptions) : WriteState :=
  mkState (default defaultNormalizedCacheFactory (opt_store options)) ∅ [].

(** The context the top-level write builds. *)
Definition query_context (options : WriteQueryOptions)
  (vds : list VariableDefinitionNode) : WriteContext :=
  {| variables :=
       objectSpread (getDefaultValues vds)
         (default [] (opt_variables options));
     fragmentMap := createFragmentMap (opt_query options) |}.

Definition writeQueryToStore (fuel : nat) (options : WriteQueryOptions)
  : Completion NormalizedCache :=
  let dataId := default "ROOT_QUERY" (opt_dataId options) in
  let operationDefinition := getOperationDefinition (opt_query options) in
  (let* _ := store_retain_op dataId in
   match operationDefinition with
   | None => throw TypeError
   | Some (vds, selectionSet) =>
       writeSelectionSetToStore policies utils production
         (query_context options vds) fuel dataId
         (default (VObj []) (js_or (opt_result options) (Some (VObj []))))
         selectionSet
   end) (initial_state options).
End writeQueryToStore.

(** ** A sample policy provider and sample utilities

    Closed instances of the parameters, used to run the writer on concrete
    queries: the default identity [__typename:id], storage keys that are the
    field names, exact-match fragments, and a merge function per listed
    (type name, field name). *)
Module Sample.
Definition rootTypenamesById (dataId : string) : option string :=
  if String.eqb dataId "ROOT_QUERY" then Some "Query"
  else if String.eqb dataId "ROOT_MUTATION" then Some "Mutation"
  else if String.eqb dataId "ROOT_SUBSCRIPTION" then Some "Subscription"
  else None.

Definition identify (object : StoreValue) (_ : SelectionSetNode)
  (_ : gmap string Fragment) : option string :=
  match ownProp object "__typename", ownProp object "id" with
  | Some (VStr t), Some (VStr i) => Some (String.append t (String.append ":" i))
  | _, _ => None
  end.

Definition getStoreFieldName (_ : option StoreValue) (f : FieldNode)
  (_ : StoreObject) : string := field_name f.

Definition getFieldMergeFunction
  (table : list (string * string * MergeFunction))
  (typename : option StoreValue) (f : FieldNode) (_ : StoreObject)
  : option MergeFunction :=
  match typename with
  | Some (VStr t) =>
      snd <$> List.find
                (fun e => String.eqb (fst (fst e)) t
                          && String.eqb (snd (fst e)) (field_name f)) table
  | _ => None
  end.

Definition fragmentMatches (fragment : Fragment) (typename : option StoreValue)
  : bool :=
  match fragment_typeCondition fragment with
  | None => true
  | Some c =>
      match typename with
      | Some (VStr t) => String.eqb c t
      | _ => false
      end
  end.

Definition policies (table : list (string * string * MergeFunction))
  (strict : bool) : Policies :=
  mkPolicies rootTypenamesById identify getStoreFieldName
    (getFieldMergeFunction table) fragmentMatches strict.

(** The type name on the result: its [__typename] when that is a string,
    else the result value of the first selected [__typename] field. *)
Definition getTypenameFromResult (result : StoreValue)
  (selectionSet : SelectionSetNode) (_ : gmap string Fragment)
  : option StoreValue :=
  match ownProp result "__typename" with
  | Some (VStr t) => Some (VStr t)
  | _ =>
      match
        List.find
          (fun s =>
             match s with
             | Field f => String.eqb (field_name f) "__typename"
             | _ => false
             end) (selections selectionSet)
      with
      | Some (Field f) => ownProp result (resultKeyNameFromField f)
      | _ => None
      end
  end.

Definition selection_directives (s : SelectionNode) : list DirectiveNode :=
  match s with
  | Field f => field_directives f
  | FragmentSpread _ ds => ds
  | InlineFragment _ ds _ => ds
  end.

(** [@skip(if: ...)] and [@include(if: ...)] against the variables. *)
Definition shouldInclude (s : SelectionNode) (variables : StoreObject) : bool :=
  forallb
    (fun d =>
       let evaled :=
         match alookup "if" (directive_arguments d) with
         | Some (Variable_ x) => otruthy (alookup x variables)
         | Some (Const_ v) => truthy v
         | None => false
         end in
       if String.eqb (directive_name d) "skip" then negb evaled
       else if String.eqb (directive_name d) "include" then evaled
       else true)
    (selection_directives s).

Definition utils : Utilities :=
  mkUtilities getTypenameFromResult shouldInclude.

(** A field without alias, arguments or directives. *)
Definition leaf (name : string) : SelectionNode :=
  Field (mkField None name [] [] None).
Definition nested (name : string) (n : nat) (sels : list SelectionNode)
  : SelectionNode :=
  Field (mkField None name [] [] (Some (mkSelectionSet n sels))).

(** A merge function that concatenates lists. *)
Definition concat : MergeFunction :=
  fun existing incoming =>
    match existing, incoming with
    | Some (VArr a), Some (VArr b) => VArr (a ++ b)
    | _, Some v => v
    | Some v, None => v
    | None, None => VNull
    end.
End Sample.

(** The field selections [processSelectionSet] can reach from a list of
    selections with [fuel] levels of calls: its fields, and the fields of
    the fragments it names, inline or by a spread. *)
Fixpoint selected_fields (fragmentMap : gmap string Fragment) (fuel : nat)
  (sels : list SelectionNode) {struct fuel} : list FieldNode :=
  match fuel with
  | O => []
  | S n =>
      flat_map
        (fun selection =>
           match selection with
           | Field f => [f]
           | _ =>
               match getFragmentFromSelection selection fragmentMap with
               | Some fragment =>
                   selected_fields fragmentMap n
                     (selections (fragment_selectionSet fragment))
               | None => []
               end
           end) sels
  end.

(** ** Leaves on a heap

    The tree values above cannot tell a copy from the original.  Here the
    arrays and objects of a value are cells of a heap, so that an update of
    the caller's input after the write is an update of cells, and the leaf
    branch of [processFieldValue] is read again at that level. *)
Module Aliasing.

(** A value as the engine holds it: a primitive, or a pointer to a mutable
    array or object. *)
Inductive HeapValue : Type :=
| HNull
| HBool (b : bool)
| HNum (n : Z)
| HStr (s : string)
| HPtr (l : nat).

Inductive Cell : Type :=
| CArr (items : list HeapValue)
| CObj (fields : list (string * HeapValue)).

(** Cell [l] is at index [l]; a new cell goes at the end. *)
Abbreviation Heap := (list Cell).

(** The tree a heap value stands for, read through at most [fuel]
    pointers. *)
Fixpoint reify (fuel : nat) (h : Heap) (v : HeapValue) : option StoreValue :=
  match v with
  | HNull => Some VNull
  | HBool b => Some (VBool b)
  | HNum n => Some (VNum n)
  | HStr s => Some (VStr s)
  | HPtr l =>
      match fuel with
      | O => None
      | S n =>
          match h !! l with
          | Some (CArr items) => VArr <$> mapM (reify n h) items
          | Some (CObj fields) =>
              (fun vs => VObj (zip (fields.*1) vs))
                <$> mapM (reify n h) (fields.*2)
          | None => None
          end
      end
  end.

(** The members of an array or object copied one after the other, each on
    the heap the copies before it have extended. *)
Fixpoint clone_items (clone : Heap -> HeapValue -> option (HeapValue * Heap))
  (h : Heap) (items : list HeapValue) : option (list HeapValue * Heap) :=
  match items with
  | [] => Some ([], h)
  | x :: rest =>
      match clone h x with
      | Some (x', h1) =>
          match clone_items clone h1 rest with
          | Some (rest', h2) => Some (x' :: rest', h2)
          | None => None
          end
      | None => None
      end
  end.

(** Modelled from the spec: [cloneDeep] (utilities/common/cloneDeep), the
    deep copy of a leaf before it is stored: a primitive is itself, an
    array or object is a new cell whose members are the copies of the
    members. *)
Fixpoint cloneDeep (fuel : nat) (h : Heap) (v : HeapValue)
  : option (HeapValue * Heap) :=
  match v with
  | HPtr l =>
      match fuel with
      | O => None
      | S n =>
          match h !! l with
          | Some (CArr items) =>
              match clone_items (cloneDeep n) h items with
              | Some (items', h') =>
                  Some (HPtr (length h'), h' ++ [CArr items'])
              | None => None
              end
          | Some (CObj fields) =>
              match clone_items (cloneDeep n) h (fields.*2) with
              | Some (vs', h') =>
                  Some (HPtr (length h'),
                        h' ++ [CObj (zip (fields.*1) vs')])
              | None => None
              end
          | None => None
          end
      end
  | _ => Some (v, h)
  end.

(** The first branch of [processFieldValue]:
    [if (!field.selectionSet || value === null)
       return { result: production ? value : cloneDeep(value) }].
    The outer [None] is a value the branch does not take; the inner one a
    copy that needs more than [fuel] levels. *)
Definition processFieldValue_leaf (production : bool) (fuel : nat) (h : Heap)
  (value : HeapValue) (field : FieldNode)
  : option (option (HeapValue * Heap)) :=
  if negb (defined (field_selectionSet field))
     || match value with HNull => true | _ => false end
  then Some (if production then Some (value, h) else cloneDeep fuel h value)
  else None.


(** *** The override pass on a heap

    [walkWithMergeOverrides] read again where the existing and the incoming
    values are pointers into one heap, a merge function may assign to
    cells, and [maybeDeepFreeze] makes cells immutable. *)

(** A merge function as the engine runs it: from the heap and the two
    values it is called with, the cells it assigns, in order, and the value
    it returns.  An assignment at an address of the heap replaces that
    cell; an assignment at the first free address makes a new cell. *)
Definition HeapMerge : Type :=
  Heap -> option HeapValue -> option HeapValue ->
  list (nat * Cell) * HeapValue.

Inductive HeapOverrides : Type :=
| HOverrides (entries :
    list (string * (option HeapMerge * option HeapOverrides))).

Definition HeapEntry : Type :=
  (option HeapMerge * option HeapOverrides)%type.

(** The heap, the cells that [Object.freeze] has made immutable, and the
    calls of merge functions so far: the existing value each was given, and
    the heap as it was when it was called. *)
Record HeapState : Type := mkHeapState {
  cells : Heap;
  frozen : list nat;
  calls : list (option HeapValue * Heap);
}.

Definition truthy_value (v : HeapValue) : bool :=
  match v with
  | HNull => false
  | HBool b => b
  | HNum n => negb (Z.eqb n 0)
  | HStr s => negb (String.eqb s "")
  | HPtr _ => true
  end.

(** The members of an array under the names of their indices. *)
Fixpoint indexed (i : nat) (l : list HeapValue) : list (string * HeapValue) :=
  match l with
  | [] => []
  | x :: r => (index_key i, x) :: indexed (S i) r
  end.

(** [o && o[name]].  A read that leaves the own properties and is answered
    by the host stops the walk on the heap. *)
Definition member (h : Heap) (o : option HeapValue) (name : string)
  : WriteError + option HeapValue :=
  match o with
  | None => inr None
  | Some v =>
      if negb (truthy_value v) then inr (Some v)
      else
        match v with
        | HPtr l =>
            match h !! l with
            | Some (CObj fields) =>
                match alookup name fields with
                | Some x => inr (Some x)
                | None =>
                    if bool_decide (name ∈ Object_prototype)
                    then inl HostValue else inr None
                end
            | Some (CArr items) =>
                if String.eqb name "length"
                then inr (Some (HNum (Z.of_nat (length items))))
                else
                  match alookup name (indexed 0 items) with
                  | Some x => inr (Some x)
                  | None =>
                      if bool_decide
                           (name ∈ Array_prototype ++ Object_prototype)
                      then inl HostValue else inr None
                  end
            | None => inl Unrepresentable
            end
        | _ =>
            match reify 0 h v with
            | Some t =>
                match getProp t name with
                | None => inr None
                | Some (VNum n) => inr (Some (HNum n))
                | Some (VStr c) => inr (Some (HStr c))
                | Some _ => inl HostValue
                end
            | None => inl Unrepresentable
            end
        end
  end.

Definition update (l : nat) (c : Cell) (s : HeapState) : HeapState :=
  mkHeapState (<[l := c]> (cells s)) (frozen s) (calls s).

Definition allocate (c : Cell) (s : HeapState) : HeapState :=
  mkHeapState (cells s ++ [c]) (frozen s) (calls s).

(** [incomingObject[name] = v] in strict code: a TypeError on undefined, on
    null, on a primitive and on a frozen object. *)
Definition assign (o : option HeapValue) (name : string) (v : HeapValue)
  (s : HeapState) : WriteError + HeapState :=
  match o with
  | Some (HPtr l) =>
      if bool_decide (l ∈ frozen s) then inl TypeError
      else
        match cells s !! l with
        | Some (CObj fields) => inr (update l (CObj (aset name v fields)) s)
        | Some (CArr items) =>
            match alookup name (indexed 0 (items ++ [HNull])) with
            | Some _ =>
                inr (update l
                       (CArr (map snd (aset name v (indexed 0 items)))) s)
            | None => inl Unrepresentable
            end
        | None => inl Unrepresentable
        end
  | _ => inl TypeError
  end.

(** The assignments of a merge function, one after the other. *)
Fixpoint apply_writes (ws : list (nat * Cell)) (s : HeapState)
  : WriteError + HeapState :=
  match ws with
  | [] => inr s
  | (l, c) :: rest =>
      if bool_decide (l ∈ frozen s) then inl TypeError
      else if (l <? length (cells s))%nat
           then apply_writes rest (update l c s)
           else if (l =? length (cells s))%nat
                then apply_writes rest (allocate c s)
                else inl Unrepresentable
  end.

(** The cells a value reaches through at most [fuel] pointers. *)
Fixpoint reach (fuel : nat) (h : Heap) (v : HeapValue) : list nat :=
  match v with
  | HPtr l =>
      match fuel with
      | O => []
      | S n =>
          l :: match h !! l with
               | Some (CArr items) => flat_map (reach n h) items
               | Some (CObj fields) => flat_map (reach n h) (fields.*2)
               | None => []
               end
      end
  | _ => []
  end.

(** Modelled from the spec: [maybeDeepFreeze]
    (utilities/common/maybeDeepFreeze), which outside production makes the
    value immutable with everything it reaches, and in production does
    nothing.  What a value reaches it reaches without meeting a cell twice,
    so through no more pointers than the heap has cells. *)
Definition maybeDeepFreeze (production : bool) (v : option HeapValue)
  (s : HeapState) : HeapState :=
  match v with
  | Some x =>
      if production then s
      else mkHeapState (cells s)
             (reach (S (length (cells s))) (cells s) x ++ frozen s)
             (calls s)
  | None => s
  end.

Definition called (existingValue : option HeapValue) (s : HeapState)
  : HeapState :=
  mkHeapState (cells s) (frozen s) (calls s ++ [(existingValue, cells s)]).

Fixpoint walkWithMergeOverrides (production : bool)
  (overrides : HeapOverrides)
  (existingObject incomingObject : option HeapValue) (s : HeapState)
  {struct overrides} : WriteError + HeapState :=
  match overrides with
  | HOverrides es =>
      (fix forEach (es : list (string * HeapEntry)) (s : HeapState)
         {struct es} : WriteError + HeapState :=
         match es with
         | [] => inr s
         | (name, (merge, child)) :: rest =>
             match member (cells s) existingObject name with
             | inl e => inl e
             | inr existingValue =>
                 match member (cells s) incomingObject name with
                 | inl e => inl e
                 | inr incomingValue =>
                     match
                       match child with
                       | Some c =>
                           walkWithMergeOverrides production c
                             existingValue incomingValue s
                       | None => inr s
                       end
                     with
                     | inl e => inl e
                     | inr s1 =>
                         match merge with
                         | Some f =>
                             let s2 :=
                               called existingValue
                                 (maybeDeepFreeze production existingValue s1)
                             in
                             let result :=
                               f (cells s2) existingValue incomingValue in
                             match apply_writes (fst result) s2 with
                             | inl e => inl e
                             | inr s3 =>
                                 match
                                   assign incomingObject name (snd result) s3
                                 with
                                 | inl e => inl e
                                 | inr s4 => forEach rest s4
                                 end
                             end
                         | None => forEach rest s1
                         end
                     end
                 end
             end
         end) es s
  end.

(** A merge function that appends the incoming array to the existing one
    in a new array, and one that pushes the incoming members onto the
    existing array and returns it. *)
Definition concat_fresh : HeapMerge :=
  fun h existing incoming =>
    match existing, incoming with
    | Some (HPtr e), Some (HPtr i) =>
        match h !! e, h !! i with
        | Some (CArr a), Some (CArr b) =>
            ([(length h, CArr (a ++ b))], HPtr (length h))
        | _, _ => ([], HPtr i)
        end
    | _, Some v => ([], v)
    | _, None => ([], HNull)
    end.

Definition push_onto_existing : HeapMerge :=
  fun h existing incoming =>
    match existing, incoming with
    | Some (HPtr e), Some (HPtr i) =>
        match h !! e, h !! i with
        | Some (CArr a), Some (CArr b) => ([(e, CArr (a ++ b))], HPtr e)
        | _, _ => ([], HPtr i)
        end
    | _, Some v => ([], v)
    | _, None => ([], HNull)
    end.

(** The stored [{ numbers: [1, 2] }] in cells 0 and 1 and the incoming
    [{ numbers: [3, 4] }] in cells 2 and 3. *)
Definition numbers_heap : Heap :=
  [CArr [HNum 1; HNum 2]; CObj [("numbers", HPtr 0)];
   CArr [HNum 3; HNum 4]; CObj [("numbers", HPtr 2)]].
End Aliasing.

Section HeapOverrides_induction.
Variable P : Aliasing.HeapOverrides -> Prop.
Hypothesis Hnode :
  forall es,
    Forall (fun e : string * Aliasing.HeapEntry =>
              match snd (snd e) with Some c => P c | None => True end) es ->
    P (Aliasing.HOverrides es).

Fixpoint HeapOverrides_ind' (o : Aliasing.HeapOverrides) : P o :=
  match o with
  | Aliasing.HOverrides es =>
      Hnode es
        ((fix go (es : list (string * Aliasing.HeapEntry))
            : Forall (fun e : string * Aliasing.HeapEntry =>
                        match snd (snd e) with
                        | Some c => P c
                        | None => True
                        end) es :=
            match es with
            | [] => Forall_nil_2 _
            | e :: r =>
                Forall_cons_2 _ e r
                  (match e as e0
                     return match snd (snd e0) with
                            | Some c => P c
                            | None => True
                            end
                   with
                   | (k, (m, c)) =>
                       match c as c0
                         return match c0 with
                                | Some c => P c
                                | None => True
                                end
                       with
                       | Some c' => HeapOverrides_ind' c'
                       | None => I
                       end
                   end) (go r)
            end) es)
  end.
End HeapOverrides_induction.

(** ** Concrete writes

    The queries, results and states the closed examples run on. *)
Module Scenario.
Import Sample.

(** [{ __typename id name pet { __typename id kind } }] *)
Definition pet_selection : SelectionSetNode :=
  mkSelectionSet 1 [leaf "__typename"; leaf "id"; leaf "kind"].

Definition pet_field : FieldNode :=
  mkField None "pet" [] [] (Some pet_selection).

Definition person_selection : SelectionSetNode :=
  mkSelectionSet 0
    [leaf "__typename"; leaf "id"; leaf "name"; Field pet_field].

Definition pet : StoreValue :=
  VObj [("__typename", VStr "Pet"); ("id", VStr "9"); ("kind", VStr "cat")].

Definition person : StoreValue :=
  VObj [("__typename", VStr "Person"); ("id", VStr "1");
        ("name", VStr "A"); ("pet", pet)].

(** An embedded object: no [id], so no entity key. *)
Definition stray : StoreValue :=
  VObj [("__typename", VStr "Pet"); ("kind", VStr "dog")].

Definition no_context : WriteContext := mkContext [] ∅.

Definition empty_state : WriteState :=
  mkState defaultNormalizedCacheFactory ∅ [].

(** The state after [pet] was written under its key with [pet_selection]. *)
Definition after_pet : WriteState :=
  final_state
    (writeSelectionSetToStore (policies [] true) utils false no_context 3
       "Pet:9" pet pet_selection empty_state).

(** [... on Dog { bark }] *)
Definition dog_fragment : SelectionNode :=
  InlineFragment (Some "Dog") [] (mkSelectionSet 2 [leaf "bark"]).

Definition cat : StoreValue :=
  VObj [("__typename", VStr "Cat"); ("name", VStr "Tom")].

(** [nick @skip(if: true)] *)
Definition skipped_field : FieldNode :=
  mkField None "nick" [] [mkDirective "skip" [("if", Const_ (VBool true))]]
    None.

Definition nick_field : FieldNode := mkField None "nick" [] [] None.

(** [query ($first: Int = 10, $after: String = "a", $tag: String) { ... }]
    written with the variables [{ after: "z", tag: "t" }]. *)
Definition paged_query : DocumentNode :=
  [OperationDefinition
     [mkVariableDefinition "first" (Some (VNum 10));
      mkVariableDefinition "after" (Some (VStr "a"));
      mkVariableDefinition "tag" None]
     person_selection].

Definition paged_options : WriteQueryOptions :=
  mkOptions paged_query (Some person) None None
    (Some [("after", VStr "z"); ("tag", VStr "t")]).



(** [{ numbers }] on a store whose [ROOT_QUERY] has [numbers: [1, 2]], with
    the concatenating merge function for [Query.numbers]. *)
Definition numbers_query : DocumentNode :=
  [OperationDefinition [] (mkSelectionSet 9 [leaf "numbers"])].

Definition numbers_policies : Policies :=
  policies [("Query", "numbers", concat)] true.

Definition numbers_store : NormalizedCache :=
  mkCache {["ROOT_QUERY" := [("numbers", VArr [VNum 1; VNum 2])]]} ∅.

Definition numbers_options : WriteQueryOptions :=
  mkOptions numbers_query
    (Some (VObj [("numbers", VArr [VNum 3; VNum 4])])) None
    (Some numbers_store) None.

(** A leaf [data] whose value is the array [[{ a: 1 }, "x"]] held in two
    cells of the caller, and the same heap after the write once the caller
    has overwritten both cells. *)
Definition data_field : FieldNode := mkField None "data" [] [] None.

Definition caller_heap : list Aliasing.Cell :=
  [Aliasing.CObj [("a", Aliasing.HNum 1)];
   Aliasing.CArr [Aliasing.HPtr 0; Aliasing.HStr "x"]].

Definition overwritten_heap : list Aliasing.Cell :=
  [Aliasing.CObj [("a", Aliasing.HNum 99)];
   Aliasing.CArr [];
   Aliasing.CObj [("a", Aliasing.HNum 1)];
   Aliasing.CArr [Aliasing.HPtr 2; Aliasing.HStr "x"]].

(** A merge function that adds numbers, and one that returns the pair of
    what it was given. *)
Definition sum : MergeFunction :=
  fun existing incoming =>
    match existing, incoming with
    | Some (VNum a), Some (VNum b) => VNum (a + b)
    | _, Some v => v
    | _, None => VNull
    end.

Definition observed : MergeFunction :=
  fun existing incoming =>
    VArr [default VNull existing; default VNull incoming].

(** [{ a: { merge: observed, child: { b: { merge: sum } } } }] *)
Definition nested_overrides : MergeOverrides :=
  Overrides
    [("a", (Some observed, Some (Overrides [("b", (Some sum, None))])))].
End Scenario.

(** ** The vocabulary of the properties *)

(** [preserves R m]: the state [m] ends in, by a return or by a throw, is
    related by [R] to the state it started from. *)
Definition preserves (R : WriteState -> WriteState -> Prop) {A : Type}
  (m : M A) : Prop :=
  forall st, R st (final_state (m st)).

(** [was_written st d n]: selection set [n] is in [written[d]]. *)
Definition was_written (st : WriteState) (d : string) (n : nat) : Prop :=
  n ∈ default [] (written st !! d).

(** The dedup table only grows. *)
Definition written_le (a b : WriteState) : Prop :=
  forall d n, was_written a d n -> was_written b d n.

(** The roots retained in the store, and the trace as a growing log. *)
Definition same_roots (a b : WriteState) : Prop :=
  rootIds (store a) = rootIds (store b).

Definition trace_extends (a b : WriteState) : Prop :=
  exists t, trace b = trace a ++ t.



(** A trace made of complete writes: each [sets.push] of a pair is followed,
    after the complete writes of the entities found below it, by the
    [store.merge] of the same entity key. *)
Inductive complete_writes : list Event -> Prop :=
| complete_nil : complete_writes []
| complete_warn k r t :
    complete_writes t -> complete_writes (EvWarn k r :: t)
| complete_write d n inner fields t :
    complete_writes inner -> complete_writes t ->
    complete_writes (EvWritten d n :: inner ++ EvMerge d fields :: t).

(** [emits m]: when [m] returns, what it added to the trace is a sequence
    of complete writes. *)
Definition emits {A : Type} (m : M A) : Prop :=
  forall st a st',
    m st = Ok a st' ->
    exists t, trace st' = trace st ++ t /\ complete_writes t.

(** A write that is not deduplicated and returns has added its [sets.push],
    then complete writes, then its own [store.merge], which is last. *)
Definition brackets (wSS : string -> StoreValue -> SelectionSetNode ->
                           M NormalizedCache) : Prop :=
  forall d r ss st c st',
    wSS d r ss st = Ok c st' ->
    (already_written st d ss = true /\ st' = st)
    \/ (already_written st d ss = false
        /\ exists inner fields,
            trace st' = trace st ++
                        EvWritten d (node ss) :: inner ++ [EvMerge d fields]
            /\ complete_writes inner).

(** The first half of a turn of the walker: the recursive call on [child]
    and the incoming object and value it leaves. *)
Definition walked_child (existingObject incomingObject : option StoreValue)
  (name : string) (child : option MergeOverrides)
  : WriteError + (option StoreValue * option StoreValue) :=
  let existingValue := guardedProp existingObject name in
  let incomingValue := guardedProp incomingObject name in
  match child with
  | Some c =>
      match walkWithMergeOverrides existingValue incomingValue c with
      | inr incomingValue' =>
          if is_reference_type incomingValue'
          then
            match setProp incomingObject name (default VNull incomingValue') with
            | inr o => inr (Some o, incomingValue')
            | inl e => inl e
            end
          else inr (incomingObject, incomingValue')
      | inl e => inl e
      end
  | None => inr (incomingObject, incomingValue)
  end.

(** Two values are both objects or both arrays. *)
Definition same_kind (a b : StoreValue) : Prop :=
  match a, b with
  | VObj _, VObj _ | VArr _, VArr _ => True
  | _, _ => False
  end.

(** The overrides [es] name positions of the incoming object or array [c]:
    distinct names, as the keys of a JavaScript object are, and on an array
    not its [length]. *)
Definition names_positions (es : list (string * OverrideEntry))
  (c : StoreValue) : Prop :=
  is_reference_type (Some c) = true
  /\ NoDup (akeys es)
  /\ forall l, c = VArr l -> "length" ∉ akeys es.

(** The value found from [v] along a path of property names, each read as
    [o && o[name]]. *)
Fixpoint value_at (v : option StoreValue) (path : list string)
  : option StoreValue :=
  match path with
  | [] => v
  | name :: rest => value_at (guardedProp v name) rest
  end.

(** [position f child o incoming path]: in the overrides [o] the path ends
    at an entry with the merge function [f] and the child tree [child], it
    goes there through entries that have a child tree and no merge function,
    and the incoming value has an object or an array at every step. *)
Inductive position (f : MergeFunction) (child : option MergeOverrides)
  : MergeOverrides -> option StoreValue -> list string -> Prop :=
| position_here es c name :
    names_positions es c ->
    alookup name es = Some (Some f, child) ->
    position f child (Overrides es) (Some c) [name]
| position_below es c name below path :
    names_positions es c ->
    alookup name es = Some (None, Some below) ->
    position f child below (getProp c name) path ->
    position f child (Overrides es) (Some c) (name :: path).


(** [observed_unchanged h h' calls]: each existing value in [calls], read
    on the heap [h'], is the tree it was on the heap of its call. *)
Definition observed_unchanged (h' : list Aliasing.Cell)
  (calls : list (option Aliasing.HeapValue * list Aliasing.Cell)) : Prop :=
  forall existing h fuel t,
    (Some existing, h) ∈ calls ->
    (fuel <= S (length h))%nat ->
    Aliasing.reify fuel h existing = Some t ->
    Aliasing.reify fuel h' existing = Some t.

(** Between two states of the walk on a heap: the frozen cells stay frozen
    and stay as they are, and the existing value of every call made in
    between is frozen with all it reaches, and is in the later heap as it
    was when the call was made. *)
Definition frozen_kept (s s' : Aliasing.HeapState) : Prop :=
  (forall l, l ∈ Aliasing.frozen s -> l ∈ Aliasing.frozen s')
  /\ (forall l,
        l ∈ Aliasing.frozen s ->
        Aliasing.cells s' !! l = Aliasing.cells s !! l)
  /\ exists new,
      Aliasing.calls s' = Aliasing.calls s ++ new
      /\ forall existing h l,
          (Some existing, h) ∈ new ->
          l ∈ Aliasing.reach (S (length h)) h existing ->
          l ∈ Aliasing.frozen s' /\ Aliasing.cells s' !! l = h !! l.

(** ** Further vocabulary and cases *)

(** Overrides that carry no merge function at any position. *)
Fixpoint merge_free (o : MergeOverrides) : bool :=
  match o with
  | Overrides es =>
      (fix each (es : list (string * OverrideEntry)) : bool :=
         match es with
         | [] => true
         | (_, (merge, child)) :: rest =>
             negb (defined merge)
             && match child with
                | Some c => merge_free c
                | None => true
                end
             && each rest
         end) es
  end.

(** The entry [processFieldValue] makes for the element at an index of an
    array: [overrides[i] = { child: mergeOverrides }]. *)
Definition element_override (first count : nat)
  (e : string * OverrideEntry) : Prop :=
  exists i c,
    (first <= i < first + count)%nat /\ e = (index_key i, (None, Some c)).

(** Every field stored under an entity key in [a] is still stored under it
    in [b]. *)
Definition fields_persist (a b : WriteState) : Prop :=
  forall d k,
    is_Some (store_getFieldValue (store a) d k) ->
    is_Some (store_getFieldValue (store b) d k).

(** The keys a field map made for [selectionSet] under [typename] may have:
    [__typename] when the type name is a string, and the storage keys of
    the field selections the processor can reach. *)
Definition selected_key (policies : Policies) (context : WriteContext)
  (typename : option StoreValue) (fuel : nat) (sels : list SelectionNode)
  (k : string) : Prop :=
  (k = "__typename" /\ exists t, typename = Some (VStr t))
  \/ exists f,
       f ∈ selected_fields (fragmentMap context) fuel sels
       /\ k = getStoreFieldName policies typename f (variables context).

(** [identified policies context x]: [identify] can answer the entity key
    [x]. *)
Definition identified (policies : Policies) (context : WriteContext)
  (x : string) : Prop :=
  exists v ss, identify policies v ss (fragmentMap context) = Some x.

(** The entities outside [K] are the same in [a] and [b]. *)
Definition untouched_outside (K : string -> Prop) (a b : WriteState) : Prop :=
  forall d, ~ K d -> store_get (store b) d = store_get (store a) d.

(** No selection set is twice in the dedup table under one entity key. *)
Definition no_duplicates (st : WriteState) : Prop :=
  forall d, NoDup (default [] (written st !! d)).

(** The depth of a selection set: one more than the deepest selection set
    nested in its fields and inline fragments. *)
Fixpoint selectionSet_depth (ss : SelectionSetNode) : nat :=
  match ss with
  | mkSelectionSet _ sels =>
      S ((fix deepest (l : list SelectionNode) : nat :=
            match l with
            | [] => O
            | s :: r => Nat.max (selection_depth s) (deepest r)
            end) sels)
  end
with selection_depth (s : SelectionNode) : nat :=
  match s with
  | Field f => field_depth f
  | FragmentSpread _ _ => O
  | InlineFragment _ _ ss => selectionSet_depth ss
  end
with field_depth (f : FieldNode) : nat :=
  match f with
  | mkField _ _ _ _ (Some ss) => selectionSet_depth ss
  | mkField _ _ _ _ None => O
  end.

(** No fragment spread at any depth: the fragments are all inline. *)
Fixpoint spread_free (ss : SelectionSetNode) : bool :=
  match ss with
  | mkSelectionSet _ sels =>
      (fix each (l : list SelectionNode) : bool :=
         match l with
         | [] => true
         | s :: r => selection_spread_free s && each r
         end) sels
  end
with selection_spread_free (s : SelectionNode) : bool :=
  match s with
  | Field f => field_spread_free f
  | FragmentSpread _ _ => false
  | InlineFragment _ _ ss => spread_free ss
  end
with field_spread_free (f : FieldNode) : bool :=
  match f with
  | mkField _ _ _ _ (Some ss) => spread_free ss
  | mkField _ _ _ _ None => true
  end.

(** The depth of a value: the number of arrays and objects nested in it. *)
Fixpoint value_depth (v : StoreValue) : nat :=
  match v with
  | VArr l =>
      S ((fix deepest (l : list StoreValue) : nat :=
            match l with
            | [] => O
            | x :: r => Nat.max (value_depth x) (deepest r)
            end) l)
  | VObj fs =>
      S ((fix deepest (l : list (string * StoreValue)) : nat :=
            match l with
            | [] => O
            | (_, x) :: r => Nat.max (value_depth x) (deepest r)
            end) fs)
  | _ => O
  end.

(** The write did not stop for lack of fuel or on a failed invariant. *)
Definition finishes {A : Type} (c : Completion A) : Prop :=
  match c with
  | Throw OutOfFuel _ | Throw InvariantViolation _ => False
  | _ => True
  end.

(** [plain P c]: what [c] returns satisfies [P], and what it throws does
    not come from the override pass. *)
Definition plain {A : Type} (P : A -> Prop) (c : Completion A) : Prop :=
  match c with
  | Ok a _ => P a
  | Throw e _ => e <> TypeError /\ e <> Unrepresentable
  end.

(** The overrides a call reports. *)
Definition reports {A : Type} (mo : option MergeOverrides)
  (p : Processed A) : Prop :=
  snd p = mo.

(** The policy provider has no merge function for any field. *)
Definition no_merge_functions (policies : Policies) : Prop :=
  forall typename f variables,
    getFieldMergeFunction policies typename f variables = None.

Module Cases.
Import Sample.

(** The pet of the scenario with another [kind]: the same entity key. *)
Definition pet_again : StoreValue :=
  VObj [("__typename", VStr "Pet"); ("id", VStr "9"); ("kind", VStr "dog")].

(** [{ pets { __typename id kind } }] answered with two pets. *)
Definition pets_field : FieldNode :=
  mkField None "pets" [] [] (Some Scenario.pet_selection).

(** [fragment F on P { __typename id friend { ...F } }], which reaches its
    own entity again: the friend of the friend of [one] is the entity [P:1]
    once more. *)
Definition friend_selection : SelectionSetNode :=
  mkSelectionSet 21 [FragmentSpread "F" []].

Definition friend_fragment : Fragment :=
  mkFragment (Some "F") (Some "P")
    (mkSelectionSet 20
       [leaf "__typename"; leaf "id";
        Field (mkField None "friend" [] [] (Some friend_selection))]).

Definition friends_context : WriteContext :=
  mkContext [] {["F" := friend_fragment]}.

Definition one_again : StoreValue :=
  VObj [("__typename", VStr "P"); ("id", VStr "1"); ("friend", VNull)].

Definition two : StoreValue :=
  VObj [("__typename", VStr "P"); ("id", VStr "2"); ("friend", one_again)].

Definition one : StoreValue :=
  VObj [("__typename", VStr "P"); ("id", VStr "1"); ("friend", two)].

(** Overrides with child trees only, over an object and over an array. *)
Definition child_only : MergeOverrides :=
  Overrides
    [("a", (None, Some (Overrides [("0", (None, Some (Overrides [])))])));
     ("b", (None, None))].
End Cases.

(** * Properties *)

(** ** Association lists *)

Lemma alookup_aset {V : Type} (k k' : string) (v : V) l :
  alookup k (aset k' v l)
  = if String.eqb k k' then Some v else alookup k l.
Proof.
  induction l as [|[k0 v0] l IH]; simpl.
  - destruct (String.eqb k k'); reflexivity.
  - destruct (String.eqb k' k0) eqn:E0; simpl.
    + apply String.eqb_eq in E0. subst k0.
      destruct (String.eqb k k'); reflexivity.
    + destruct (String.eqb k k0) eqn:E1.
      * apply String.eqb_eq in E1. subst k0.
        rewrite String.eqb_sym, E0. reflexivity.
      * exact IH.
Qed.

Lemma alookup_aset_ne {V : Type} (k name : string) (v : V) l :
  k <> name -> alookup k (aset name v l) = alookup k l.
Proof.
  intros Hne. rewrite alookup_aset.
  destruct (String.eqb k name) eqn:E; [|reflexivity].
  apply String.eqb_eq in E. contradiction.
Qed.

Lemma alookup_not_key {V : Type} (k : string) (l : list (string * V)) :
  k ∉ akeys l -> alookup k l = None.
Proof.
  induction l as [|[k0 v0] l IH]; simpl; intros Hk; [reflexivity|].
  apply not_elem_of_cons in Hk as [Hne Hk].
  destruct (String.eqb k k0) eqn:E; [|exact (IH Hk)].
  apply String.eqb_eq in E. contradiction.
Qed.


(** [mergeFields] is [mergeDeep] on two objects. *)
Lemma mergeDeep_fields target source :
  mergeDeep (VObj target) (VObj source) = VObj (mergeFields target source).
Proof.
  simpl. f_equal. revert target.
  induction source as [|[k sv] rest IH]; intros target; simpl; [reflexivity|].
  apply IH.
Qed.

(** ** The monad *)

Lemma bind_Ok {A B : Type} (m : M A) (k : A -> M B) st a st' :
  m st = Ok a st' -> bind m k st = k a st'.
Proof. intros H. unfold bind. now rewrite H. Qed.

Lemma bind_Throw {A B : Type} (m : M A) (k : A -> M B) st e st' :
  m st = Throw e st' -> bind m k st = Throw e st'.
Proof. intros H. unfold bind. now rewrite H. Qed.

Lemma bind_inv_Ok {A B : Type} (m : M A) (k : A -> M B) st b st2 :
  bind m k st = Ok b st2 ->
  exists a st1, m st = Ok a st1 /\ k a st1 = Ok b st2.
Proof.
  unfold bind. destruct (m st) as [a st1|e st1]; [eauto | discriminate].
Qed.

(** ** State relations kept by every step of a write

    A relation between the state before and the state after that is
    reflexive, transitive and holds across each primitive operation holds
    across the three methods, whether they return or throw. *)
Section Preserved.
Variable R : WriteState -> WriteState -> Prop.
Hypothesis R_refl : forall st, R st st.
Hypothesis R_trans : forall a b c, R a b -> R b c -> R a c.
Hypothesis R_push : forall d ss st, R st (final_state (sets_push d ss st)).
Hypothesis R_merge : forall d f st, R st (final_state (store_merge_op d f st)).
Hypothesis R_warn : forall k r st, R st (final_state (invariant_warn k r st)).

Lemma preserves_ret {A : Type} (a : A) : preserves R (ret a).
Proof. intros st. apply R_refl. Qed.

Lemma preserves_throw {A : Type} (e : WriteError) : preserves R (@throw A e).
Proof. intros st. apply R_refl. Qed.

Lemma preserves_bind {A B : Type} (m : M A) (k : A -> M B) :
  preserves R m -> (forall a, preserves R (k a)) -> preserves R (bind m k).
Proof.
  intros Hm Hk st. unfold bind. specialize (Hm st).
  destruct (m st) as [a st1|e st1]; simpl in *; [|exact Hm].
  eapply R_trans; [exact Hm | apply Hk].
Qed.

Lemma preserves_get_state : preserves R get_state.
Proof. intros st. apply R_refl. Qed.

Section PreservedBodies.
Variable policies : Policies.
Variable utils : Utilities.
Variable production : bool.
Variable context : WriteContext.
Variable pSS :
  StoreValue -> SelectionSetNode -> option MergeOverrides ->
  option StoreValue -> M (Processed StoreObject).
Variable pFV : StoreValue -> FieldNode -> M (Processed StoreValue).
Hypothesis pSS_preserves : forall r ss mo tn, preserves R (pSS r ss mo tn).
Hypothesis pFV_preserves : forall v f, preserves R (pFV v f).

Lemma processSelection_preserves r tn acc sel :
  preserves R (processSelection policies utils context pSS pFV r tn acc sel).
Proof.
  unfold processSelection. destruct acc as [mf mo].
  destruct (negb _); [apply preserves_ret|].
  destruct sel as [f|n ds|tc ds ss].
  - destruct (is_null r); [apply preserves_throw|].
    destruct (getProp r (resultKeyNameFromField f)) as [v|].
    + destruct (is_host v); [apply preserves_throw|].
      apply preserves_bind; [apply pFV_preserves|].
      intros a. apply preserves_ret.
    + destruct (_ && _); [|apply preserves_ret].
      apply preserves_bind; [intros st; apply R_warn|].
      intros a. apply preserves_ret.
  - destruct (getFragmentFromSelection _ _); [|apply preserves_throw].
    destruct (fragmentMatches _ _ _); [|apply preserves_ret].
    apply preserves_bind; [apply pSS_preserves|].
    intros a. apply preserves_ret.
  - destruct (getFragmentFromSelection _ _); [|apply preserves_throw].
    destruct (fragmentMatches _ _ _); [|apply preserves_ret].
    apply preserves_bind; [apply pSS_preserves|].
    intros a. apply preserves_ret.
Qed.

Lemma forEach_selection_preserves r tn sels acc :
  preserves R (forEach_selection policies utils context pSS pFV r tn sels acc).
Proof.
  revert acc. induction sels as [|sel rest IH]; intros acc; simpl.
  - apply preserves_ret.
  - apply preserves_bind; [apply processSelection_preserves | apply IH].
Qed.

Lemma processSelectionSet_body_preserves r ss mo tn :
  preserves R
    (processSelectionSet_body policies utils context pSS pFV r ss mo tn).
Proof. apply forEach_selection_preserves. Qed.

Lemma map_items_preserves f items i :
  preserves R (map_items pFV f items i).
Proof.
  revert i. induction items as [|item rest IH]; intros i; simpl.
  - apply preserves_ret.
  - apply preserves_bind; [apply pFV_preserves|]. intros a.
    apply preserves_bind; [apply IH|]. intros b. apply preserves_ret.
Qed.

Lemma commit_processed_preserves d p : preserves R (commit_processed d p).
Proof.
  unfold commit_processed.
  apply preserves_bind; [apply preserves_get_state|]. intros st2.
  apply preserves_bind.
  - destruct (snd p); [|apply preserves_ret].
    destruct (walkWithMergeOverrides _ _ _) as [e|[[]|]];
      auto using preserves_ret, preserves_throw.
  - intros inc. apply preserves_bind; [intros st; apply R_merge|].
    intros _. apply preserves_bind; [apply preserves_get_state|].
    intros st3. apply preserves_ret.
Qed.

Lemma writeSelectionSetToStore_body_preserves d r ss :
  preserves R (writeSelectionSetToStore_body policies utils context pSS d r ss).
Proof.
  intros st. unfold writeSelectionSetToStore_body.
  destruct (already_written st d ss); [apply R_refl|].
  revert st. apply preserves_bind; [intros st; apply R_push|]. intros _.
  apply preserves_bind; [apply preserves_get_state|]. intros st1.
  apply preserves_bind; [apply pSS_preserves|]. intros p.
  apply commit_processed_preserves.
Qed.

Lemma writeSelectionSetToStore_body_after_push d r ss st :
  already_written st d ss = false ->
  R (final_state (sets_push d ss st))
    (final_state
       (writeSelectionSetToStore_body policies utils context pSS
          d r ss st)).
Proof.
  intros Hw. unfold writeSelectionSetToStore_body. rewrite Hw.
  unfold bind at 1. simpl.
  match goal with |- R ?s _ => generalize s end.
  apply preserves_bind; [apply preserves_get_state|]. intros st1.
  apply preserves_bind; [apply pSS_preserves|]. intros p.
  apply commit_processed_preserves.
Qed.

Lemma processFieldValue_body_preserves wSS v f :
  (forall d r ss, preserves R (wSS d r ss)) ->
  preserves R
    (processFieldValue_body policies utils production context pSS pFV
       wSS v f).
Proof.
  intros HwSS. unfold processFieldValue_body.
  destruct (field_selectionSet f) as [ss|]; [|apply preserves_ret].
  assert (Hobj : preserves R
    (match
       (if truthy v then identify policies v ss (fragmentMap context)
        else None)
     with
     | Some dataId =>
         let* _ := wSS dataId v ss in ret (makeReference dataId, None)
     | None =>
         let* processed :=
           pSS v ss None
             (getTypenameFromResult utils v ss (fragmentMap context)) in
         ret (VObj (fst processed), snd processed)
     end)).
  { destruct (if truthy v then _ else _).
    - apply preserves_bind; [apply HwSS|]. intros. apply preserves_ret.
    - apply preserves_bind; [apply pSS_preserves|]. intros.
      apply preserves_ret. }
  destruct v; try exact Hobj; [apply preserves_ret|].
  apply preserves_bind; [apply map_items_preserves|].
  intros. apply preserves_ret.
Qed.
End PreservedBodies.

Lemma process_preserves policies utils production context fuel :
  (forall r ss mo tn,
      preserves R
        (processSelectionSet policies utils production context fuel
           r ss mo tn))
  /\ (forall v f,
         preserves R
           (processFieldValue policies utils production context fuel v f)).
Proof.
  induction fuel as [|n [IHs IHf]]; simpl.
  - split; intros; apply preserves_throw.
  - split; intros.
    + apply processSelectionSet_body_preserves; assumption.
    + apply processFieldValue_body_preserves; try assumption.
      intros. apply writeSelectionSetToStore_body_preserves; assumption.
Qed.

Lemma writeSelectionSetToStore_preserves
  policies utils production context fuel d r ss :
  preserves R
    (writeSelectionSetToStore policies utils production context fuel d r ss).
Proof.
  apply writeSelectionSetToStore_body_preserves.
  apply process_preserves.
Qed.
End Preserved.

(** ** The dedup table *)

Lemma written_le_refl st : written_le st st.
Proof. intros d n H. exact H. Qed.

Lemma written_le_trans a b c : written_le a b -> written_le b c -> written_le a c.
Proof. intros H1 H2 d n H. apply H2, H1, H. Qed.

Lemma was_written_push st d ss :
  was_written (final_state (sets_push d ss st)) d (node ss).
Proof.
  unfold was_written. simpl. rewrite lookup_insert_eq. simpl.
  apply elem_of_app. right. apply list_elem_of_singleton. reflexivity.
Qed.

Lemma written_le_push d ss st : written_le st (final_state (sets_push d ss st)).
Proof.
  intros d' n H. unfold was_written in *. simpl.
  destruct (decide (d = d')) as [->|Hne].
  - rewrite lookup_insert_eq. simpl. apply elem_of_app. left. exact H.
  - rewrite lookup_insert_ne by exact Hne. exact H.
Qed.

Lemma written_le_merge d f st :
  written_le st (final_state (store_merge_op d f st)).
Proof. intros d' n H. exact H. Qed.

Lemma written_le_warn k r st :
  written_le st (final_state (invariant_warn k r st)).
Proof. intros d' n H. exact H. Qed.

Lemma already_written_true st d ss :
  already_written st d ss = true <-> was_written st d (node ss).
Proof. unfold already_written, was_written. apply bool_decide_eq_true. Qed.

Lemma writeSelectionSetToStore_skips policies utils production context
  fuel d r ss st :
  already_written st d ss = true ->
  writeSelectionSetToStore policies utils production context fuel d r ss st
  = Ok (store st) st.
Proof.
  intros H. unfold writeSelectionSetToStore, writeSelectionSetToStore_body.
  now rewrite H.
Qed.

Lemma writeSelectionSetToStore_marks policies utils production context
  fuel d r ss st :
  was_written
    (final_state
       (writeSelectionSetToStore policies utils production context
          fuel d r ss st)) d (node ss).
Proof.
  unfold writeSelectionSetToStore, writeSelectionSetToStore_body.
  destruct (already_written st d ss) eqn:Hw.
  - simpl. now apply already_written_true.
  - pose proof (was_written_push st d ss) as Hpush.
    assert (Hle : written_le (final_state (sets_push d ss st))
                    (final_state
                       (writeSelectionSetToStore_body policies utils context
                          (processSelectionSet policies utils production
                             context fuel) d r ss st))).
    { apply (writeSelectionSetToStore_body_after_push written_le
               written_le_refl written_le_trans written_le_merge);
        [|exact Hw].
      apply (process_preserves written_le written_le_refl written_le_trans
               written_le_push written_le_merge written_le_warn). }
    unfold writeSelectionSetToStore_body in Hle. rewrite Hw in Hle.
    apply Hle. exact Hpush.
Qed.

(** C1. Once the pair (entity key, selection set) is in the dedup table of
    the write context, [writeSelectionSetToStore] returns the store at once
    and leaves the store, the dedup table and the trace as they are,
    whatever the result object; and after one write of the pair, however it
    ended, a second write of the same pair at any later point of the same
    top-level write (the dedup table only grows) changes nothing: the state
    is that of writing it once. *)
Theorem writeSelectionSetToStore_idempotent
  policies utils production context fuel d r ss st :
  (already_written st d ss = true ->
   writeSelectionSetToStore policies utils production context fuel d r ss st
   = Ok (store st) st)
  /\ (forall st1 fuel' r',
         written_le
           (final_state
              (writeSelectionSetToStore policies utils production context
                 fuel d r ss st)) st1 ->
         writeSelectionSetToStore policies utils production context
           fuel' d r' ss st1
         = Ok (store st1) st1).
Proof.
  split.
  - apply writeSelectionSetToStore_skips.
  - intros st1 fuel' r' Hle.
    apply writeSelectionSetToStore_skips, already_written_true, Hle.
    apply writeSelectionSetToStore_marks.
Qed.

(** After the pet was written, writing [Pet:9] again with the same
    selection set, another result object and no fuel returns at once. *)
Lemma writeSelectionSetToStore_idempotent_witness :
  writeSelectionSetToStore (Sample.policies [] true) Sample.utils false
    Scenario.no_context 0 "Pet:9" Scenario.stray Scenario.pet_selection
    Scenario.after_pet
  = Ok (store Scenario.after_pet) Scenario.after_pet.
Proof.
  apply (proj2 (writeSelectionSetToStore_idempotent (Sample.policies [] true)
                  Sample.utils false Scenario.no_context 3 "Pet:9"
                  Scenario.pet Scenario.pet_selection Scenario.empty_state)).
  apply written_le_refl.
Defined.

(** ** The type name of a write *)

Lemma writeSelectionSetToStore_unfold policies utils production context
  fuel d r ss st :
  already_written st d ss = false ->
  writeSelectionSetToStore policies utils production context fuel d r ss st
  = bind
      (processSelectionSet policies utils production context fuel r ss None
         (resolve_typename policies utils context
            (final_state (sets_push d ss st)) d r ss))
      (commit_processed d)
      (final_state (sets_push d ss st)).
Proof.
  intros Hw. unfold writeSelectionSetToStore, writeSelectionSetToStore_body.
  rewrite Hw. reflexivity.
Qed.

(** C2. A write that is not deduplicated processes its selection set with
    the type name resolved in this order, the first truthy value winning:
    (1) what [getTypenameFromResult] finds on the result object, (2) the
    [__typename] stored under the entity key, (3) the policy provider's
    default type name for the key.  When none of the three is defined the
    selection set is processed with no type name, and the field map starts
    empty. *)
Theorem typename_resolution_order policies utils production context
  fuel d r ss st :
  let on_result :=
    getTypenameFromResult utils r ss (fragmentMap context) in
  let in_store := store_getFieldValue (store st) d "__typename" in
  let by_default := VStr <$> rootTypenamesById policies d in
  already_written st d ss = false ->
  exists typename,
    writeSelectionSetToStore policies utils production context fuel d r ss st
    = bind
        (processSelectionSet policies utils production context fuel r ss None
           typename)
        (commit_processed d)
        (final_state (sets_push d ss st))
    /\ (otruthy on_result = true -> typename = on_result)
    /\ (otruthy on_result = false -> otruthy in_store = true ->
        typename = in_store)
    /\ (otruthy on_result = false -> otruthy in_store = false ->
        typename = by_default)
    /\ (on_result = None -> in_store = None -> by_default = None ->
        typename = None
        /\ forall n mo,
            processSelectionSet policies utils production context (S n)
              r ss mo typename
            = forEach_selection policies utils context
                (processSelectionSet policies utils production context n)
                (processFieldValue policies utils production context n)
                r typename (selections ss) ([], mo)).
Proof.
  intros on_result in_store by_default Hw.
  exists (resolve_typename policies utils context
            (final_state (sets_push d ss st)) d r ss).
  split; [apply writeSelectionSetToStore_unfold, Hw|].
  unfold resolve_typename, js_or. simpl.
  fold on_result in_store by_default.
  split; [|split; [|split]].
  - intros Ha. rewrite Ha. cbn iota. now rewrite Ha.
  - intros Ha Hb. rewrite Ha. cbn iota. now rewrite Hb.
  - intros Ha Hb. rewrite Ha. cbn iota. now rewrite Hb.
  - intros Ha Hb Hc. rewrite Ha, Hb, Hc. split; [reflexivity|].
    intros n mo. reflexivity.
Qed.

(** The stored type name is used when the result carries none. *)
Lemma typename_resolution_order_witness :
  exists typename,
    writeSelectionSetToStore (Sample.policies [] true) Sample.utils false
      Scenario.no_context 3 "Pet:9" (VObj [("kind", VStr "cat")])
      (mkSelectionSet 7 [Sample.leaf "kind"]) Scenario.after_pet
    = bind
        (processSelectionSet (Sample.policies [] true) Sample.utils false
           Scenario.no_context 3 (VObj [("kind", VStr "cat")])
           (mkSelectionSet 7 [Sample.leaf "kind"]) None typename)
        (commit_processed "Pet:9")
        (final_state
           (sets_push "Pet:9" (mkSelectionSet 7 [Sample.leaf "kind"])
              Scenario.after_pet))
    /\ typename = Some (VStr "Pet").
Proof.
  destruct (typename_resolution_order (Sample.policies [] true) Sample.utils
              false Scenario.no_context 3 "Pet:9" (VObj [("kind", VStr "cat")])
              (mkSelectionSet 7 [Sample.leaf "kind"]) Scenario.after_pet)
    as [typename [Heq [_ [Hstore _]]]].
  - vm_compute. reflexivity.
  - exists typename. split; [exact Heq|].
    apply Hstore; vm_compute; reflexivity.
Defined.

(** ** Objects under a field with a selection set *)

(** What [processFieldValue] does with an object under a field with a
    selection set, for each answer of [identify]. *)
Lemma processFieldValue_on_object policies utils production context
  n fields field selectionSet st :
  field_selectionSet field = Some selectionSet ->
  (forall dataId,
      identify policies (VObj fields) selectionSet (fragmentMap context)
      = Some dataId ->
      processFieldValue policies utils production context (S n)
        (VObj fields) field st
      = bind
          (writeSelectionSetToStore policies utils production context n
             dataId (VObj fields) selectionSet)
          (fun _ => ret (VRef dataId, None)) st)
  /\ (identify policies (VObj fields) selectionSet (fragmentMap context)
      = None ->
      processFieldValue policies utils production context (S n)
        (VObj fields) field st
      = bind
          (processSelectionSet policies utils production context n
             (VObj fields) selectionSet None
             (getTypenameFromResult utils (VObj fields) selectionSet
                (fragmentMap context)))
          (fun processed => ret (VObj (fst processed), snd processed)) st).
Proof.
  intros Hss. split.
  - intros dataId Hid. simpl. unfold processFieldValue_body.
    rewrite Hss. simpl. rewrite Hid. reflexivity.
  - intros Hid. simpl. unfold processFieldValue_body.
    rewrite Hss. simpl. rewrite Hid. reflexivity.
Qed.

Lemma alookup_mergeFields_single fields k v :
  alookup k (mergeFields fields [(k, v)])
  = Some (match alookup k fields with
          | Some tv => mergeDeep tv v
          | None => v
          end).
Proof.
  simpl. destruct (alookup k fields);
    now rewrite alookup_aset, String.eqb_refl.
Qed.


(** ** Selections that contribute nothing *)

Lemma forEach_selection_app policies utils context pSS pFV r tn pre post
  acc st :
  forEach_selection policies utils context pSS pFV r tn (pre ++ post) acc st
  = bind (forEach_selection policies utils context pSS pFV r tn pre acc)
         (forEach_selection policies utils context pSS pFV r tn post) st.
Proof.
  revert acc st. induction pre as [|sel pre IH]; intros acc st; simpl.
  - reflexivity.
  - unfold bind at 1.
    destruct (processSelection _ _ _ _ _ _ _ _ _ st) as [acc' st'|e st'] eqn:E.
    + rewrite IH. unfold bind. now rewrite E.
    + unfold bind. now rewrite E.
Qed.

(** C4. A fragment selection whose fragment does not match the type name is
    skipped: the turn of the loop returns the field map and the overrides it
    was given and leaves the state (store, dedup table, trace of store
    writes and diagnostics) as it is, so the selection set is processed as
    if the selection were not there. *)
Theorem unmatched_fragment_skipped policies utils production context
  n r typename mo id pre selection post fragment st :
  getFragmentFromSelection selection (fragmentMap context) = Some fragment ->
  fragmentMatches policies fragment typename = false ->
  (forall acc st',
      processSelection policies utils context
        (processSelectionSet policies utils production context n)
        (processFieldValue policies utils production context n)
        r typename acc selection st'
      = Ok acc st')
  /\ processSelectionSet policies utils production context (S n) r
       (mkSelectionSet id (pre ++ selection :: post)) mo typename st
     = processSelectionSet policies utils production context (S n) r
         (mkSelectionSet id (pre ++ post)) mo typename st.
Proof.
  intros Hfrag Hmatch.
  assert (Hstep : forall acc st',
      processSelection policies utils context
        (processSelectionSet policies utils production context n)
        (processFieldValue policies utils production context n)
        r typename acc selection st'
      = Ok acc st').
  { intros [mf o] st'. unfold processSelection.
    destruct (negb _); [reflexivity|].
    destruct selection as [f|name ds|tc ds ss]; [discriminate Hfrag| |];
      rewrite Hfrag, Hmatch; reflexivity. }
  split; [exact Hstep|].
  simpl. unfold processSelectionSet_body. simpl.
  rewrite !forEach_selection_app. unfold bind.
  destruct (forEach_selection _ _ _ _ _ _ _ pre _ st) as [acc st'|e st'];
    [|reflexivity].
  simpl. unfold bind at 1. now rewrite Hstep.
Qed.

(** A fragment on [Dog] adds nothing when the type name is [Cat]. *)
Lemma unmatched_fragment_skipped_witness :
  processSelectionSet (Sample.policies [] true) Sample.utils false
    Scenario.no_context 2 Scenario.cat
    (mkSelectionSet 5 ([Sample.leaf "name"] ++ Scenario.dog_fragment :: []))
    None (Some (VStr "Cat")) Scenario.empty_state
  = Ok ([("__typename", VStr "Cat"); ("name", VStr "Tom")], None)
      Scenario.empty_state.
Proof.
  rewrite (proj2 (unmatched_fragment_skipped (Sample.policies [] true)
                    Sample.utils false Scenario.no_context 1 Scenario.cat
                    (Some (VStr "Cat")) None 5 [Sample.leaf "name"]
                    Scenario.dog_fragment []
                    (mkFragment None (Some "Dog")
                       (mkSelectionSet 2 [Sample.leaf "bark"]))
                    Scenario.empty_state eq_refl eq_refl)).
  vm_compute. reflexivity.
Defined.

(** ** Fields absent from the result *)

(** C5, as the code has it.  A field selection that passes the include/skip
    check and for which the read [result[resultFieldKey]] of a result that
    is not null gives undefined (the result has no such property of its own
    and inherits none through its prototype chain) is left out of the field
    map; the turn of the loop returns normally and the write goes on with
    the next selection; a warning is emitted if and only if strict
    possible-types checking is on and the field has neither a [defer] nor a
    [client] directive. *)
Theorem absent_field_omitted policies utils context pSS pFV
  r typename acc f rest st :
  shouldInclude utils (Field f) (variables context) = true ->
  r <> VNull ->
  getProp r (resultKeyNameFromField f) = None ->
  let st' :=
    if usingPossibleTypes policies
       && negb (deferred_or_client (field_directives f))
    then mkState (store st) (written st)
           (trace st ++ [EvWarn (resultKeyNameFromField f) r])
    else st in
  processSelection policies utils context pSS pFV r typename acc (Field f) st
  = Ok acc st'
  /\ forEach_selection policies utils context pSS pFV r typename
       (Field f :: rest) acc st
     = forEach_selection policies utils context pSS pFV r typename
         rest acc st'.
Proof.
  intros Hinc Hnull Habsent st'.
  assert (Hstep :
    processSelection policies utils context pSS pFV r typename acc (Field f) st
    = Ok acc st').
  { unfold processSelection. destruct acc as [mf mo].
    assert (Hr : is_null r = false) by (destruct r; [contradiction|reflexivity..]).
    rewrite Hinc, Hr, Habsent. simpl. subst st'.
    destruct (usingPossibleTypes policies && _); reflexivity. }
  split; [exact Hstep|].
  simpl. unfold bind. now rewrite Hstep.
Qed.

(** With strict checking, [nick] absent from the cat is reported and the
    field map is returned as it was. *)
Lemma absent_field_omitted_witness :
  processSelection (Sample.policies [] true) Sample.utils Scenario.no_context
    (fun _ _ _ _ => throw OutOfFuel) (fun _ _ => throw OutOfFuel)
    Scenario.cat (Some (VStr "Cat")) ([("__typename", VStr "Cat")], None)
    (Field Scenario.nick_field) Scenario.empty_state
  = Ok ([("__typename", VStr "Cat")], None)
      (mkState defaultNormalizedCacheFactory ∅ [EvWarn "nick" Scenario.cat]).
Proof.
  exact (proj1 (absent_field_omitted (Sample.policies [] true) Sample.utils
                  Scenario.no_context
                  (fun _ _ _ _ => throw OutOfFuel) (fun _ _ => throw OutOfFuel)
                  Scenario.cat (Some (VStr "Cat"))
                  ([("__typename", VStr "Cat")], None)
                  Scenario.nick_field [] Scenario.empty_state
                  eq_refl ltac:(discriminate) eq_refl)).
Defined.

(** C5 as stated fails for a field that the include/skip check leaves out:
    strict checking is on, [nick @skip(if: true)] has neither a [defer] nor
    a [client] directive and is absent from the result (no own property, and
    nothing inherited under that name), and no warning is emitted: the trace
    stays empty. *)
Lemma absent_field_warning_counterexample :
  usingPossibleTypes (Sample.policies [] true) = true
  /\ deferred_or_client (field_directives Scenario.skipped_field) = false
  /\ getProp Scenario.cat (resultKeyNameFromField Scenario.skipped_field)
     = None
  /\ processSelectionSet (Sample.policies [] true) Sample.utils false
       Scenario.no_context 2 Scenario.cat
       (mkSelectionSet 6 [Field Scenario.skipped_field]) None
       (Some (VStr "Cat")) Scenario.empty_state
     = Ok ([("__typename", VStr "Cat")], None) Scenario.empty_state
  /\ trace Scenario.empty_state = [].
Proof. repeat split. Qed.

(** ** The top-level entry point *)

(** A property of [{...a, ...b}] is [b]'s when [b] has it, else [a]'s. *)
Lemma alookup_objectSpread (k : string) (a b : StoreObject) :
  NoDup (akeys b) ->
  alookup k (objectSpread a b)
  = match alookup k b with Some v => Some v | None => alookup k a end.
Proof.
  unfold objectSpread. revert a.
  induction b as [|[k1 v1] b IH]; intros a Hnd; simpl; [reflexivity|].
  apply NoDup_cons in Hnd as [Hk1 Hnd].
  rewrite (IH _ Hnd), alookup_aset.
  destruct (String.eqb k k1) eqn:E.
  - apply String.eqb_eq in E. subst k1.
    now rewrite (alookup_not_key k b Hk1).
  - reflexivity.
Qed.

Lemma trace_extends_refl st : trace_extends st st.
Proof. exists []. now rewrite app_nil_r. Qed.

Lemma trace_extends_trans a b c :
  trace_extends a b -> trace_extends b c -> trace_extends a c.
Proof.
  intros [t1 H1] [t2 H2]. exists (t1 ++ t2). now rewrite H2, H1, app_assoc.
Qed.

Lemma writeSelectionSetToStore_same_roots policies utils production context
  fuel d r ss st :
  same_roots st
    (final_state
       (writeSelectionSetToStore policies utils production context
          fuel d r ss st)).
Proof.
  apply (writeSelectionSetToStore_preserves same_roots); unfold same_roots;
    try reflexivity; intros; congruence.
Qed.

Lemma writeSelectionSetToStore_trace_extends policies utils production context
  fuel d r ss st :
  trace_extends st
    (final_state
       (writeSelectionSetToStore policies utils production context
          fuel d r ss st)).
Proof.
  apply (writeSelectionSetToStore_preserves trace_extends).
  - apply trace_extends_refl.
  - apply trace_extends_trans.
  - intros. eexists. reflexivity.
  - intros. eexists. reflexivity.
  - intros. eexists. reflexivity.
Qed.

Lemma commit_processed_returns_store d p st c st' :
  commit_processed d p st = Ok c st' -> c = store st'.
Proof.
  unfold commit_processed. intros H.
  apply bind_inv_Ok in H as (st2 & s2 & _ & H).
  apply bind_inv_Ok in H as (inc & s3 & _ & H).
  apply bind_inv_Ok in H as (u & s4 & _ & H).
  apply bind_inv_Ok in H as (st3 & s5 & Hget & H).
  inversion Hget; subst. inversion H; subst. reflexivity.
Qed.

Lemma writeSelectionSetToStore_returns_store policies utils production context
  fuel d r ss st c st' :
  writeSelectionSetToStore policies utils production context fuel d r ss st
  = Ok c st' ->
  c = store st'.
Proof.
  unfold writeSelectionSetToStore, writeSelectionSetToStore_body.
  destruct (already_written st d ss).
  - intros H. inversion H; subst. reflexivity.
  - intros H.
    apply bind_inv_Ok in H as (u & s1 & _ & H).
    apply bind_inv_Ok in H as (st1 & s2 & _ & H).
    apply bind_inv_Ok in H as (p & s3 & _ & H).
    eapply commit_processed_returns_store, H.
Qed.

(** C8. [writeQueryToStore] retains the target entity key (by default
    [ROOT_QUERY]) as a root of the store it was given, or of a new store
    when none was given, and then runs [writeSelectionSetToStore] on the
    operation's selection set with a new dedup table: the retain is the
    first event of the write and the key is still retained at the end.  The
    variables of the context are the declared default values overlaid with
    the caller's variables, the caller's value winning under every name it
    binds.  The store returned is the store the write has updated. *)
Theorem writeQueryToStore_entry policies utils production fuel options
  vds selectionSet :
  getOperationDefinition (opt_query options) = Some (vds, selectionSet) ->
  NoDup (akeys (default [] (opt_variables options))) ->
  let dataId := default "ROOT_QUERY" (opt_dataId options) in
  let store0 := default defaultNormalizedCacheFactory (opt_store options) in
  let context := query_context options vds in
  let outcome := writeQueryToStore policies utils production fuel options in
  (forall name,
      alookup name (variables context)
      = match alookup name (default [] (opt_variables options)) with
        | Some v => Some v
        | None => alookup name (getDefaultValues vds)
        end)
  /\ outcome
     = writeSelectionSetToStore policies utils production context fuel dataId
         (default (VObj []) (js_or (opt_result options) (Some (VObj []))))
         selectionSet
         (mkState (store_retain store0 dataId) ∅ [EvRetain dataId])
  /\ (exists t, trace (final_state outcome) = EvRetain dataId :: t)
  /\ rootIds (store (final_state outcome)) !! dataId
     = Some (S (default O (rootIds store0 !! dataId)))
  /\ (forall c st, outcome = Ok c st -> c = store st)
  /\ (opt_store options = None -> store0 = mkCache ∅ ∅).
Proof.
  intros Hop Hnd dataId store0 context outcome.
  assert (Hrun : outcome
     = writeSelectionSetToStore policies utils production context fuel dataId
         (default (VObj []) (js_or (opt_result options) (Some (VObj []))))
         selectionSet
         (mkState (store_retain store0 dataId) ∅ [EvRetain dataId])).
  { subst outcome. unfold writeQueryToStore. rewrite Hop. reflexivity. }
  split; [|split; [exact Hrun|split; [|split; [|split]]]].
  - intros name. subst context. unfold query_context. simpl.
    apply alookup_objectSpread, Hnd.
  - rewrite Hrun.
    destruct (writeSelectionSetToStore_trace_extends policies utils production
                context fuel dataId
                (default (VObj []) (js_or (opt_result options) (Some (VObj []))))
                selectionSet
                (mkState (store_retain store0 dataId) ∅ [EvRetain dataId]))
      as [t Ht].
    exists t. exact Ht.
  - rewrite Hrun.
    rewrite <- (writeSelectionSetToStore_same_roots policies utils production
                  context fuel dataId
                  (default (VObj []) (js_or (opt_result options) (Some (VObj []))))
                  selectionSet
                  (mkState (store_retain store0 dataId) ∅ [EvRetain dataId])).
    simpl. apply lookup_insert_eq.
  - intros c st H. rewrite Hrun in H.
    eapply writeSelectionSetToStore_returns_store, H.
  - intros Hnone. subst store0. rewrite Hnone. reflexivity.
Qed.

(** The paged query: [after] is the caller's, [first] the default, and the
    new store ends with [ROOT_QUERY] retained once. *)
Lemma writeQueryToStore_entry_witness :
  variables (query_context Scenario.paged_options
               [mkVariableDefinition "first" (Some (VNum 10));
                mkVariableDefinition "after" (Some (VStr "a"));
                mkVariableDefinition "tag" None])
  = [("first", VNum 10); ("after", VStr "z"); ("tag", VStr "t")]
  /\ rootIds
       (store
          (final_state
             (writeQueryToStore (Sample.policies [] true) Sample.utils false 5
                Scenario.paged_options))) !! "ROOT_QUERY"
     = Some 1%nat.
Proof.
  split; [vm_compute; reflexivity|].
  refine (proj1 (proj2 (proj2 (proj2
    (writeQueryToStore_entry (Sample.policies [] true) Sample.utils false 5
       Scenario.paged_options _ Scenario.person_selection eq_refl _))))).
  refine (bool_decide_unpack _ _). vm_compute. exact I.
Defined.

(** ** The type name in the field map *)




Section TypenameKept.
Variable policies : Policies.
Variable utils : Utilities.
Variable production : bool.
Variable context : WriteContext.
Variable t : string.


End TypenameKept.




(** ** The order of commits *)

Lemma complete_writes_app a b :
  complete_writes a -> complete_writes b -> complete_writes (a ++ b).
Proof.
  intros Ha Hb. induction Ha as [|k r t _ IH|d n inner fields t Hi _ _ IH].
  - exact Hb.
  - simpl. constructor. exact IH.
  - simpl. rewrite <- app_assoc. simpl. constructor; assumption.
Qed.

(** In a trace of complete writes every write that starts is committed
    later in the same trace. *)
Lemma complete_writes_committed t :
  complete_writes t ->
  forall pre child n post,
    t = pre ++ EvWritten child n :: post ->
    exists mid fields post', post = mid ++ EvMerge child fields :: post'.
Proof.
  induction 1 as [|k r t _ IH|d n0 inner fields t _ IHi _ IHt];
    intros pre child n post Heq.
  - destruct pre; discriminate Heq.
  - destruct pre as [|e pre]; [discriminate Heq|].
    injection Heq as _ Heq. exact (IH _ _ _ _ Heq).
  - destruct pre as [|e pre].
    + injection Heq as -> -> <-. eauto.
    + injection Heq as _ Heq.
      apply app_eq_app in Heq as [l [[Hin Hpost]|[Hpre Ht]]].
      * destruct l as [|x l].
        { rewrite app_nil_r in Hin. simpl in Hpost. discriminate Hpost. }
        injection Hpost as <- Hpost.
        destruct (IHi _ _ _ _ Hin) as (mid & cf & post' & Hl).
        subst l post. exists mid, cf, (post' ++ EvMerge d fields :: t).
        rewrite <- app_assoc. reflexivity.
      * destruct l as [|x l].
        { simpl in Ht. discriminate Ht. }
        injection Ht as _ Ht. exact (IHt _ _ _ _ Ht).
Qed.

Lemma emits_ret {A : Type} (a : A) : emits (ret a).
Proof.
  intros st a' st' H. inversion H; subst. exists [].
  split; [now rewrite app_nil_r|constructor].
Qed.

Lemma emits_throw {A : Type} (e : WriteError) : emits (@throw A e).
Proof. intros st a st' H. discriminate H. Qed.

Lemma emits_bind {A B : Type} (m : M A) (k : A -> M B) :
  emits m -> (forall a, emits (k a)) -> emits (bind m k).
Proof.
  intros Hm Hk st b st2 H.
  apply bind_inv_Ok in H as (a & st1 & H1 & H2).
  destruct (Hm _ _ _ H1) as (t1 & E1 & C1).
  destruct (Hk a _ _ _ H2) as (t2 & E2 & C2).
  exists (t1 ++ t2). split; [now rewrite E2, E1, app_assoc|].
  now apply complete_writes_app.
Qed.

Lemma emits_warn k r : emits (invariant_warn k r).
Proof.
  intros st a st' H. inversion H; subst. simpl.
  exists [EvWarn k r]. split; [reflexivity|repeat constructor].
Qed.

(** The commit adds the [store.merge] of the entity and nothing else. *)
Lemma commit_processed_trace d p st c st' :
  commit_processed d p st = Ok c st' ->
  exists fields,
    trace st' = trace st ++ [EvMerge d fields]
    /\ store st' = store_merge (store st) d fields
    /\ written st' = written st.
Proof.
  unfold commit_processed. intros H.
  apply bind_inv_Ok in H as (st2 & s2 & Hget & H).
  inversion Hget; subst st2 s2. clear Hget.
  apply bind_inv_Ok in H as (inc & s3 & Hinc & H).
  assert (s3 = st).
  { destruct (snd p).
    - destruct (walkWithMergeOverrides _ _ _) as [e|[[]|]];
        try discriminate Hinc. now inversion Hinc.
    - now inversion Hinc. }
  subst s3.
  apply bind_inv_Ok in H as (u & s4 & Hm & H).
  inversion Hm; subst s4. clear Hm.
  apply bind_inv_Ok in H as (st3 & s5 & Hget & H).
  inversion Hget; subst st3 s5. inversion H; subst.
  exists inc. simpl. repeat split.
Qed.

Section TraceShape.
Variable policies : Policies.
Variable utils : Utilities.
Variable production : bool.
Variable context : WriteContext.

Lemma brackets_emits wSS d r ss : brackets wSS -> emits (wSS d r ss).
Proof.
  intros Hb st c st' H.
  destruct (Hb _ _ _ _ _ _ H) as [[_ ->]|[_ (inner & fields & E & C)]].
  - exists []. split; [now rewrite app_nil_r|constructor].
  - eexists. split; [exact E|]. constructor; [exact C|constructor].
Qed.

Section TraceBodies.
Variable pSS :
  StoreValue -> SelectionSetNode -> option MergeOverrides ->
  option StoreValue -> M (Processed StoreObject).
Variable pFV : StoreValue -> FieldNode -> M (Processed StoreValue).
Hypothesis pSS_emits : forall r ss mo tn, emits (pSS r ss mo tn).
Hypothesis pFV_emits : forall v f, emits (pFV v f).

Lemma processSelection_emits r tn acc sel :
  emits (processSelection policies utils context pSS pFV r tn acc sel).
Proof.
  unfold processSelection. destruct acc as [mf mo].
  destruct (negb _); [apply emits_ret|].
  destruct sel as [f|n ds|tc ds ss].
  - destruct (is_null r); [apply emits_throw|].
    destruct (getProp r (resultKeyNameFromField f)) as [v|].
    + destruct (is_host v); [apply emits_throw|].
      apply emits_bind; [apply pFV_emits|]. intros a. apply emits_ret.
    + destruct (_ && _); [|apply emits_ret].
      apply emits_bind; [apply emits_warn|]. intros a. apply emits_ret.
  - destruct (getFragmentFromSelection _ _); [|apply emits_throw].
    destruct (fragmentMatches _ _ _); [|apply emits_ret].
    apply emits_bind; [apply pSS_emits|]. intros a. apply emits_ret.
  - destruct (getFragmentFromSelection _ _); [|apply emits_throw].
    destruct (fragmentMatches _ _ _); [|apply emits_ret].
    apply emits_bind; [apply pSS_emits|]. intros a. apply emits_ret.
Qed.

Lemma forEach_selection_emits r tn sels acc :
  emits (forEach_selection policies utils context pSS pFV r tn sels acc).
Proof.
  revert acc. induction sels as [|sel rest IH]; intros acc; simpl.
  - apply emits_ret.
  - apply emits_bind; [apply processSelection_emits|apply IH].
Qed.

Lemma map_items_emits f items i : emits (map_items pFV f items i).
Proof.
  revert i. induction items as [|item rest IH]; intros i; simpl.
  - apply emits_ret.
  - apply emits_bind; [apply pFV_emits|]. intros a.
    apply emits_bind; [apply IH|]. intros b. apply emits_ret.
Qed.

Lemma writeSelectionSetToStore_body_brackets :
  brackets (writeSelectionSetToStore_body policies utils context pSS).
Proof.
  intros d r ss st c st' H. unfold writeSelectionSetToStore_body in H.
  destruct (already_written st d ss) eqn:Hw.
  - left. inversion H; subst. split; reflexivity.
  - right. split; [reflexivity|].
    apply bind_inv_Ok in H as (u & s1 & Hpush & H).
    inversion Hpush; subst s1. clear Hpush.
    apply bind_inv_Ok in H as (st1 & s2 & Hget & H).
    inversion Hget; subst st1 s2. clear Hget.
    apply bind_inv_Ok in H as (p & st2 & Hp & H).
    destruct (pSS_emits _ _ _ _ _ _ _ Hp) as (inner & E & C).
    destruct (commit_processed_trace _ _ _ _ _ H) as (fields & E' & _).
    exists inner, fields. split; [|exact C].
    rewrite E', E. simpl. rewrite <- !app_assoc. reflexivity.
Qed.

Lemma processFieldValue_body_emits wSS v f :
  brackets wSS ->
  emits
    (processFieldValue_body policies utils production context pSS pFV
       wSS v f).
Proof.
  intros HwSS. unfold processFieldValue_body.
  destruct (field_selectionSet f) as [ss|]; [|apply emits_ret].
  assert (Hobj : emits
    (match
       (if truthy v then identify policies v ss (fragmentMap context)
        else None)
     with
     | Some dataId =>
         let* _ := wSS dataId v ss in ret (makeReference dataId, None)
     | None =>
         let* processed :=
           pSS v ss None
             (getTypenameFromResult utils v ss (fragmentMap context)) in
         ret (VObj (fst processed), snd processed)
     end)).
  { destruct (if truthy v then _ else _).
    - apply emits_bind; [apply brackets_emits, HwSS|]. intros.
      apply emits_ret.
    - apply emits_bind; [apply pSS_emits|]. intros. apply emits_ret. }
  destruct v; try exact Hobj; [apply emits_ret|].
  apply emits_bind; [apply map_items_emits|]. intros. apply emits_ret.
Qed.
End TraceBodies.

Lemma process_emits fuel :
  (forall r ss mo tn,
      emits (processSelectionSet policies utils production context fuel
               r ss mo tn))
  /\ (forall v f,
         emits (processFieldValue policies utils production context fuel v f)).
Proof.
  induction fuel as [|n [IHs IHf]]; simpl.
  - split; intros; apply emits_throw.
  - split; intros.
    + apply forEach_selection_emits; assumption.
    + apply processFieldValue_body_emits; try assumption.
      apply writeSelectionSetToStore_body_brackets; assumption.
Qed.

Lemma writeSelectionSetToStore_brackets fuel :
  brackets (writeSelectionSetToStore policies utils production context fuel).
Proof.
  apply writeSelectionSetToStore_body_brackets. apply process_emits.
Qed.
End TraceShape.

(** C10, as the code has it.  Within one write, a nested result object that
    is identified as an entity of its own, and whose pair (entity key,
    selection set) is not yet in the dedup table, is committed before its
    parent.  (1) When [processFieldValue] returns for such an object, the
    recursive [writeSelectionSetToStore] has run to its end inside it: the
    child's [store.merge] is the last event so far.  (2) A parent write that
    returns has added, in this order, its entry in the dedup table, the
    complete writes of everything found while its selection set was
    processed, and its own [store.merge], which comes last; so every write
    that started inside the parent's processing has its [store.merge]
    strictly before the parent's.  (3) For an object whose pair is already
    in the dedup table [processFieldValue] returns the Reference and no
    [store.merge] takes place: the entity is committed by the write that
    entered the pair, whenever that write ends. *)
Theorem child_committed_before_parent policies utils production context :
  (forall n fields field selectionSet child st r st',
      field_selectionSet field = Some selectionSet ->
      identify policies (VObj fields) selectionSet (fragmentMap context)
      = Some child ->
      already_written st child selectionSet = false ->
      processFieldValue policies utils production context (S n)
        (VObj fields) field st = Ok r st' ->
      r = (VRef child, None)
      /\ exists inner committed,
          trace st' = trace st ++
                      EvWritten child (node selectionSet) :: inner ++
                      [EvMerge child committed])
  /\ (forall fuel parent result selectionSet st c st',
         already_written st parent selectionSet = false ->
         writeSelectionSetToStore policies utils production context fuel
           parent result selectionSet st = Ok c st' ->
         exists inner committed,
           trace st' = trace st ++
                       EvWritten parent (node selectionSet) :: inner ++
                       [EvMerge parent committed]
           /\ complete_writes inner
           /\ forall pre child n post,
               inner = pre ++ EvWritten child n :: post ->
               exists mid fields post',
                 post = mid ++ EvMerge child fields :: post')
  /\ (forall n fields field selectionSet child st,
         field_selectionSet field = Some selectionSet ->
         identify policies (VObj fields) selectionSet (fragmentMap context)
         = Some child ->
         already_written st child selectionSet = true ->
         processFieldValue policies utils production context (S n)
           (VObj fields) field st = Ok (VRef child, None) st).
Proof.
  split; [|split].
  - intros n fields field ss child st r st' Hss Hid Hw H.
    rewrite (proj1 (processFieldValue_on_object policies utils production
                      context n fields field ss st Hss) child Hid) in H.
    apply bind_inv_Ok in H as (c & st1 & Hwrite & Hret).
    inversion Hret; subst. split; [reflexivity|].
    destruct (writeSelectionSetToStore_brackets policies utils production
                context n _ _ _ _ _ _ Hwrite)
      as [[Hw' _]|[_ (inner & committed & E & _)]].
    + rewrite Hw in Hw'. discriminate Hw'.
    + exists inner, committed. exact E.
  - intros fuel parent result ss st c st' Hw H.
    destruct (writeSelectionSetToStore_brackets policies utils production
                context fuel _ _ _ _ _ _ H)
      as [[Hw' _]|[_ (inner & committed & E & C)]].
    + rewrite Hw in Hw'. discriminate Hw'.
    + exists inner, committed. split; [exact E|]. split; [exact C|].
      apply complete_writes_committed, C.
  - intros n fields field ss child st Hss Hid Hw.
    rewrite (proj1 (processFieldValue_on_object policies utils production
                      context n fields field ss st Hss) child Hid).
    unfold bind.
    now rewrite (writeSelectionSetToStore_skips _ _ _ _ _ _ _ _ _ Hw).
Qed.

(** The person and its pet: [Pet:9] is merged before [ROOT_QUERY]. *)
Lemma child_committed_before_parent_witness :
  exists inner committed,
    trace
      (final_state
         (writeSelectionSetToStore (Sample.policies [] true) Sample.utils
            false Scenario.no_context 5 "ROOT_QUERY" Scenario.person
            Scenario.person_selection Scenario.empty_state))
    = trace Scenario.empty_state ++
      EvWritten "ROOT_QUERY" 0 :: inner ++ [EvMerge "ROOT_QUERY" committed]
    /\ inner
       = [EvWritten "Pet:9" 1;
          EvMerge "Pet:9"
            [("__typename", VStr "Pet"); ("id", VStr "9");
             ("kind", VStr "cat")]].
Proof.
  destruct (writeSelectionSetToStore (Sample.policies [] true) Sample.utils
              false Scenario.no_context 5 "ROOT_QUERY" Scenario.person
              Scenario.person_selection Scenario.empty_state)
    as [c st'|e st'] eqn:Hrun; [|vm_compute in Hrun; discriminate Hrun].
  destruct (proj1 (proj2 (child_committed_before_parent
                            (Sample.policies [] true)
                            Sample.utils false Scenario.no_context))
              5%nat "ROOT_QUERY" Scenario.person Scenario.person_selection
              Scenario.empty_state c st' eq_refl Hrun)
    as (inner & committed & E & _).
  exists inner, committed. split; [exact E|].
  vm_compute in Hrun. inversion Hrun; subst. simpl in E.
  injection E as E.
  apply (f_equal (@rev Event)) in E. rewrite rev_app_distr in E. simpl in E.
  injection E as _ E. apply (f_equal (@rev Event)) in E.
  rewrite rev_involutive in E. simpl in E. symmetry. exact E.
Defined.

(** C10 as stated fails for an object whose pair is already in the dedup
    table, entered by a write that is still going on.  With the fragment
    [F], which selects [friend { ...F }], the write of [P:1] finds its
    friend [P:2] and writes it; the friend of [P:2] is identified as [P:1]
    under the very selection set with which [P:1] is being written, so it
    is replaced by the Reference at once; the parent [P:2] is then
    committed, and the entity [P:1] of its nested object only after it. *)
Lemma child_committed_after_parent_counterexample :
  getProp Cases.two "friend" = Some Cases.one_again
  /\ identify (Sample.policies [] true) Cases.one_again
       Cases.friend_selection (fragmentMap Cases.friends_context)
     = Some "P:1"
  /\ trace
       (final_state
          (writeSelectionSetToStore (Sample.policies [] true) Sample.utils
             false Cases.friends_context 8 "P:1" Cases.one
             Cases.friend_selection Scenario.empty_state))
     = [EvWritten "P:1" 21; EvWritten "P:2" 21;
        EvMerge "P:2"
          [("__typename", VStr "P"); ("id", VStr "2");
           ("friend", VRef "P:1")];
        EvMerge "P:1"
          [("__typename", VStr "P"); ("id", VStr "1");
           ("friend", VRef "P:2")]].
Proof. repeat split; vm_compute; reflexivity. Qed.

(** ** The override pass *)

Lemma walkWithMergeOverrides_cons existing incoming name merge child rest :
  walkWithMergeOverrides existing incoming
    (Overrides ((name, (merge, child)) :: rest))
  = match walked_child existing incoming name child with
    | inl e => inl e
    | inr (incomingObject, incomingValue) =>
        match merge with
        | Some f =>
            match setProp incomingObject name
                    (f (guardedProp existing name) incomingValue) with
            | inr o =>
                if from_host (guardedProp existing name) incomingValue
                then inl HostValue
                else walkWithMergeOverrides existing (Some o) (Overrides rest)
            | inl e => inl e
            end
        | None => walkWithMergeOverrides existing incomingObject (Overrides rest)
        end
    end.
Proof. reflexivity. Qed.

Lemma aset_same {V : Type} (k : string) (v : V) l :
  alookup k l = Some v -> aset k v l = l.
Proof.
  induction l as [|[k0 v0] l IH]; simpl; [discriminate|].
  destruct (String.eqb k k0) eqn:E.
  - apply String.eqb_eq in E. subst k0. now intros [= ->].
  - intros H. now rewrite (IH H).
Qed.

Lemma index_entries_values i l : map snd (index_entries i l) = l.
Proof.
  revert i. induction l as [|x l IH]; intros i; simpl; [reflexivity|].
  now rewrite IH.
Qed.

Lemma alookup_index_entries_app k i l ext v :
  alookup k (index_entries i l) = Some v ->
  alookup k (index_entries i (l ++ ext)) = Some v.
Proof.
  revert i. induction l as [|x l IH]; intros i; simpl; [discriminate|].
  destruct (String.eqb k (index_key i)); [trivial|apply IH].
Qed.

(** The name of an index is not [length]. *)
Lemma alookup_length_index_entries l :
  forall i, alookup "length" (index_entries i l) = None.
Proof.
  induction l as [|x l IH]; intros i; [reflexivity|].
  cbn [index_entries alookup].
  assert (E : String.eqb "length" (index_key i) = false).
  { unfold index_key. destruct (Nat.to_uint i); reflexivity. }
  rewrite E. apply IH.
Qed.

(** An assignment at an index of an array, or at its end, gives the array
    whose indices are the updated ones. *)
Lemma index_entries_aset name x l :
  forall i,
    is_Some (alookup name (index_entries i (l ++ [VNull]))) ->
    index_entries i (map snd (aset name x (index_entries i l)))
    = aset name x (index_entries i l).
Proof.
  induction l as [|y l IH]; intros i H.
  - cbn [index_entries app alookup] in H.
    destruct (String.eqb name (index_key i)) eqn:E;
      [|now apply is_Some_None in H].
    apply String.eqb_eq in E. now subst name.
  - cbn [index_entries app alookup aset] in *.
    destruct (String.eqb name (index_key i)) eqn:E.
    + apply String.eqb_eq in E. subst name. cbn [map snd index_entries].
      now rewrite index_entries_values.
    + cbn [map snd index_entries]. now rewrite (IH (S i) H).
Qed.

(** An assignment that can be made changes the member it names and no other
    member, and leaves an object an object and an array an array. *)
Lemma setProp_container c name x c' :
  setProp (Some c) name x = inr c' ->
  same_kind c c'
  /\ getProp c' name = Some x
  /\ forall k,
      k <> name -> (forall l, c = VArr l -> k <> "length") ->
      getProp c' k = getProp c k.
Proof.
  destruct c as [| | | |l|fs| |]; simpl; try discriminate.
  - destruct (alookup name (index_entries 0 (l ++ [VNull]))) as [w|] eqn:Hin;
      [|discriminate].
    intros [= <-].
    assert (Hentries :
      index_entries 0 (map snd (aset name x (index_entries 0 l)))
      = aset name x (index_entries 0 l)).
    { apply index_entries_aset. now rewrite Hin. }
    assert (Hname : String.eqb name "length" = false).
    { destruct (String.eqb name "length") eqn:E; [|reflexivity].
      apply String.eqb_eq in E. subst name.
      now rewrite alookup_length_index_entries in Hin. }
    split; [exact I|]. split.
    + unfold getProp, ownProp. rewrite Hname, Hentries, alookup_aset.
      now rewrite String.eqb_refl.
    + intros k Hk Hlen.
      assert (Hkl : String.eqb k "length" = false).
      { apply String.eqb_neq. exact (Hlen l eq_refl). }
      unfold getProp, ownProp. rewrite Hkl, Hentries.
      now rewrite (alookup_aset_ne _ _ _ _ Hk).
  - intros [= <-]. split; [exact I|]. split.
    + unfold getProp, ownProp. now rewrite alookup_aset, String.eqb_refl.
    + intros k Hk _. unfold getProp, ownProp.
      now rewrite (alookup_aset_ne _ _ _ _ Hk).
Qed.

Lemma same_kind_reference c c' :
  same_kind c c' ->
  is_reference_type (Some c) = true /\ is_reference_type (Some c') = true.
Proof. destruct c, c'; simpl; intros []; split; reflexivity. Qed.

Lemma same_kind_refl c :
  is_reference_type (Some c) = true -> same_kind c c.
Proof. destruct c; simpl; try discriminate; intros _; exact I. Qed.

Lemma same_kind_trans a b c : same_kind a b -> same_kind b c -> same_kind a c.
Proof. destruct a, b, c; simpl; intros [] []; exact I. Qed.

Lemma same_kind_array c c' l' :
  same_kind c c' -> c' = VArr l' -> exists l, c = VArr l.
Proof. intros H ->. destruct c; simpl in H; try contradiction. eauto. Qed.

(** The members of a value that is neither an object nor an array are
    neither. *)
Lemma guardedProp_atom incoming name :
  is_reference_type incoming = false ->
  is_reference_type (guardedProp incoming name) = false.
Proof.
  destruct incoming as [[| b | z | s | l | fs | id | h]|]; simpl;
    try discriminate; intros _; unfold guardedProp, js_and; simpl;
    try reflexivity.
  - destruct b; simpl; [|reflexivity].
    unfold getProp; cbn [ownProp]. now destruct (inherited _ _).
  - destruct (negb (z =? 0)%Z); simpl; [|reflexivity].
    unfold getProp; cbn [ownProp]. now destruct (inherited _ _).
  - destruct (negb (String.eqb s "")); simpl; [|reflexivity].
    unfold getProp, ownProp.
    destruct (String.eqb name "length"); [reflexivity|].
    assert (Hchars : forall cs i,
      match alookup name
              (index_entries i
                 (map (fun c => VStr (String c EmptyString)) cs)) with
      | Some v => is_reference_type (Some v) = false
      | None => True
      end).
    { induction cs as [|c cs IH]; intros i; simpl; [exact I|].
      destruct (String.eqb name (index_key i)); [reflexivity|apply IH]. }
    specialize (Hchars (String.list_ascii_of_string s) 0%nat).
    destruct (alookup name _); [exact Hchars|].
    now destruct (inherited _ _).
  - unfold getProp, ownProp.
    destruct (String.eqb name "__ref"); [reflexivity|].
    now destruct (inherited _ _).
Qed.

(** On a value that is neither an object nor an array the walker can only
    read: when it returns, the value is as it was. *)
Lemma walkWithMergeOverrides_atom o :
  forall existing incoming out,
    is_reference_type incoming = false ->
    walkWithMergeOverrides existing incoming o = inr out ->
    out = incoming.
Proof.
  induction o as [es IH] using MergeOverrides_ind'.
  intros existing incoming out Hatom.
  induction IH as [|[name [m child]] rest Hchild _ IHrest]; intros H.
  - simpl in H. now inversion H.
  - rewrite walkWithMergeOverrides_cons in H.
    destruct (walked_child existing incoming name child) as [e|[io iv]] eqn:Hw;
      [discriminate H|].
    assert (Hio : io = incoming).
    { unfold walked_child in Hw. destruct child as [c|].
      - simpl in Hchild.
        destruct (walkWithMergeOverrides _ _ c) as [e|iv'] eqn:Hc;
          [discriminate Hw|].
        apply Hchild in Hc; [|now apply guardedProp_atom]. subst iv'.
        rewrite (guardedProp_atom _ _ Hatom) in Hw. now injection Hw.
      - now injection Hw. }
    subst io.
    destruct m as [f|]; [|exact (IHrest H)].
    exfalso.
    destruct incoming as [[| | | | | | |]|]; simpl in Hatom, H;
      discriminate.
Qed.

(** What the walker returns for an object or an array is an object or an
    array. *)
Lemma walkWithMergeOverrides_keeps_reference existing es :
  forall incoming out,
    is_reference_type incoming = true ->
    walkWithMergeOverrides existing incoming (Overrides es) = inr out ->
    is_reference_type out = true.
Proof.
  induction es as [|[n2 [m2 ch2]] rest IH]; intros incoming out Hin H.
  - simpl in H. inversion H; subst. exact Hin.
  - rewrite walkWithMergeOverrides_cons in H.
    destruct (walked_child _ incoming n2 ch2) as [e|[io iv]] eqn:Hw;
      [discriminate H|].
    assert (Hio : is_reference_type io = true).
    { unfold walked_child in Hw. destruct ch2 as [b2|].
      - destruct (walkWithMergeOverrides _ _ b2) as [e|iv2];
          [discriminate Hw|].
        destruct (is_reference_type iv2).
        + destruct (setProp incoming n2 _) as [e|o] eqn:Hset;
            [discriminate Hw|].
          injection Hw as <- _.
          destruct incoming as [ci|]; [|discriminate Hin].
          apply setProp_container in Hset as (Hk & _).
          apply same_kind_reference in Hk. apply Hk.
        + injection Hw as <- _. exact Hin.
      - injection Hw as <- _. exact Hin. }
    destruct m2 as [f2|]; [|exact (IH _ _ Hio H)].
    destruct (setProp io n2 _) as [e|o] eqn:Hset; [discriminate H|].
    destruct (from_host _ _); [discriminate H|].
    refine (IH _ _ _ H).
    destruct io as [ci|]; [|discriminate Hio].
    apply setProp_container in Hset as (Hk & _).
    apply same_kind_reference in Hk. apply Hk.
Qed.

(** One turn of the walker on an object or an array, up to the merge
    function: the incoming object is the same but for the member [name],
    which holds what the walk of the child tree returned. *)
Lemma walked_child_container existing c name child io iv :
  is_reference_type (Some c) = true ->
  walked_child existing (Some c) name child = inr (io, iv) ->
  exists c1,
    io = Some c1
    /\ same_kind c c1
    /\ (forall k,
          k <> name -> (forall l, c = VArr l -> k <> "length") ->
          getProp c1 k = getProp c k)
    /\ match child with
       | Some below =>
           walkWithMergeOverrides (guardedProp existing name) (getProp c name)
             below = inr iv
       | None => iv = getProp c name
       end
    /\ getProp c1 name = iv.
Proof.
  intros Hc. unfold walked_child.
  assert (Hread : guardedProp (Some c) name = getProp c name).
  { destruct c; simpl in Hc; try discriminate; reflexivity. }
  rewrite Hread.
  destruct child as [below|].
  - destruct (walkWithMergeOverrides _ _ below) as [e|iv'] eqn:Hwalk;
      [discriminate|].
    destruct (is_reference_type iv') eqn:Href.
    + destruct (setProp (Some c) name (default VNull iv')) as [e|o] eqn:Hset;
        [discriminate|].
      intros [= <- <-].
      destruct (setProp_container _ _ _ _ Hset) as (Hkind & Hat & Hother).
      exists o. repeat split; try assumption.
      rewrite Hat. destruct iv'; [reflexivity|discriminate Href].
    + intros [= <- <-]. exists c.
      split; [reflexivity|]. split; [now apply same_kind_refl|].
      split; [reflexivity|]. split; [reflexivity|].
      destruct (is_reference_type (getProp c name)) eqn:Hin.
      * exfalso.
        destruct (getProp c name) as [c2|]; [|discriminate Hin].
        destruct below as [es2].
        rewrite (walkWithMergeOverrides_keeps_reference _ _ _ _ Hin Hwalk)
          in Href.
        discriminate Href.
      * symmetry. exact (walkWithMergeOverrides_atom _ _ _ _ Hin Hwalk).
  - intros [= <- <-]. exists c.
    split; [reflexivity|]. split; [now apply same_kind_refl|].
    repeat split; reflexivity.
Qed.

(** The walker returns an object for an object and an array for an array,
    and touches only the positions its overrides name. *)
Lemma walkWithMergeOverrides_container existing es :
  forall c out,
    is_reference_type (Some c) = true ->
    walkWithMergeOverrides existing (Some c) (Overrides es) = inr out ->
    exists c',
      out = Some c'
      /\ same_kind c c'
      /\ forall k,
          k ∉ akeys es -> (forall l, c = VArr l -> k <> "length") ->
          getProp c' k = getProp c k.
Proof.
  induction es as [|[name [merge child]] rest IH]; intros c out Hc H.
  - simpl in H. inversion H; subst. exists c.
    split; [reflexivity|]. split; [now apply same_kind_refl|].
    intros; reflexivity.
  - rewrite walkWithMergeOverrides_cons in H.
    destruct (walked_child _ _ _ _) as [e|[io iv]] eqn:Hw; [discriminate|].
    apply walked_child_container in Hw as (c1 & -> & Hk1 & Hother & _);
      [|exact Hc].
    assert (Hstep : forall c2,
      same_kind c c2 ->
      (forall k,
          k <> name -> (forall l, c = VArr l -> k <> "length") ->
          getProp c2 k = getProp c k) ->
      walkWithMergeOverrides existing (Some c2) (Overrides rest) = inr out ->
      exists c',
        out = Some c'
        /\ same_kind c c'
        /\ forall k,
            k ∉ akeys ((name, (merge, child)) :: rest) ->
            (forall l, c = VArr l -> k <> "length") ->
            getProp c' k = getProp c k).
    { intros c2 Hk2 H2 Hrest.
      destruct (IH _ _ (proj2 (same_kind_reference _ _ Hk2)) Hrest)
        as (c' & -> & Hk' & Hframe).
      exists c'. split; [reflexivity|].
      split; [exact (same_kind_trans _ _ _ Hk2 Hk')|].
      intros k Hnot Hlen. simpl in Hnot.
      apply not_elem_of_cons in Hnot as [Hne Hnot].
      rewrite (Hframe k Hnot), (H2 k Hne Hlen); [reflexivity|].
      intros l2 ->. destruct (same_kind_array _ _ _ Hk2 eq_refl) as [l ->].
      exact (Hlen l eq_refl). }
    destruct merge as [f|].
    + destruct (setProp (Some c1) name _) as [e|o] eqn:Hset; [discriminate|].
      destruct (from_host _ _); [discriminate|].
      destruct (setProp_container _ _ _ _ Hset) as (Hko & _ & Hoo).
      apply (Hstep o); [exact (same_kind_trans _ _ _ Hk1 Hko)| |exact H].
      intros k Hk Hlen. rewrite (Hoo k Hk), (Hother k Hk Hlen); [reflexivity|].
      intros l1 ->. destruct (same_kind_array _ _ _ Hk1 eq_refl) as [l ->].
      exact (Hlen l eq_refl).
    + apply (Hstep c1); assumption.
Qed.

(** The walker returns an object for an object, and touches only the
    positions its overrides name. *)
Lemma walkWithMergeOverrides_object existing es :
  forall fields out,
    walkWithMergeOverrides existing (Some (VObj fields)) (Overrides es)
    = inr out ->
    exists fields',
      out = Some (VObj fields')
      /\ forall k, k ∉ akeys es -> alookup k fields' = alookup k fields.
Proof.
  induction es as [|[name [merge child]] rest IH]; intros fields out H.
  - simpl in H. inversion H; subst. exists fields. split; [reflexivity|].
    intros; reflexivity.
  - rewrite walkWithMergeOverrides_cons in H.
    destruct (walked_child _ _ _ _) as [e|[io iv]] eqn:Hw; [discriminate|].
    assert (Hio : exists fields1,
      io = Some (VObj fields1)
      /\ forall k, k <> name -> alookup k fields1 = alookup k fields).
    { unfold walked_child in Hw. destruct child as [c|].
      - destruct (walkWithMergeOverrides _ _ c) as [e|iv']; [discriminate|].
        destruct (is_reference_type iv'); simpl in Hw;
          inversion Hw; subst.
        + eexists. split; [reflexivity|].
          intros k Hk. now apply alookup_aset_ne.
        + exists fields. split; reflexivity.
      - inversion Hw; subst. exists fields. split; reflexivity. }
    destruct Hio as (fields1 & -> & Hother).
    assert (Hstep : forall fields2,
      (forall k, k <> name -> alookup k fields2 = alookup k fields1) ->
      walkWithMergeOverrides existing (Some (VObj fields2)) (Overrides rest)
      = inr out ->
      exists fields',
        out = Some (VObj fields')
        /\ forall k, k ∉ akeys ((name, (merge, child)) :: rest) ->
                     alookup k fields' = alookup k fields).
    { intros fields2 H2 Hrest.
      destruct (IH _ _ Hrest) as (fields' & -> & Hk).
      exists fields'. split; [reflexivity|].
      intros k Hnot. simpl in Hnot. apply not_elem_of_cons in Hnot as [Hne Hnot].
      rewrite (Hk k Hnot), (H2 k Hne). apply Hother, Hne. }
    destruct merge as [f|].
    + simpl in H. destruct (from_host _ _); [discriminate|].
      apply (Hstep (aset name (f (guardedProp existing name) iv) fields1));
        [|exact H].
      intros k Hk. now apply alookup_aset_ne.
    + apply (Hstep fields1); [reflexivity|exact H].
Qed.

(** The value the walker leaves at a position its overrides name. *)
Lemma value_at_entry existing es :
  forall c out name m child,
    names_positions es c ->
    alookup name es = Some (m, child) ->
    walkWithMergeOverrides existing (Some c) (Overrides es) = inr out ->
    exists c' incomingValue,
      out = Some c'
      /\ same_kind c c'
      /\ match child with
         | Some below =>
             walkWithMergeOverrides (guardedProp existing name)
               (getProp c name) below = inr incomingValue
         | None => incomingValue = getProp c name
         end
      /\ getProp c' name
         = match m with
           | Some f => Some (f (guardedProp existing name) incomingValue)
           | None => incomingValue
           end.
Proof.
  induction es as [|[name0 [merge0 child0]] rest IH];
    intros c out name m child (Hc & Hnd & Hlen) Hlook H; [discriminate Hlook|].
  simpl in Hnd. apply NoDup_cons in Hnd as [Hfresh Hnd].
  rewrite walkWithMergeOverrides_cons in H.
  destruct (walked_child _ _ _ _) as [e|[io iv]] eqn:Hw; [discriminate|].
  apply walked_child_container in Hw
    as (c1 & -> & Hk1 & Hother & Hchild & Hat); [|exact Hc].
  assert (Hlen1 : forall c2,
    same_kind c c2 -> forall k, k ∈ akeys ((name0, (merge0, child0)) :: rest) ->
    forall l, c2 = VArr l -> k <> "length").
  { intros c2 Hk2 k Hk l2 -> ->.
    destruct (same_kind_array _ _ _ Hk2 eq_refl) as [l ->].
    exact (Hlen l eq_refl Hk). }
  simpl in Hlook. destruct (String.eqb name name0) eqn:E.
  - apply String.eqb_eq in E. subst name0. injection Hlook as -> ->.
    assert (Hlast : forall c2,
      same_kind c c2 ->
      walkWithMergeOverrides existing (Some c2) (Overrides rest) = inr out ->
      exists c', out = Some c' /\ same_kind c c'
                 /\ getProp c' name = getProp c2 name).
    { intros c2 Hk2 Hrest.
      destruct (walkWithMergeOverrides_container _ _ _ _
                  (proj2 (same_kind_reference _ _ Hk2)) Hrest)
        as (c' & -> & Hk' & Hframe).
      exists c'. split; [reflexivity|].
      split; [exact (same_kind_trans _ _ _ Hk2 Hk')|].
      apply Hframe; [exact Hfresh|].
      apply (Hlen1 c2 Hk2). left. }
    destruct m as [f|].
    + destruct (setProp (Some c1) name _) as [e|o] eqn:Hset; [discriminate|].
      destruct (from_host _ _); [discriminate|].
      destruct (setProp_container _ _ _ _ Hset) as (Hko & Hset_at & _).
      destruct (Hlast o (same_kind_trans _ _ _ Hk1 Hko) H)
        as (c' & -> & Hk' & Hsame).
      exists c', iv. rewrite Hsame, Hset_at. repeat split; assumption.
    + destruct (Hlast c1 Hk1 H) as (c' & -> & Hk' & Hsame).
      exists c', iv. rewrite Hsame, Hat. repeat split; assumption.
  - assert (Hne : name <> name0).
    { intros ->. now rewrite String.eqb_refl in E. }
    assert (Hin : name ∈ akeys rest).
    { clear -Hlook. induction rest as [|[k0 e0] rest IH]; [discriminate|].
      simpl in *. destruct (String.eqb name k0) eqn:E.
      - apply String.eqb_eq in E. subst. left.
      - right. now apply IH. }
    assert (Hlater : forall c2,
      same_kind c c2 ->
      getProp c2 name = getProp c name ->
      walkWithMergeOverrides existing (Some c2) (Overrides rest) = inr out ->
      exists c' incomingValue,
        out = Some c'
        /\ same_kind c c'
        /\ match child with
           | Some below =>
               walkWithMergeOverrides (guardedProp existing name)
                 (getProp c name) below = inr incomingValue
           | None => incomingValue = getProp c name
           end
        /\ getProp c' name
           = match m with
             | Some f => Some (f (guardedProp existing name) incomingValue)
             | None => incomingValue
             end).
    { intros c2 Hk2 H2 Hrest.
      destruct (IH c2 out name m child) as (c' & v & -> & Hk' & Hc' & Hv);
        [|exact Hlook|exact Hrest|].
      - split; [exact (proj2 (same_kind_reference _ _ Hk2))|].
        split; [exact Hnd|].
        intros l2 -> Hl. apply (Hlen1 _ Hk2 "length" ltac:(now right) l2);
          reflexivity.
      - exists c', v. rewrite H2 in Hc'.
        split; [reflexivity|].
        split; [exact (same_kind_trans _ _ _ Hk2 Hk')|]. split; assumption. }
    assert (Hname1 : getProp c1 name = getProp c name).
    { apply Hother; [exact Hne|]. intros l ->.
      apply (Hlen1 _ (same_kind_refl _ Hc) name ltac:(now right) l eq_refl). }
    destruct merge0 as [f0|].
    + destruct (setProp (Some c1) name0 _) as [e|o] eqn:Hset; [discriminate|].
      destruct (from_host _ _); [discriminate|].
      destruct (setProp_container _ _ _ _ Hset) as (Hko & _ & Hoo).
      apply (Hlater o); [exact (same_kind_trans _ _ _ Hk1 Hko)| |exact H].
      rewrite Hoo; [exact Hname1|exact Hne|].
      intros l1 ->.
      apply (Hlen1 _ Hk1 name ltac:(now right) l1 eq_refl).
    + apply (Hlater c1); assumption.
Qed.

(** The value the walker leaves at the end of a path of positions. *)
Lemma value_at_position existing f child o incoming path :
  position f child o incoming path ->
  forall existing0 out,
    existing0 = existing ->
    walkWithMergeOverrides existing incoming o = inr out ->
    exists incomingValue,
      match child with
      | Some below =>
          walkWithMergeOverrides (value_at existing path)
            (value_at incoming path) below = inr incomingValue
      | None => incomingValue = value_at incoming path
      end
      /\ value_at out path
         = Some (f (value_at existing path) incomingValue).
Proof.
  intros Hpos. revert existing.
  induction Hpos as [es c name Hnames Hlook
                    |es c name below path Hnames Hlook Hpos IH];
    intros existing existing0 out _ H.
  - destruct (value_at_entry _ _ _ _ _ _ _ Hnames Hlook H)
      as (c' & iv & -> & Hk & Hchild & Hat).
    assert (Hc : guardedProp (Some c) name = getProp c name).
    { destruct Hnames as [Hc _].
      destruct c; simpl in Hc; try discriminate; reflexivity. }
    assert (Hc' : guardedProp (Some c') name = getProp c' name).
    { apply same_kind_reference in Hk as [_ Hc'].
      destruct c'; simpl in Hc'; try discriminate; reflexivity. }
    exists iv. cbn [value_at]. rewrite Hc, Hc'. split; assumption.
  - destruct (value_at_entry _ _ _ _ _ _ _ Hnames Hlook H)
      as (c' & iv & -> & Hk & Hchild & Hat).
    assert (Hc : guardedProp (Some c) name = getProp c name).
    { destruct Hnames as [Hc _].
      destruct c; simpl in Hc; try discriminate; reflexivity. }
    assert (Hc' : guardedProp (Some c') name = getProp c' name).
    { apply same_kind_reference in Hk as [_ Hc'].
      destruct c'; simpl in Hc'; try discriminate; reflexivity. }
    cbn [value_at]. rewrite Hc, Hc', Hat.
    exact (IH _ _ _ eq_refl Hchild).
Qed.

(** The commit of a processed field map that has overrides: the walker
    runs against [store.get(dataId)] of the store as it is then, and the
    store changes only by the merge of the walked field map. *)
Lemma commit_processed_overrides d fields mo st fields' :
  walkWithMergeOverrides (VObj <$> store_get (store st) d)
    (Some (VObj fields)) mo = inr (Some (VObj fields')) ->
  commit_processed d (fields, Some mo) st
  = Ok (store_merge (store st) d fields')
       (mkState (store_merge (store st) d fields') (written st)
          (trace st ++ [EvMerge d fields'])).
Proof.
  intros Hwalk. unfold commit_processed, bind, get_state. simpl.
  rewrite Hwalk. reflexivity.
Qed.

(** A position with a child tree and a merge function: [sum] runs on [b]
    first, and [observed] at [a] is given the existing [{ b: 1 }] as it was
    and the incoming object with [b] already merged. *)
Example child_overrides_before_merge :
  walkWithMergeOverrides
    (Some (VObj [("a", VObj [("b", VNum 1)])]))
    (Some (VObj [("a", VObj [("b", VNum 2)])]))
    Scenario.nested_overrides
  = inr (Some (VObj [("a", VArr [VObj [("b", VNum 1)];
                                 VObj [("b", VNum 3)]])])).
Proof. reflexivity. Qed.

(** On a first write there is no existing field map, and the merge function
    is given undefined as the existing value. *)
Example first_write_has_no_existing :
  walkWithMergeOverrides None
    (Some (VObj [("a", VNum 2)]))
    (Overrides [("a", (Some Scenario.observed, None))])
  = inr (Some (VObj [("a", VArr [VNull; VNum 2])]))
  /\ guardedProp None "a" = None.
Proof. split; reflexivity. Qed.

(** The same through the entry point: the store ends with
    [numbers: [1, 2, 3, 4]], and the field map committed is the walked one. *)
Example concatenating_merge_committed :
  (let st :=
     final_state
       (writeQueryToStore Scenario.numbers_policies Sample.utils false 5
          Scenario.numbers_options) in
   store_getFieldValue (store st) "ROOT_QUERY" "numbers"
   = Some (VArr [VNum 1; VNum 2; VNum 3; VNum 4])
   /\ trace st
      = [EvRetain "ROOT_QUERY"; EvWritten "ROOT_QUERY" 9;
         EvMerge "ROOT_QUERY"
           [("__typename", VStr "Query");
            ("numbers", VArr [VNum 1; VNum 2; VNum 3; VNum 4])]]).
Proof. split; vm_compute; reflexivity. Qed.

(** ** Leaves *)

Section HeapCopies.
Import Aliasing.



End HeapCopies.

(** ** The override pass on a heap: what is frozen stays as it is *)

Section HeapWalk.
Import Aliasing.

Lemma frozen_kept_refl s : frozen_kept s s.
Proof.
  split; [auto|]. split; [auto|].
  exists []. split; [now rewrite app_nil_r|].
  intros existing h l Hin. apply elem_of_nil in Hin. contradiction.
Qed.

Lemma frozen_kept_trans a b c :
  frozen_kept a b -> frozen_kept b c -> frozen_kept a c.
Proof.
  intros (Hf1 & Hc1 & new1 & Hn1 & Hr1) (Hf2 & Hc2 & new2 & Hn2 & Hr2).
  split; [auto|]. split.
  - intros l Hl. rewrite (Hc2 l (Hf1 l Hl)). now apply Hc1.
  - exists (new1 ++ new2). split; [now rewrite Hn2, Hn1, app_assoc|].
    intros existing h l Hin Hl. apply elem_of_app in Hin as [Hin|Hin].
    + destruct (Hr1 _ _ _ Hin Hl) as [Hfl Hcl].
      split; [now apply Hf2|]. now rewrite (Hc2 l Hfl).
    + exact (Hr2 _ _ _ Hin Hl).
Qed.

Lemma frozen_kept_update l c s :
  l ∉ frozen s -> frozen_kept s (update l c s).
Proof.
  intros Hl. split; [auto|]. split.
  - intros l' Hl'. simpl. apply list_lookup_insert_ne. intros ->.
    contradiction.
  - exists []. split; [simpl; now rewrite app_nil_r|].
    intros existing h l' Hin. apply elem_of_nil in Hin. contradiction.
Qed.

Lemma frozen_kept_allocate c s :
  length (cells s) ∉ frozen s -> frozen_kept s (allocate c s).
Proof.
  intros Hl. split; [auto|]. split.
  - intros l' Hl'. simpl.
    destruct (decide (l' < length (cells s))%nat) as [Hlt|Hge].
    + now apply lookup_app_l.
    + assert (Hne : l' <> length (cells s)) by (intros ->; contradiction).
      rewrite !lookup_ge_None_2; [reflexivity|lia|].
      rewrite length_app. simpl. lia.
  - exists []. split; [simpl; now rewrite app_nil_r|].
    intros existing h l' Hin. apply elem_of_nil in Hin. contradiction.
Qed.

Lemma apply_writes_frozen_kept ws :
  forall s s', apply_writes ws s = inr s' -> frozen_kept s s'.
Proof.
  induction ws as [|[l c] rest IH]; intros s s' H; simpl in H.
  - inversion H. apply frozen_kept_refl.
  - destruct (bool_decide (l ∈ frozen s)) eqn:Hfrozen; [discriminate H|].
    apply bool_decide_eq_false in Hfrozen.
    destruct (l <? length (cells s))%nat.
    + apply (frozen_kept_trans _ (update l c s));
        [now apply frozen_kept_update|now apply IH].
    + destruct (l =? length (cells s))%nat eqn:E; [|discriminate H].
      apply Nat.eqb_eq in E. subst l.
      apply (frozen_kept_trans _ (allocate c s));
        [now apply frozen_kept_allocate|now apply IH].
Qed.

Lemma assign_frozen_kept o name v s s' :
  assign o name v s = inr s' -> frozen_kept s s'.
Proof.
  unfold assign. destruct o as [[| | | |l]|]; try discriminate.
  destruct (bool_decide (l ∈ frozen s)) eqn:Hfrozen; [discriminate|].
  apply bool_decide_eq_false in Hfrozen.
  destruct (cells s !! l) as [[items|fields]|]; [| |discriminate].
  - destruct (alookup name _); [|discriminate].
    intros [= <-]. now apply frozen_kept_update.
  - intros [= <-]. now apply frozen_kept_update.
Qed.

(** The call of a merge function outside production: its existing value is
    frozen with all it reaches, as the heap holds it then. *)
Lemma called_frozen_kept existingValue s :
  frozen_kept s (called existingValue (maybeDeepFreeze false existingValue s)).
Proof.
  destruct existingValue as [x|]; simpl.
  - split; [intros l Hl; simpl; apply elem_of_app; now right|].
    split; [reflexivity|].
    exists [(Some x, cells s)]. split; [reflexivity|].
    intros existing h l Hin Hl.
    apply list_elem_of_singleton in Hin. injection Hin as -> ->.
    split; [simpl; apply elem_of_app; now left|reflexivity].
  - split; [auto|]. split; [reflexivity|].
    exists [(None, cells s)]. split; [reflexivity|].
    intros existing h l Hin.
    apply list_elem_of_singleton in Hin. discriminate Hin.
Qed.

Lemma walkWithMergeOverrides_frozen_kept o :
  forall existingObject incomingObject s s',
    Aliasing.walkWithMergeOverrides false o existingObject incomingObject s
    = inr s' ->
    frozen_kept s s'.
Proof.
  induction o as [es IH] using HeapOverrides_ind'.
  intros existingObject incomingObject.
  induction IH as [|[name [merge child]] rest Hchild _ IHrest]; intros s s' H.
  - simpl in H. inversion H. apply frozen_kept_refl.
  - simpl in H.
    destruct (member (cells s) existingObject name) as [e|existingValue];
      [discriminate H|].
    destruct (member (cells s) incomingObject name) as [e|incomingValue];
      [discriminate H|].
    assert (Hdown : forall s1,
      match child with
      | Some c =>
          Aliasing.walkWithMergeOverrides false c existingValue
            incomingValue s
      | None => inr s
      end = inr s1 -> frozen_kept s s1).
    { intros s1 H1. destruct child as [c|].
      - simpl in Hchild. exact (Hchild _ _ _ _ H1).
      - inversion H1. apply frozen_kept_refl. }
    destruct (match child with Some c => _ | None => _ end) as [e|s1];
      [discriminate H|].
    specialize (Hdown s1 eq_refl).
    destruct merge as [f|].
    + destruct (apply_writes _ _) as [e|s3] eqn:Hwrites; [discriminate H|].
      destruct (assign _ _ _ s3) as [e|s4] eqn:Hassign; [discriminate H|].
      eapply frozen_kept_trans; [exact Hdown|].
      eapply frozen_kept_trans; [apply called_frozen_kept|].
      eapply frozen_kept_trans;
        [exact (apply_writes_frozen_kept _ _ _ Hwrites)|].
      eapply frozen_kept_trans;
        [exact (assign_frozen_kept _ _ _ _ _ Hassign)|].
      exact (IHrest _ _ H).
    + eapply frozen_kept_trans; [exact Hdown|]. exact (IHrest _ _ H).
Qed.

Lemma reach_mono h :
  forall fuel fuel' v l,
    (fuel <= fuel')%nat -> l ∈ reach fuel h v -> l ∈ reach fuel' h v.
Proof.
  induction fuel as [|n IH]; intros fuel' v l Hle Hl.
  - destruct v; simpl in Hl; apply elem_of_nil in Hl; contradiction.
  - destruct fuel' as [|n']; [lia|].
    destruct v as [| | | |a]; simpl in *;
      try (apply elem_of_nil in Hl; contradiction).
    apply elem_of_cons in Hl as [->|Hl]; [left|]. right.
    assert (Hmap : forall items,
      l ∈ flat_map (reach n h) items -> l ∈ flat_map (reach n' h) items).
    { intros items Hin. apply list_elem_of_In, in_flat_map in Hin
        as (x & Hx & Hin).
      apply list_elem_of_In, in_flat_map. exists x. split; [exact Hx|].
      apply list_elem_of_In, (IH n'); [lia|]. now apply list_elem_of_In. }
    destruct (h !! a) as [[items|fields]|]; [now apply Hmap..|exact Hl].
Qed.

(** A value reads the same on a heap that has the same cells where the
    value reaches. *)
Lemma reify_agree (h h' : Heap) :
  forall fuel v t,
    (forall l, l ∈ reach fuel h v -> h' !! l = h !! l) ->
    reify fuel h v = Some t -> reify fuel h' v = Some t.
Proof.
  induction fuel as [|n IH]; intros v t Hagree H; destruct v as [| | | |a];
    simpl in *; try exact H.
  rewrite (Hagree a) by left.
  assert (Hitems : forall items ts,
    (forall l, l ∈ flat_map (reach n h) items -> h' !! l = h !! l) ->
    mapM (reify n h) items = Some ts -> mapM (reify n h') items = Some ts).
  { intros items ts Hin Hm. apply mapM_Some in Hm. apply mapM_Some_2.
    induction Hm as [|x y items ts Hxy _ IHm]; constructor.
    - apply IH; [|exact Hxy]. intros l Hl. apply Hin.
      simpl. apply elem_of_app. now left.
    - apply IHm. intros l Hl. apply Hin. simpl. apply elem_of_app.
      now right. }
  destruct (h !! a) as [[items|fields]|] eqn:Ha; [| |discriminate H].
  - destruct (mapM (reify n h) items) as [ts|] eqn:Hm; [|discriminate H].
    rewrite (Hitems items ts); [exact H| |exact Hm].
    intros l Hl. apply Hagree. now right.
  - destruct (mapM (reify n h) fields.*2) as [ts|] eqn:Hm; [|discriminate H].
    rewrite (Hitems _ ts); [exact H| |exact Hm].
    intros l Hl. apply Hagree. now right.
Qed.

(** Outside production the existing value of every call of a merge function
    is, at the end of the walk, the tree it was when the function was
    called. *)
Lemma walkWithMergeOverrides_observed o existingObject incomingObject s s' :
  Aliasing.walkWithMergeOverrides false o existingObject incomingObject s
  = inr s' ->
  exists new,
    calls s' = calls s ++ new /\ observed_unchanged (cells s') new.
Proof.
  intros H.
  destruct (walkWithMergeOverrides_frozen_kept _ _ _ _ _ H)
    as (_ & _ & new & Hnew & Hreach).
  exists new. split; [exact Hnew|].
  intros existing h fuel t Hin Hfuel Hread.
  apply (reify_agree h); [|exact Hread].
  intros l Hl. apply (Hreach existing h l Hin).
  now apply (reach_mono h fuel).
Qed.
End HeapWalk.

(** C6, as the code has it.  On an incoming object or array, and overrides
    whose names are distinct (on an array, names of indices), a walk that
    returns leaves at every name of the overrides what the code computes
    there, depth-first.  (1) The walk of the child tree of an entry, if it
    has one, runs first, on the existing and the incoming value under that
    name; the member under the name then is [merge(existing, incoming)]
    with the incoming value as the child walk left it, or that incoming
    value itself when the entry has no merge function.  (2) So at the end
    of a path that goes down child trees of entries without merge function,
    through objects and arrays, the value is [merge(existing, incoming)] of
    the values at the end of the same path.  (3) In
    [writeSelectionSetToStore] the existing field map is
    [store.get(dataId)] of the store before this entity's commit, and what
    is committed is the walked field map.  (4) Read on a heap, outside
    production, where [maybeDeepFreeze] runs before each merge function:
    the existing value of every call is, when the walk has returned, the
    tree that the function was called with, whatever the merge functions
    assign. *)
Theorem merge_overrides_walk :
  (forall existing c es name m child out,
      names_positions es c ->
      alookup name es = Some (m, child) ->
      walkWithMergeOverrides existing (Some c) (Overrides es) = inr out ->
      exists c' incomingValue,
        out = Some c'
        /\ same_kind c c'
        /\ match child with
           | Some below =>
               walkWithMergeOverrides (guardedProp existing name)
                 (getProp c name) below = inr incomingValue
           | None => incomingValue = getProp c name
           end
        /\ getProp c' name
           = match m with
             | Some f => Some (f (guardedProp existing name) incomingValue)
             | None => incomingValue
             end)
  /\ (forall existing f child o incoming path out,
         position f child o incoming path ->
         walkWithMergeOverrides existing incoming o = inr out ->
         exists incomingValue,
           match child with
           | Some below =>
               walkWithMergeOverrides (value_at existing path)
                 (value_at incoming path) below = inr incomingValue
           | None => incomingValue = value_at incoming path
           end
           /\ value_at out path
              = Some (f (value_at existing path) incomingValue))
  /\ (forall d st fields es fields',
         walkWithMergeOverrides (VObj <$> store_get (store st) d)
           (Some (VObj fields)) (Overrides es)
         = inr (Some (VObj fields')) ->
         commit_processed d (fields, Some (Overrides es)) st
         = Ok (store_merge (store st) d fields')
              (mkState (store_merge (store st) d fields') (written st)
                 (trace st ++ [EvMerge d fields'])))
  /\ (forall o existingObject incomingObject s s',
         Aliasing.walkWithMergeOverrides false o existingObject
           incomingObject s = inr s' ->
         exists new,
           Aliasing.calls s' = Aliasing.calls s ++ new
           /\ observed_unchanged (Aliasing.cells s') new).
Proof.
  split; [|split; [|split]].
  - intros existing c es name m child out. apply value_at_entry.
  - intros existing f child o incoming path out Hpos H.
    exact (value_at_position existing f child o incoming path Hpos
             existing out eq_refl H).
  - intros d st fields es fields'. apply commit_processed_overrides.
  - intros o existingObject incomingObject s s'.
    apply walkWithMergeOverrides_observed.
Qed.

(** Existing [numbers: [1, 2]], incoming [numbers: [3, 4]] and the
    concatenating merge function: the incoming value the walker leaves is
    [[1, 2, 3, 4]], computed from the existing list [[1, 2]]; and on the
    heap the existing list still reads [[1, 2]] after the walk. *)
Lemma merge_overrides_walk_witness :
  value_at
    (Some (VObj [("numbers", VArr [VNum 1; VNum 2; VNum 3; VNum 4])]))
    ["numbers"]
  = Some (Sample.concat (Some (VArr [VNum 1; VNum 2]))
            (Some (VArr [VNum 3; VNum 4])))
  /\ exists s',
      Aliasing.walkWithMergeOverrides false
        (Aliasing.HOverrides [("numbers", (Some Aliasing.concat_fresh, None))])
        (Some (Aliasing.HPtr 1)) (Some (Aliasing.HPtr 3))
        (Aliasing.mkHeapState Aliasing.numbers_heap [] [])
      = inr s'
      /\ Aliasing.reify 2 (Aliasing.cells s') (Aliasing.HPtr 3)
         = Some (VObj [("numbers", VArr [VNum 1; VNum 2; VNum 3; VNum 4])])
      /\ Aliasing.reify 1 (Aliasing.cells s') (Aliasing.HPtr 0)
         = Some (VArr [VNum 1; VNum 2]).
Proof.
  destruct merge_overrides_walk as (_ & Hpath & _ & Hheap).
  split.
  - assert (Hpos : position Sample.concat None
                     (Overrides [("numbers", (Some Sample.concat, None))])
                     (Some (VObj [("numbers", VArr [VNum 3; VNum 4])]))
                     ["numbers"]).
    { constructor; [|reflexivity].
      split; [reflexivity|]. split; [|discriminate].
      refine (bool_decide_unpack _ _). vm_compute. exact I. }
    destruct (Hpath (Some (VObj [("numbers", VArr [VNum 1; VNum 2])]))
                _ _ _ _ _
                (Some (VObj [("numbers",
                              VArr [VNum 1; VNum 2; VNum 3; VNum 4])]))
                Hpos eq_refl) as (incomingValue & -> & Hat).
    exact Hat.
  - destruct (Aliasing.walkWithMergeOverrides false
                (Aliasing.HOverrides
                   [("numbers", (Some Aliasing.concat_fresh, None))])
                (Some (Aliasing.HPtr 1)) (Some (Aliasing.HPtr 3))
                (Aliasing.mkHeapState Aliasing.numbers_heap [] []))
      as [e|s'] eqn:Hrun; [vm_compute in Hrun; discriminate Hrun|].
    destruct (Hheap _ _ _ _ _ Hrun) as (new & Hnew & Hobserved).
    vm_compute in Hrun. injection Hrun as <-.
    simpl in Hnew. subst new.
    eexists. split; [reflexivity|]. split; [reflexivity|].
    apply (Hobserved (Aliasing.HPtr 0) Aliasing.numbers_heap 1%nat);
      [left|simpl; lia|reflexivity].
Defined.

(** C6 as stated fails under the production profile, where
    [maybeDeepFreeze] is not called: a merge function that pushes the
    incoming members onto the existing array is not stopped, and the
    existing array, [[1, 2]] before the walk, is [[1, 2, 3, 4]] after it.
    Outside production the same walk throws a TypeError at the assignment
    to the frozen array. *)
Lemma existing_mutated_counterexample :
  Aliasing.reify 1 Aliasing.numbers_heap (Aliasing.HPtr 0)
  = Some (VArr [VNum 1; VNum 2])
  /\ (exists s',
        Aliasing.walkWithMergeOverrides true
          (Aliasing.HOverrides
             [("numbers", (Some Aliasing.push_onto_existing, None))])
          (Some (Aliasing.HPtr 1)) (Some (Aliasing.HPtr 3))
          (Aliasing.mkHeapState Aliasing.numbers_heap [] [])
        = inr s'
        /\ Aliasing.reify 1 (Aliasing.cells s') (Aliasing.HPtr 0)
           = Some (VArr [VNum 1; VNum 2; VNum 3; VNum 4]))
  /\ Aliasing.walkWithMergeOverrides false
       (Aliasing.HOverrides
          [("numbers", (Some Aliasing.push_onto_existing, None))])
       (Some (Aliasing.HPtr 1)) (Some (Aliasing.HPtr 3))
       (Aliasing.mkHeapState Aliasing.numbers_heap [] [])
     = inl TypeError.
Proof.
  split; [reflexivity|]. split; [|reflexivity].
  eexists. split; [vm_compute; reflexivity|reflexivity].
Qed.



(** Under the production profile the leaf is stored as it is: the stored
    value is the caller's pointer, and it reads what the caller writes. *)
Example production_leaf_is_shared :
  Aliasing.processFieldValue_leaf true 2 Scenario.caller_heap
    (Aliasing.HPtr 1) Scenario.data_field
  = Some (Some (Aliasing.HPtr 1, Scenario.caller_heap))
  /\ Aliasing.reify 2 Scenario.overwritten_heap (Aliasing.HPtr 1)
     = Some (VArr []).
Proof. split; reflexivity. Qed.

(** * Further properties of the writer *)

(** ** Selections left out by a directive *)

(** X1 ([processSelectionSet], lines 193-196).
    A selection that [shouldInclude] rejects is skipped, whatever its kind:
    the turn of the loop returns the field map and the overrides it was
    given and leaves the state as it is, and the selection set is processed
    as if the selection were not there. *)
Theorem excluded_selection_skipped policies utils production context
  n r typename mo id pre selection post st :
  shouldInclude utils selection (variables context) = false ->
  (forall pSS pFV acc st',
      processSelection policies utils context pSS pFV
        r typename acc selection st'
      = Ok acc st')
  /\ processSelectionSet policies utils production context (S n) r
       (mkSelectionSet id (pre ++ selection :: post)) mo typename st
     = processSelectionSet policies utils production context (S n) r
         (mkSelectionSet id (pre ++ post)) mo typename st.
Proof.
  intros Hexcl.
  assert (Hstep : forall pSS pFV acc st',
      processSelection policies utils context pSS pFV
        r typename acc selection st'
      = Ok acc st').
  { intros pSS pFV [mf o] st'. unfold processSelection.
    rewrite Hexcl. reflexivity. }
  split; [exact Hstep|].
  simpl. unfold processSelectionSet_body. simpl.
  rewrite !forEach_selection_app. unfold bind.
  destruct (forEach_selection _ _ _ _ _ _ _ pre _ st) as [acc st'|e st'];
    [|reflexivity].
  simpl. unfold bind at 1. now rewrite Hstep.
Qed.

(** [nick @skip(if: true)] is skipped although the cat has no [nick] and
    strict checking is on. *)
Lemma excluded_selection_skipped_witness :
  processSelectionSet (Sample.policies [] true) Sample.utils false
    Scenario.no_context 2 Scenario.cat
    (mkSelectionSet 6
       ([Sample.leaf "name"] ++ Field Scenario.skipped_field :: []))
    None (Some (VStr "Cat")) Scenario.empty_state
  = Ok ([("__typename", VStr "Cat"); ("name", VStr "Tom")], None)
      Scenario.empty_state.
Proof.
  rewrite (proj2 (excluded_selection_skipped (Sample.policies [] true)
                    Sample.utils false Scenario.no_context 1 Scenario.cat
                    (Some (VStr "Cat")) None 6 [Sample.leaf "name"]
                    (Field Scenario.skipped_field) []
                    Scenario.empty_state eq_refl)).
  vm_compute. reflexivity.
Defined.

(** ** What one field selection changes *)

Lemma alookup_mergeFields_single_ne fields k k' v :
  k' <> k -> alookup k' (mergeFields fields [(k, v)]) = alookup k' fields.
Proof.
  intros Hne. simpl. destruct (alookup k fields);
    now apply alookup_aset_ne.
Qed.

(** X2 ([processSelectionSet], lines 198-227).
    The turn of the loop for a field selection changes the field map and
    the overrides at most under the storage key of the field; when the
    field is included and present in the result, the field map has a value
    under that key afterwards. *)
Theorem field_selection_frame policies utils context pSS pFV
  r typename fields overrides f fields' overrides' st st' :
  processSelection policies utils context pSS pFV r typename
    (fields, overrides) (Field f) st
  = Ok (fields', overrides') st' ->
  (forall k,
      k <> getStoreFieldName policies typename f (variables context) ->
      alookup k fields' = alookup k fields
      /\ alookup k (from_option entries [] overrides')
         = alookup k (from_option entries [] overrides))
  /\ (shouldInclude utils (Field f) (variables context) = true ->
      is_Some (getProp r (resultKeyNameFromField f)) ->
      is_Some
        (alookup (getStoreFieldName policies typename f (variables context))
           fields')).
Proof.
  unfold processSelection. intros H.
  destruct (shouldInclude utils (Field f) (variables context)); simpl in H.
  2: { inversion H; subst. split; [intros; split; reflexivity|].
       intros Hf. discriminate Hf. }
  destruct (is_null r); [discriminate H|].
  destruct (getProp r (resultKeyNameFromField f)) as [v|].
  - destruct (is_host v); [discriminate H|].
    apply bind_inv_Ok in H as (p & s1 & _ & Hret).
    set (k0 := getStoreFieldName policies typename f (variables context))
      in *.
    assert (Ef : fields' = mergeFields fields [(k0, fst p)])
      by (inversion Hret; reflexivity).
    assert (Eo : overrides'
                 = if defined (getFieldMergeFunction policies typename f
                                 (variables context))
                      || defined (snd p)
                   then
                     Some
                       (Overrides
                          (aset k0
                             (mergeEntry
                                (alookup k0 (from_option entries [] overrides))
                                (getFieldMergeFunction policies typename f
                                   (variables context), snd p))
                             (from_option entries [] overrides)))
                   else overrides)
      by (inversion Hret; reflexivity).
    clear Hret. subst fields' overrides'. split.
    + intros k Hk. split; [now apply alookup_mergeFields_single_ne|].
      destruct (defined _ || defined _); [|reflexivity].
      simpl. now apply alookup_aset_ne.
    + intros _ _. rewrite alookup_mergeFields_single.
      eexists. reflexivity.
  - assert (Hsame : fields' = fields /\ overrides' = overrides).
    { destruct (_ && _).
      - apply bind_inv_Ok in H as (u & s1 & _ & Hret).
        inversion Hret; subst. split; reflexivity.
      - inversion H; subst. split; reflexivity. }
    destruct Hsame as [-> ->].
    split; [intros; split; reflexivity|].
    intros _ [x Hx]. discriminate Hx.
Qed.

(** The turn for [name] on the cat leaves [__typename] as it was and stores
    [name]. *)
Lemma field_selection_frame_witness :
  alookup "__typename"
    [("__typename", VStr "Cat"); ("name", VStr "Tom")]
  = alookup "__typename" [("__typename", VStr "Cat")]
  /\ is_Some
       (alookup "name" [("__typename", VStr "Cat"); ("name", VStr "Tom")]).
Proof.
  destruct (field_selection_frame (Sample.policies [] true) Sample.utils
              Scenario.no_context
              (processSelectionSet (Sample.policies [] true) Sample.utils
                 false Scenario.no_context 1)
              (processFieldValue (Sample.policies [] true) Sample.utils
                 false Scenario.no_context 1)
              Scenario.cat (Some (VStr "Cat")) [("__typename", VStr "Cat")]
              None (mkField None "name" [] [] None)
              [("__typename", VStr "Cat"); ("name", VStr "Tom")] None
              Scenario.empty_state Scenario.empty_state eq_refl)
    as [Hframe Hstored].
  split.
  - apply (Hframe "__typename"). vm_compute. discriminate.
  - apply Hstored; [reflexivity|]. eexists. reflexivity.
Defined.

(** ** An entity met again *)

(** X3 ([processFieldValue], lines 315-332, and the dedup check of
    [writeSelectionSetToStore], lines 134-136).
    An object whose entity key and selection set are already in the dedup
    table is not written again: [processFieldValue] returns the Reference
    and leaves the state as it is, whatever fields the object has.  So of
    two objects with the same entity key met under the same field in one
    write, only the first is written. *)
Theorem entity_met_again policies utils production context
  n fields field selectionSet dataId st :
  field_selectionSet field = Some selectionSet ->
  identify policies (VObj fields) selectionSet (fragmentMap context)
  = Some dataId ->
  (already_written st dataId selectionSet = true ->
   processFieldValue policies utils production context (S n)
     (VObj fields) field st
   = Ok (VRef dataId, None) st)
  /\ (forall m first r st1,
         identify policies (VObj first) selectionSet (fragmentMap context)
         = Some dataId ->
         processFieldValue policies utils production context (S m)
           (VObj first) field st = Ok r st1 ->
         processFieldValue policies utils production context (S n)
           (VObj fields) field st1
         = Ok (VRef dataId, None) st1).
Proof.
  intros Hss Hid.
  assert (Hagain : forall s,
    already_written s dataId selectionSet = true ->
    processFieldValue policies utils production context (S n)
      (VObj fields) field s
    = Ok (VRef dataId, None) s).
  { intros s Hw.
    rewrite (proj1 (processFieldValue_on_object policies utils production
                      context n fields field selectionSet s Hss) dataId Hid).
    unfold bind. now rewrite writeSelectionSetToStore_skips. }
  split; [apply Hagain|].
  intros m first r st1 Hid1 Hfirst. apply Hagain.
  rewrite (proj1 (processFieldValue_on_object policies utils production
                    context m first field selectionSet st Hss) dataId Hid1)
    in Hfirst.
  apply bind_inv_Ok in Hfirst as (c & s & Hwrite & Hret).
  inversion Hret; subst.
  apply already_written_true.
  pose proof (writeSelectionSetToStore_marks policies utils production context
                m dataId (VObj first) selectionSet st) as Hmark.
  now rewrite Hwrite in Hmark.
Qed.

(** The pet of the scenario met again with [kind: "dog"] after it was
    written: the Reference, and the state as it was. *)
Lemma entity_met_again_witness :
  processFieldValue (Sample.policies [] true) Sample.utils false
    Scenario.no_context 1 Cases.pet_again Scenario.pet_field
    Scenario.after_pet
  = Ok (VRef "Pet:9", None) Scenario.after_pet.
Proof.
  apply (proj1 (entity_met_again (Sample.policies [] true) Sample.utils false
                  Scenario.no_context 0
                  [("__typename", VStr "Pet"); ("id", VStr "9");
                   ("kind", VStr "dog")]
                  Scenario.pet_field Scenario.pet_selection "Pet:9"
                  Scenario.after_pet eq_refl eq_refl)).
  vm_compute. reflexivity.
Defined.

(** ** Arrays *)

Lemma map_items_shape pFV f items :
  forall i st r st',
    map_items pFV f items i st = Ok r st' ->
    length (fst r) = length items
    /\ Forall (element_override i (length items)) (snd r).
Proof.
  induction items as [|item rest IH]; intros i st r st' H; simpl in H.
  - inversion H; subst. split; [reflexivity|constructor].
  - apply bind_inv_Ok in H as (p & s1 & _ & H).
    apply bind_inv_Ok in H as (tl & s2 & Htl & H).
    destruct (IH _ _ _ _ Htl) as [Hlen Hall].
    assert (Hshift : Forall (element_override i (length (item :: rest)))
                       (snd tl)).
    { eapply Forall_impl; [exact Hall|].
      intros e (j & c & Hj & ->). exists j, c. simpl. split; [lia|reflexivity]. }
    inversion H; subst. simpl. split; [now rewrite Hlen|].
    destruct (snd p) as [mo|]; [|exact Hshift].
    constructor; [|exact Hshift].
    exists i, mo. split; [lia|reflexivity].
Qed.

(** X4 ([processFieldValue], lines 301-313).
    An array under a field with a selection set is mapped element by
    element: the result is an array of the same length, and the overrides,
    if any, are not empty and have one entry per element that reported
    overrides, under the index of the element, with a child tree and no
    merge function.  The empty array gives the empty array, no overrides,
    and no change of state. *)
Theorem array_field_value policies utils production context
  n items field selectionSet :
  field_selectionSet field = Some selectionSet ->
  (forall st r overrides st',
      processFieldValue policies utils production context (S n)
        (VArr items) field st
      = Ok (r, overrides) st' ->
      exists items',
        r = VArr items'
        /\ length items' = length items
        /\ match overrides with
           | Some o =>
               entries o <> []
               /\ Forall (element_override 0 (length items)) (entries o)
           | None => True
           end)
  /\ (forall st,
         processFieldValue policies utils production context (S n)
           (VArr []) field st
         = Ok (VArr [], None) st).
Proof.
  intros Hss. split.
  - intros st r overrides st' H. simpl in H.
    unfold processFieldValue_body in H. rewrite Hss in H.
    apply bind_inv_Ok in H as (mapped & s1 & Hmap & Hret).
    destruct (map_items_shape _ _ _ _ _ _ _ Hmap) as [Hlen Hall].
    inversion Hret; subst. exists (fst mapped).
    split; [reflexivity|]. split; [exact Hlen|].
    destruct (snd mapped) as [|e es]; [exact I|].
    split; [discriminate|exact Hall].
  - intros st. simpl. unfold processFieldValue_body. rewrite Hss.
    reflexivity.
Qed.

(** Two pets with the same entity key under [pets]: two References, and
    one entity written. *)
Lemma array_field_value_witness :
  exists st',
    processFieldValue (Sample.policies [] true) Sample.utils false
      Scenario.no_context 4 (VArr [Scenario.pet; Cases.pet_again])
      Cases.pets_field Scenario.empty_state
    = Ok (VArr [VRef "Pet:9"; VRef "Pet:9"], None) st'
    /\ length [VRef "Pet:9"; VRef "Pet:9"]
       = length [Scenario.pet; Cases.pet_again]
    /\ store_getFieldValue (store st') "Pet:9" "kind" = Some (VStr "cat").
Proof.
  destruct (processFieldValue (Sample.policies [] true) Sample.utils false
              Scenario.no_context 4 (VArr [Scenario.pet; Cases.pet_again])
              Cases.pets_field Scenario.empty_state)
    as [[r o] st'|e st'] eqn:Hrun; [|vm_compute in Hrun; discriminate Hrun].
  destruct (proj1 (array_field_value (Sample.policies [] true) Sample.utils
                     false Scenario.no_context 3
                     [Scenario.pet; Cases.pet_again] Cases.pets_field
                     Scenario.pet_selection eq_refl) _ _ _ _ Hrun)
    as (items' & Hr & Hlen & _).
  vm_compute in Hrun. injection Hrun as <- <- <-.
  eexists. split; [reflexivity|]. split; [reflexivity|].
  vm_compute. reflexivity.
Defined.

(** ** The walker at its edges *)

(** Writing back into an object or array the member it already has changes
    nothing. *)
Lemma setProp_same o name v :
  is_reference_type (guardedProp o name) = true ->
  guardedProp o name = Some v ->
  setProp o name v = inr (default VNull o).
Proof.
  intros Href Hget.
  destruct (is_reference_type o) eqn:Ho.
  2: { rewrite (guardedProp_atom _ _ Ho) in Href. discriminate Href. }
  rewrite Hget in Href.
  destruct o as [[| | | |l|fs| |]|]; try discriminate Ho;
    unfold guardedProp, js_and, getProp in Hget;
    cbn [otruthy truthy ownProp] in Hget.
  - destruct (String.eqb name "length").
    + inversion Hget; subst; discriminate Href.
    + destruct (alookup name (index_entries 0 l)) as [w|] eqn:Hown.
      * injection Hget as ->. simpl.
        rewrite (alookup_index_entries_app _ _ _ [VNull] _ Hown).
        now rewrite (aset_same _ _ _ Hown), index_entries_values.
      * destruct (inherited _ _); inversion Hget; subst; discriminate Href.
  - destruct (alookup name fs) as [w|] eqn:Hown.
    + injection Hget as ->. simpl. now rewrite (aset_same _ _ _ Hown).
    + destruct (inherited _ _); inversion Hget; subst; discriminate Href.
Qed.

Lemma merge_free_inert o :
  forall existing incoming,
    merge_free o = true ->
    walkWithMergeOverrides existing incoming o = inr incoming.
Proof.
  induction o as [es IH] using MergeOverrides_ind'.
  intros existing incoming Hfree. revert incoming.
  induction IH as [|[name [m child]] rest Hchild _ IHrest]; intros incoming.
  - reflexivity.
  - simpl in Hfree.
    apply andb_prop in Hfree as [Hhead Hrest].
    apply andb_prop in Hhead as [Hm Hc].
    destruct m as [f|]; [discriminate Hm|].
    rewrite walkWithMergeOverrides_cons.
    assert (Hwalked :
      walked_child existing incoming name child
      = inr (incoming, guardedProp incoming name)).
    { unfold walked_child. destruct child as [c|]; [|reflexivity].
      simpl in Hchild. rewrite (Hchild _ _ Hc).
      destruct (is_reference_type (guardedProp incoming name)) eqn:Href;
        [|reflexivity].
      destruct (guardedProp incoming name) as [v|] eqn:Hget;
        [|discriminate Href].
      change (default VNull (Some v)) with v.
      rewrite (setProp_same incoming name v); [|now rewrite Hget|exact Hget].
      destruct incoming as [o|]; [reflexivity|discriminate Hget]. }
    rewrite Hwalked. apply IHrest, Hrest.
Qed.

(** X5 ([walkWithMergeOverrides], lines 345-370).
    The walker at its edges.  Empty overrides change nothing.  A merge
    function at a position of an incoming object that is undefined or null
    makes the assignment throw a [TypeError].  On an incoming field map the
    walker returns a field map, and the positions the overrides do not name
    keep their values. *)
Theorem walker_edges existing :
  (forall incoming,
      walkWithMergeOverrides existing incoming (Overrides []) = inr incoming)
  /\ (forall name f rest,
         walkWithMergeOverrides existing None
           (Overrides ((name, (Some f, None)) :: rest)) = inl TypeError
         /\ walkWithMergeOverrides existing (Some VNull)
              (Overrides ((name, (Some f, None)) :: rest)) = inl TypeError)
  /\ (forall fields es out,
         walkWithMergeOverrides existing (Some (VObj fields)) (Overrides es)
         = inr out ->
         exists fields',
           out = Some (VObj fields')
           /\ forall k, k ∉ akeys es -> alookup k fields' = alookup k fields).
Proof.
  split; [reflexivity|]. split; [split; reflexivity|].
  intros fields es out H. exact (walkWithMergeOverrides_object _ _ _ _ H).
Qed.

(** X6 ([walkWithMergeOverrides], lines 345-370).
    Overrides without a merge function at any position change nothing and
    do not throw, whatever the incoming value is: only a merge function
    assigns. *)
Theorem merge_free_overrides_inert o existing incoming :
  merge_free o = true ->
  walkWithMergeOverrides existing incoming o = inr incoming.
Proof. apply merge_free_inert. Qed.

(** Child trees only, over an object that holds an array. *)
Lemma merge_free_overrides_inert_witness :
  walkWithMergeOverrides None
    (Some (VObj [("a", VArr [VObj [("x", VNum 1)]]); ("b", VNum 2)]))
    Cases.child_only
  = inr (Some (VObj [("a", VArr [VObj [("x", VNum 1)]]); ("b", VNum 2)])).
Proof.
  exact (merge_free_overrides_inert Cases.child_only None
           (Some (VObj [("a", VArr [VObj [("x", VNum 1)]]); ("b", VNum 2)]))
           eq_refl).
Defined.

(** ** What a write keeps in the store *)

Lemma alookup_mergeFields_keeps k source :
  forall target,
    is_Some (alookup k target) ->
    is_Some (alookup k (mergeFields target source)).
Proof.
  induction source as [|[k0 sv] rest IH]; intros target H; simpl;
    [exact H|].
  apply IH.
  destruct (alookup k0 target); rewrite alookup_aset;
    (destruct (String.eqb k k0); [eexists; reflexivity|exact H]).
Qed.

Lemma fields_persist_merge d f st :
  fields_persist st (final_state (store_merge_op d f st)).
Proof.
  intros d' k H. simpl.
  unfold store_getFieldValue, store_merge, store_get in *. simpl.
  destruct (decide (d = d')) as [->|Hne].
  - rewrite lookup_insert_eq.
    destruct (data (store st) !! d') as [existing|]; [|destruct H; discriminate].
    now apply alookup_mergeFields_keeps.
  - rewrite lookup_insert_ne by exact Hne. exact H.
Qed.

(** X7 ([writeSelectionSetToStore], lines 116-170).
    A write removes nothing: a field stored under an entity key before
    [writeSelectionSetToStore] is still stored under it afterwards, whether
    the write returns or throws. *)
Theorem stored_fields_persist policies utils production context
  fuel dataId result selectionSet st d k :
  is_Some (store_getFieldValue (store st) d k) ->
  is_Some
    (store_getFieldValue
       (store
          (final_state
             (writeSelectionSetToStore policies utils production context
                fuel dataId result selectionSet st))) d k).
Proof.
  revert d k.
  change (fields_persist st
            (final_state
               (writeSelectionSetToStore policies utils production context
                  fuel dataId result selectionSet st))).
  apply (writeSelectionSetToStore_preserves fields_persist).
  - intros s d k H. exact H.
  - intros a b c Hab Hbc d k H. apply Hbc, Hab, H.
  - intros d ss s d' k H. exact H.
  - apply fields_persist_merge.
  - intros k r s d' k' H. exact H.
Qed.

(** Writing [{ kind: "dog" }] over the stored pet keeps its [id]. *)
Lemma stored_fields_persist_witness :
  is_Some
    (store_getFieldValue
       (store
          (final_state
             (writeSelectionSetToStore (Sample.policies [] true) Sample.utils
                false Scenario.no_context 3 "Pet:9"
                (VObj [("kind", VStr "dog")])
                (mkSelectionSet 7 [Sample.leaf "kind"]) Scenario.after_pet)))
       "Pet:9" "id").
Proof.
  apply stored_fields_persist. vm_compute. eexists. reflexivity.
Defined.

(** ** Objects: entities and embedded objects, in the store and in the
    parent *)







(** ** The keys of a field map *)

Lemma akeys_aset {V : Type} (k k' : string) (v : V) l :
  k ∈ akeys (aset k' v l) -> k = k' \/ k ∈ akeys l.
Proof.
  induction l as [|[k0 v0] l IH]; simpl.
  - intros H. apply list_elem_of_singleton in H. now left.
  - destruct (String.eqb k' k0) eqn:E; simpl; intros H.
    + apply String.eqb_eq in E. subst k0. now right.
    + apply elem_of_cons in H as [->|H]; [right; left|].
      destruct (IH H) as [->|Hin]; [now left|right; now right].
Qed.

Lemma akeys_mergeFields k source :
  forall target,
    k ∈ akeys (mergeFields target source) ->
    k ∈ akeys target \/ k ∈ akeys source.
Proof.
  induction source as [|[k0 sv] rest IH]; intros target H; simpl in *;
    [now left|].
  destruct (IH _ H) as [Ht|Hr]; [|right; now right].
  assert (Hk : k = k0 \/ k ∈ akeys target).
  { destruct (alookup k0 target); now apply akeys_aset in Ht. }
  destruct Hk as [->|Hk]; [right; left|now left].
Qed.

Section SelectedKeys.
Variable policies : Policies.
Variable utils : Utilities.
Variable production : bool.
Variable context : WriteContext.
Variable typename : option StoreValue.

Lemma forEach_selection_keys n pSS pFV r (allowed : string -> Prop) sels :
  (forall ss mo st p st' k,
      (forall k0,
          selected_key policies context typename n (selections ss) k0 ->
          allowed k0) ->
      pSS r ss mo typename st = Ok p st' ->
      k ∈ akeys (fst p) -> allowed k) ->
  forall acc st p st',
    (forall k, k ∈ akeys (fst acc) -> allowed k) ->
    (forall k, selected_key policies context typename (S n) sels k ->
               allowed k) ->
    forEach_selection policies utils context pSS pFV r typename
      sels acc st = Ok p st' ->
    forall k, k ∈ akeys (fst p) -> allowed k.
Proof.
  intros HpSS. induction sels as [|sel rest IH];
    intros acc st p st' Hacc Hsel H.
  - simpl in H. inversion H; subst. exact Hacc.
  - cbn [forEach_selection] in H.
    apply bind_inv_Ok in H as (acc1 & st1 & Hstep & H).
    assert (Hhead : forall f,
      f ∈ match sel with
          | Field f0 => [f0]
          | _ =>
              match getFragmentFromSelection sel (fragmentMap context) with
              | Some fragment =>
                  selected_fields (fragmentMap context) n
                    (selections (fragment_selectionSet fragment))
              | None => []
              end
          end ->
      allowed (getStoreFieldName policies typename f (variables context))).
    { intros f Hf. apply Hsel. right. exists f. split; [|reflexivity].
      simpl. apply elem_of_app. now left. }
    assert (Htyped : forall k,
      k = "__typename" /\ (exists t, typename = Some (VStr t)) -> allowed k).
    { intros k Hk. apply Hsel. now left. }
    apply (IH acc1 st1 p st'); [| |exact H].
    2: { intros k [Hk|(f & Hf & ->)]; apply Hsel; [now left|].
         right. exists f. split; [|reflexivity].
         simpl. apply elem_of_app. now right. }
    clear H IH. unfold processSelection in Hstep.
    destruct acc as [mf mo]. destruct acc1 as [mf1 mo1]. simpl in Hacc.
    simpl.
    destruct (negb _); [inversion Hstep; subst; exact Hacc|].
    destruct sel as [f|name ds|tc ds ss].
    + destruct (is_null r); [discriminate Hstep|].
      destruct (getProp r (resultKeyNameFromField f)) as [v|].
      * destruct (is_host v); [discriminate Hstep|].
        apply bind_inv_Ok in Hstep as (pv & s1 & _ & Hret).
        assert (E : mf1
                    = mergeFields mf
                        [(getStoreFieldName policies typename f
                            (variables context), fst pv)])
          by (inversion Hret; reflexivity).
        subst mf1. intros k Hk.
        apply akeys_mergeFields in Hk as [Hk|Hk]; [now apply Hacc|].
        simpl in Hk. apply list_elem_of_singleton in Hk. subst k.
        apply Hhead. left.
      * destruct (_ && _).
        -- apply bind_inv_Ok in Hstep as (u & s1 & _ & Hret).
           inversion Hret; subst. exact Hacc.
        -- inversion Hstep; subst. exact Hacc.
    + destruct (getFragmentFromSelection _ _) as [fr|] eqn:Hfr;
        [|discriminate].
      destruct (fragmentMatches _ _ _); [|inversion Hstep; subst; exact Hacc].
      apply bind_inv_Ok in Hstep as (pp & s1 & Hrec & Hret).
      assert (E : mf1 = mergeFields mf (fst pp))
        by (inversion Hret; reflexivity).
      subst mf1. intros k Hk.
      apply akeys_mergeFields in Hk as [Hk|Hk]; [now apply Hacc|].
      apply (HpSS _ _ _ _ _ k) with (2 := Hrec); [|exact Hk].
      intros k0 [Hk0|(f & Hf & ->)]; [now apply Htyped|now apply Hhead].
    + destruct (getFragmentFromSelection _ _) as [fr|] eqn:Hfr;
        [|discriminate].
      destruct (fragmentMatches _ _ _); [|inversion Hstep; subst; exact Hacc].
      apply bind_inv_Ok in Hstep as (pp & s1 & Hrec & Hret).
      assert (E : mf1 = mergeFields mf (fst pp))
        by (inversion Hret; reflexivity).
      subst mf1. intros k Hk.
      apply akeys_mergeFields in Hk as [Hk|Hk]; [now apply Hacc|].
      apply (HpSS _ _ _ _ _ k) with (2 := Hrec); [|exact Hk].
      intros k0 [Hk0|(f & Hf & ->)]; [now apply Htyped|now apply Hhead].
Qed.

Lemma processSelectionSet_keys fuel :
  forall r ss mo st p st' (allowed : string -> Prop) k,
    (forall k0,
        selected_key policies context typename fuel (selections ss) k0 ->
        allowed k0) ->
    processSelectionSet policies utils production context fuel r ss mo
      typename st = Ok p st' ->
    k ∈ akeys (fst p) -> allowed k.
Proof.
  induction fuel as [|n IH]; intros r ss mo st p st' allowed k Hall H.
  - discriminate H.
  - simpl in H. unfold processSelectionSet_body in H.
    eapply (forEach_selection_keys n) with (4 := H); [| |exact Hall].
    + intros ss0 mo0 st0 p0 st0' k0 Hall0 H0. eapply IH; eassumption.
    + simpl. intros k0 Hk0. apply Hall. left.
      destruct typename as [[| | |t| | | |]|]; simpl in Hk0;
        try (apply elem_of_nil in Hk0; contradiction).
      apply list_elem_of_singleton in Hk0. split; [exact Hk0|eauto].
Qed.
End SelectedKeys.

(** X8 ([processSelectionSet], lines 172-282).
    The field map [processSelectionSet] returns has no key but
    [__typename] (and that only when the type name is a string) and the
    storage keys of the field selections it can reach: what the result
    object holds beyond the selection set is not stored. *)
Theorem field_map_keys_selected policies utils production context
  fuel r ss mo typename st fields mo' st' k :
  processSelectionSet policies utils production context fuel r ss mo
    typename st = Ok (fields, mo') st' ->
  k ∈ akeys fields ->
  selected_key policies context typename fuel (selections ss) k.
Proof.
  intros H Hk.
  eapply (processSelectionSet_keys policies utils production context typename
            fuel r ss mo st (fields, mo') st'
            (selected_key policies context typename fuel (selections ss)));
    [auto|exact H|exact Hk].
Qed.

(** The person queried for [name] only: [pet] and [id] of the result are
    not in the field map. *)
Lemma field_map_keys_selected_witness :
  selected_key (Sample.policies [] true) Scenario.no_context
    (Some (VStr "Person")) 2 [Sample.leaf "name"] "name"
  /\ processSelectionSet (Sample.policies [] true) Sample.utils false
       Scenario.no_context 2 Scenario.person
       (mkSelectionSet 5 [Sample.leaf "name"]) None (Some (VStr "Person"))
       Scenario.empty_state
     = Ok ([("__typename", VStr "Person"); ("name", VStr "A")], None)
         Scenario.empty_state.
Proof.
  assert (Hrun :
    processSelectionSet (Sample.policies [] true) Sample.utils false
      Scenario.no_context 2 Scenario.person
      (mkSelectionSet 5 [Sample.leaf "name"]) None (Some (VStr "Person"))
      Scenario.empty_state
    = Ok ([("__typename", VStr "Person"); ("name", VStr "A")], None)
        Scenario.empty_state) by (vm_compute; reflexivity).
  split; [|exact Hrun].
  apply (field_map_keys_selected _ _ _ _ _ _ _ _ _ _ _ _ _ "name" Hrun).
  right. left.
Defined.

(** ** Relations indexed by the entity keys a step may visit

    [R K a b] relates the state before and after a step that visits only
    the entity keys in [K].  When [R] holds across each primitive operation
    (a [sets.push] that follows the dedup check, a [store.merge] of the key
    it names, a warning), a write under [dataId] satisfies [R] for [dataId]
    and the keys [identify] can answer. *)
Section Visited.
Variable policies : Policies.
Variable utils : Utilities.
Variable production : bool.
Variable context : WriteContext.
Variable R : (string -> Prop) -> WriteState -> WriteState -> Prop.
Variable Ident : string -> Prop.
Hypothesis R_refl : forall K st, R K st st.
Hypothesis R_trans : forall K a b c, R K a b -> R K b c -> R K a c.
Hypothesis R_mono :
  forall (K K' : string -> Prop) a b,
    (forall x, K x -> K' x) -> R K a b -> R K' a b.
Hypothesis R_push :
  forall K d ss st,
    already_written st d ss = false ->
    R K st (final_state (sets_push d ss st)).
Hypothesis R_merge :
  forall d f st, R (eq d) st (final_state (store_merge_op d f st)).
Hypothesis R_warn :
  forall K k r st, R K st (final_state (invariant_warn k r st)).
Hypothesis identify_Ident :
  forall v ss x,
    identify policies v ss (fragmentMap context) = Some x -> Ident x.

Lemma commit_processed_visits d p :
  preserves (R (eq d)) (commit_processed d p).
Proof.
  unfold commit_processed.
  apply preserves_bind; [apply R_trans|apply preserves_get_state, R_refl|].
  intros st2. apply preserves_bind; [apply R_trans| |].
  - destruct (snd p); [|apply preserves_ret, R_refl].
    destruct (walkWithMergeOverrides _ _ _) as [e|[[]|]];
      first [apply preserves_ret, R_refl|apply preserves_throw, R_refl].
  - intros inc. apply preserves_bind; [apply R_trans|intros st; apply R_merge|].
    intros _. apply preserves_bind;
      [apply R_trans|apply preserves_get_state, R_refl|].
    intros st3. apply preserves_ret, R_refl.
Qed.

Section VisitedBodies.
Variable pSS :
  StoreValue -> SelectionSetNode -> option MergeOverrides ->
  option StoreValue -> M (Processed StoreObject).
Variable pFV : StoreValue -> FieldNode -> M (Processed StoreValue).
Hypothesis pSS_visits : forall r ss mo tn, preserves (R Ident) (pSS r ss mo tn).
Hypothesis pFV_visits : forall v f, preserves (R Ident) (pFV v f).

Lemma processSelection_visits r tn acc sel :
  preserves (R Ident)
    (processSelection policies utils context pSS pFV r tn acc sel).
Proof.
  unfold processSelection. destruct acc as [mf mo].
  destruct (negb _); [apply preserves_ret, R_refl|].
  destruct sel as [f|n ds|tc ds ss].
  - destruct (is_null r); [apply preserves_throw, R_refl|].
    destruct (getProp r (resultKeyNameFromField f)) as [v|].
    + destruct (is_host v); [apply preserves_throw, R_refl|].
      apply preserves_bind; [apply R_trans|apply pFV_visits|].
      intros a. apply preserves_ret, R_refl.
    + destruct (_ && _); [|apply preserves_ret, R_refl].
      apply preserves_bind; [apply R_trans|intros st; apply R_warn|].
      intros a. apply preserves_ret, R_refl.
  - destruct (getFragmentFromSelection _ _); [|apply preserves_throw, R_refl].
    destruct (fragmentMatches _ _ _); [|apply preserves_ret, R_refl].
    apply preserves_bind; [apply R_trans|apply pSS_visits|].
    intros a. apply preserves_ret, R_refl.
  - destruct (getFragmentFromSelection _ _); [|apply preserves_throw, R_refl].
    destruct (fragmentMatches _ _ _); [|apply preserves_ret, R_refl].
    apply preserves_bind; [apply R_trans|apply pSS_visits|].
    intros a. apply preserves_ret, R_refl.
Qed.

Lemma forEach_selection_visits r tn sels acc :
  preserves (R Ident)
    (forEach_selection policies utils context pSS pFV r tn sels acc).
Proof.
  revert acc. induction sels as [|sel rest IH]; intros acc; simpl.
  - apply preserves_ret, R_refl.
  - apply preserves_bind;
      [apply R_trans|apply processSelection_visits|apply IH].
Qed.

Lemma map_items_visits f items i :
  preserves (R Ident) (map_items pFV f items i).
Proof.
  revert i. induction items as [|item rest IH]; intros i; simpl.
  - apply preserves_ret, R_refl.
  - apply preserves_bind; [apply R_trans|apply pFV_visits|]. intros a.
    apply preserves_bind; [apply R_trans|apply IH|]. intros b.
    apply preserves_ret, R_refl.
Qed.

Lemma writeSelectionSetToStore_body_visits d r ss :
  preserves (R (fun x => x = d \/ Ident x))
    (writeSelectionSetToStore_body policies utils context pSS d r ss).
Proof.
  intros st. unfold writeSelectionSetToStore_body.
  destruct (already_written st d ss) eqn:Hw; [apply R_refl|].
  unfold bind at 1. simpl.
  eapply R_trans; [exact (R_push _ d ss st Hw)|]. simpl.
  match goal with |- R _ ?s _ => generalize s end.
  apply preserves_bind; [apply R_trans|apply preserves_get_state, R_refl|].
  intros st1. apply preserves_bind; [apply R_trans| |].
  - intros s. eapply R_mono; [|apply pSS_visits]. intros x Hx. now right.
  - intros p s. eapply R_mono; [|apply commit_processed_visits].
    intros x <-. now left.
Qed.

Lemma processFieldValue_body_visits wSS v f :
  (forall d r ss,
      preserves (R (fun x => x = d \/ Ident x)) (wSS d r ss)) ->
  preserves (R Ident)
    (processFieldValue_body policies utils production context pSS pFV
       wSS v f).
Proof.
  intros HwSS. unfold processFieldValue_body.
  destruct (field_selectionSet f) as [ss|]; [|apply preserves_ret, R_refl].
  assert (Hobj : preserves (R Ident)
    (match
       (if truthy v then identify policies v ss (fragmentMap context)
        else None)
     with
     | Some dataId =>
         let* _ := wSS dataId v ss in ret (makeReference dataId, None)
     | None =>
         let* processed :=
           pSS v ss None
             (getTypenameFromResult utils v ss (fragmentMap context)) in
         ret (VObj (fst processed), snd processed)
     end)).
  { destruct (if truthy v then _ else _) as [dataId|] eqn:Hid.
    - assert (Hident : Ident dataId).
      { destruct (truthy v); [|discriminate Hid].
        eapply identify_Ident, Hid. }
      apply preserves_bind; [apply R_trans| |].
      + intros s. eapply R_mono; [|apply HwSS].
        intros x [->|Hx]; assumption.
      + intros. apply preserves_ret, R_refl.
    - apply preserves_bind; [apply R_trans|apply pSS_visits|]. intros.
      apply preserves_ret, R_refl. }
  destruct v; try exact Hobj; [apply preserves_ret, R_refl|].
  apply preserves_bind; [apply R_trans|apply map_items_visits|].
  intros. apply preserves_ret, R_refl.
Qed.
End VisitedBodies.

Lemma process_visits fuel :
  (forall r ss mo tn,
      preserves (R Ident)
        (processSelectionSet policies utils production context fuel
           r ss mo tn))
  /\ (forall v f,
         preserves (R Ident)
           (processFieldValue policies utils production context fuel v f)).
Proof.
  induction fuel as [|n [IHs IHf]]; simpl.
  - split; intros; apply preserves_throw, R_refl.
  - split; intros.
    + apply forEach_selection_visits; assumption.
    + apply processFieldValue_body_visits; try assumption.
      intros. apply writeSelectionSetToStore_body_visits; assumption.
Qed.

Lemma writeSelectionSetToStore_visits fuel d r ss :
  preserves (R (fun x => x = d \/ Ident x))
    (writeSelectionSetToStore policies utils production context fuel d r ss).
Proof.
  apply writeSelectionSetToStore_body_visits. apply process_visits.
Qed.
End Visited.

(** ** The entities a write changes *)

(** X9 ([writeSelectionSetToStore], lines 116-170, and
    [processFieldValue], lines 315-332).
    A write changes no entity but the one it is given and those [identify]
    names: an entity key that is neither the target of
    [writeSelectionSetToStore] nor a possible answer of [identify] has the
    same stored field map after the write, whether it returns or throws. *)
Theorem only_visited_entities_change policies utils production context
  fuel dataId result selectionSet st d :
  d <> dataId ->
  (forall v ss, identify policies v ss (fragmentMap context) <> Some d) ->
  store_get
    (store
       (final_state
          (writeSelectionSetToStore policies utils production context
             fuel dataId result selectionSet st))) d
  = store_get (store st) d.
Proof.
  intros Hne Hnot.
  apply (writeSelectionSetToStore_visits policies utils production context
           untouched_outside (identified policies context)).
  - intros K s x _. reflexivity.
  - intros K a b c Hab Hbc x Hx. now rewrite (Hbc x Hx), (Hab x Hx).
  - intros K K' a b Hsub Hab x Hx. apply Hab. intros HK. apply Hx, Hsub, HK.
  - intros K d0 ss s _ x _. reflexivity.
  - intros d0 f s x Hx. simpl. unfold store_merge, store_get. simpl.
    apply lookup_insert_ne. intros ->. now apply Hx.
  - intros K k r s x _. reflexivity.
  - intros v ss x Hx. exists v, ss. exact Hx.
  - intros [->|(v & ss & Hx)]; [now apply Hne|]. exact (Hnot v ss Hx).
Qed.

(** The keys of the sample [identify] have a colon. *)
Lemma sample_key_has_colon t i :
  existsb (Ascii.eqb (Ascii.ascii_of_nat 58))
    (String.list_ascii_of_string (String.append t (String.append ":" i)))
  = true.
Proof.
  induction t as [|c t IH]; simpl; [reflexivity|].
  rewrite IH. apply orb_true_r.
Qed.

(** Writing the person and its pet leaves a stored [Thing] alone. *)
Lemma only_visited_entities_change_witness :
  store_get
    (store
       (final_state
          (writeSelectionSetToStore (Sample.policies [] true) Sample.utils
             false Scenario.no_context 5 "ROOT_QUERY" Scenario.person
             Scenario.person_selection
             (mkState (mkCache {["Thing" := [("n", VNum 1)]]} ∅) ∅ []))))
    "Thing"
  = Some [("n", VNum 1)].
Proof.
  rewrite (only_visited_entities_change (Sample.policies [] true) Sample.utils
             false Scenario.no_context 5 "ROOT_QUERY" Scenario.person
             Scenario.person_selection
             (mkState (mkCache {["Thing" := [("n", VNum 1)]]} ∅) ∅ [])
             "Thing").
  - reflexivity.
  - discriminate.
  - intros v ss. simpl. unfold Sample.identify.
    destruct (ownProp v "__typename") as [[| | |t| | | |]|]; try discriminate.
    destruct (ownProp v "id") as [[| | |i| | | |]|]; try discriminate.
    intros H. injection H as H.
    pose proof (sample_key_has_colon t i) as Hcolon.
    rewrite H in Hcolon. discriminate Hcolon.
Defined.

(** ** The dedup table holds no selection set twice *)

Lemma no_duplicates_push d ss st :
  already_written st d ss = false ->
  no_duplicates st -> no_duplicates (final_state (sets_push d ss st)).
Proof.
  intros Hw Hnd d'. simpl.
  destruct (decide (d = d')) as [->|Hne].
  - rewrite lookup_insert_eq. simpl.
    apply NoDup_app. split; [apply Hnd|].
    split; [|apply NoDup_singleton].
    intros n Hn Hn'. apply list_elem_of_singleton in Hn'. subst n.
    unfold already_written in Hw. apply bool_decide_eq_false in Hw.
    contradiction.
  - rewrite lookup_insert_ne by exact Hne. apply Hnd.
Qed.

(** X10 ([writeSelectionSetToStore], lines 134-136).
    Because [sets.push] follows the [indexOf] check, a dedup table in which
    no selection set is recorded twice under an entity key stays so through
    [writeSelectionSetToStore], whether it returns or throws: each pair
    (entity key, selection set) is entered at most once in one write. *)
Theorem dedup_table_has_no_duplicates policies utils production context
  fuel dataId result selectionSet st :
  no_duplicates st ->
  no_duplicates
    (final_state
       (writeSelectionSetToStore policies utils production context
          fuel dataId result selectionSet st)).
Proof.
  apply (writeSelectionSetToStore_visits policies utils production context
           (fun _ a b => no_duplicates a -> no_duplicates b)
           (fun _ => True)).
  - intros K s H. exact H.
  - intros K a b c Hab Hbc H. apply Hbc, Hab, H.
  - intros K K' a b _ Hab. exact Hab.
  - intros K d ss s Hw. now apply no_duplicates_push.
  - intros d f s H. exact H.
  - intros K k r s H. exact H.
  - intros. exact I.
Qed.

(** The two pets with one entity key: [Pet:9] is in the table once. *)
Lemma dedup_table_has_no_duplicates_witness :
  no_duplicates
    (final_state
       (writeSelectionSetToStore (Sample.policies [] true) Sample.utils false
          Scenario.no_context 5 "ROOT_QUERY"
          (VObj [("pets", VArr [Scenario.pet; Cases.pet_again])])
          (mkSelectionSet 3 [Field Cases.pets_field]) Scenario.empty_state))
  /\ written
       (final_state
          (writeSelectionSetToStore (Sample.policies [] true) Sample.utils
             false Scenario.no_context 5 "ROOT_QUERY"
             (VObj [("pets", VArr [Scenario.pet; Cases.pet_again])])
             (mkSelectionSet 3 [Field Cases.pets_field])
             Scenario.empty_state)) !! "Pet:9"
     = Some [1%nat].
Proof.
  split; [|vm_compute; reflexivity].
  apply dedup_table_has_no_duplicates.
  intros d. vm_compute. constructor.
Defined.

(** ** The depth of the calls *)

Lemma selection_depth_lt id sels sel :
  sel ∈ sels ->
  (selection_depth sel < selectionSet_depth (mkSelectionSet id sels))%nat.
Proof.
  simpl. induction sels as [|s r IH]; intros Hin.
  - apply elem_of_nil in Hin. contradiction.
  - apply elem_of_cons in Hin as [->|Hin]; [lia|].
    specialize (IH Hin). lia.
Qed.

Lemma spread_free_selection id sels sel :
  spread_free (mkSelectionSet id sels) = true ->
  sel ∈ sels -> selection_spread_free sel = true.
Proof.
  simpl. induction sels as [|s r IH]; intros Hfree Hin.
  - apply elem_of_nil in Hin. contradiction.
  - apply andb_prop in Hfree as [Hs Hr].
    apply elem_of_cons in Hin as [->|Hin]; [exact Hs|exact (IH Hr Hin)].
Qed.

Lemma alookup_index_entries_In k l :
  forall i v, alookup k (index_entries i l) = Some v -> v ∈ l.
Proof.
  induction l as [|x l IH]; intros i v; simpl; [discriminate|].
  destruct (String.eqb k (index_key i)).
  - intros [= ->]. left.
  - intros H. right. exact (IH _ _ H).
Qed.

Lemma value_depth_item items item :
  item ∈ items -> (value_depth item < value_depth (VArr items))%nat.
Proof.
  simpl. induction items as [|x r IH]; intros Hin.
  - apply elem_of_nil in Hin. contradiction.
  - apply elem_of_cons in Hin as [->|Hin]; [lia|].
    specialize (IH Hin). lia.
Qed.

Lemma value_depth_field fs k v :
  alookup k fs = Some v -> (value_depth v < value_depth (VObj fs))%nat.
Proof.
  simpl. induction fs as [|[k0 x] r IH]; simpl; [discriminate|].
  destruct (String.eqb k k0).
  - intros [= ->]. lia.
  - intros H. specialize (IH H). lia.
Qed.

Lemma value_depth_ownProp r k v :
  ownProp r k = Some v -> (value_depth v <= value_depth r)%nat.
Proof.
  destruct r as [| b | z | s | l | fs | id | h]; simpl ownProp;
    try discriminate.
  - destruct (String.eqb k "length"); [intros [= <-]; simpl; lia|].
    intros H. apply alookup_index_entries_In in H.
    apply list_elem_of_In, in_map_iff in H as (c & <- & _). simpl. lia.
  - destruct (String.eqb k "length"); [intros [= <-]; simpl; lia|].
    intros H. apply alookup_index_entries_In in H.
    apply value_depth_item in H. lia.
  - intros H. apply value_depth_field in H. lia.
  - destruct (String.eqb k "__ref"); [intros [= <-]; simpl; lia|discriminate].
Qed.

Lemma value_depth_getProp r k v :
  getProp r k = Some v -> (value_depth v <= value_depth r)%nat.
Proof.
  unfold getProp. destruct (ownProp r k) as [w|] eqn:Hown.
  - intros [= <-]. exact (value_depth_ownProp _ _ _ Hown).
  - destruct (inherited r k); [|discriminate].
    intros [= <-]. simpl. lia.
Qed.

Lemma field_depth_selectionSet f ss :
  field_selectionSet f = Some ss -> field_depth f = selectionSet_depth ss.
Proof. destruct f as [a nm args ds [s|]]; simpl; [now intros [= ->]|discriminate]. Qed.

Lemma field_spread_free_selectionSet f ss :
  field_selectionSet f = Some ss ->
  field_spread_free f = true -> spread_free ss = true.
Proof. destruct f as [a nm args ds [s|]]; simpl; [now intros [= ->]|discriminate]. Qed.

(** The walker fails only by an assignment it cannot make, or on a value of
    the host. *)
Lemma walkWithMergeOverrides_errors o :
  forall existing incoming e,
    walkWithMergeOverrides existing incoming o = inl e ->
    e = TypeError \/ e = Unrepresentable \/ e = HostValue.
Proof.
  assert (Hset : forall io name v e,
    setProp io name v = inl e ->
    e = TypeError \/ e = Unrepresentable \/ e = HostValue).
  { intros io name v e H. unfold setProp in H.
    repeat case_match; simplify_eq; auto. }
  induction o as [es IH] using MergeOverrides_ind'.
  intros existing incoming e. revert incoming.
  induction IH as [|[name [m child]] rest Hchild _ IHrest]; intros incoming H.
  - discriminate H.
  - rewrite walkWithMergeOverrides_cons in H.
    destruct (walked_child existing incoming name child)
      as [e0|[io iv]] eqn:Hw.
    + injection H as <-. unfold walked_child in Hw.
      destruct child as [c|]; [|discriminate Hw]. simpl in Hchild.
      destruct (walkWithMergeOverrides _ _ c) as [e1|iv'] eqn:Hc.
      * injection Hw as <-. exact (Hchild _ _ _ Hc).
      * destruct (is_reference_type iv'); [|discriminate Hw].
        destruct (setProp incoming name _) as [e1|o1] eqn:Hs;
          [|discriminate Hw].
        injection Hw as <-. exact (Hset _ _ _ _ Hs).
    + destruct m as [f|]; [|exact (IHrest _ H)].
      destruct (setProp io name _) as [e1|o1] eqn:Hs.
      * injection H as <-. exact (Hset _ _ _ _ Hs).
      * destruct (from_host _ _); [injection H as <-; auto|].
        exact (IHrest _ H).
Qed.

Lemma finishes_bind {A B : Type} (m : M A) (k : A -> M B) st :
  finishes (m st) ->
  (forall a st', m st = Ok a st' -> finishes (k a st')) ->
  finishes (bind m k st).
Proof.
  intros Hm Hk. unfold bind.
  destruct (m st) as [a st'|e st']; [now apply Hk|exact Hm].
Qed.

Lemma commit_processed_finishes d p st : finishes (commit_processed d p st).
Proof.
  unfold commit_processed.
  apply finishes_bind; [exact I|]. intros st2 s2 _.
  apply finishes_bind; [|intros; exact I].
  destruct (snd p) as [mo|]; [|exact I].
  destruct (walkWithMergeOverrides _ _ mo) as [e|[[]|]] eqn:Hw;
    try exact I.
  destruct (walkWithMergeOverrides_errors _ _ _ _ Hw) as [-> | [-> | ->]]; exact I.
Qed.

Section Finishes.
Variable policies : Policies.
Variable utils : Utilities.
Variable production : bool.
Variable context : WriteContext.

Section FinishesBodies.
Variable n : nat.
Variable pSS :
  StoreValue -> SelectionSetNode -> option MergeOverrides ->
  option StoreValue -> M (Processed StoreObject).
Variable pFV : StoreValue -> FieldNode -> M (Processed StoreValue).
Hypothesis pSS_finishes :
  forall r ss mo tn st,
    spread_free ss = true ->
    (2 * selectionSet_depth ss + value_depth r <= n)%nat ->
    finishes (pSS r ss mo tn st).
Hypothesis pFV_finishes :
  forall v f st,
    field_spread_free f = true ->
    (2 * field_depth f + value_depth v + 1 <= n)%nat ->
    finishes (pFV v f st).

Lemma processSelection_finishes r tn acc sel st :
  selection_spread_free sel = true ->
  (2 * selection_depth sel + value_depth r + 1 <= n)%nat ->
  finishes (processSelection policies utils context pSS pFV r tn acc sel st).
Proof.
  intros Hfree Hbound. unfold processSelection. destruct acc as [mf mo].
  destruct (negb _); [exact I|].
  destruct sel as [f|name ds|tc ds ss]; simpl in Hfree, Hbound.
  - destruct (is_null r); [exact I|].
    destruct (getProp r (resultKeyNameFromField f)) as [v|] eqn:Hget.
    + destruct (is_host v); [exact I|].
      apply finishes_bind; [|intros; exact I].
      apply pFV_finishes; [exact Hfree|].
      apply value_depth_getProp in Hget. lia.
    + destruct (_ && _); exact I.
  - discriminate Hfree.
  - simpl. destruct (fragmentMatches _ _ _); [|exact I].
    apply finishes_bind; [|intros; exact I].
    apply pSS_finishes; [exact Hfree|]. simpl. lia.
Qed.

Lemma forEach_selection_finishes r tn sels :
  (forall sel, sel ∈ sels ->
     selection_spread_free sel = true
     /\ (2 * selection_depth sel + value_depth r + 1 <= n)%nat) ->
  forall acc st,
    finishes
      (forEach_selection policies utils context pSS pFV r tn sels acc st).
Proof.
  induction sels as [|sel rest IH]; intros Hall acc st; simpl; [exact I|].
  apply finishes_bind.
  - apply processSelection_finishes; apply Hall; left.
  - intros acc' st' _. apply IH. intros s Hs. apply Hall. now right.
Qed.

Lemma processSelectionSet_body_finishes r ss mo tn st :
  spread_free ss = true ->
  (2 * selectionSet_depth ss + value_depth r <= S n)%nat ->
  finishes
    (processSelectionSet_body policies utils context pSS pFV r ss mo tn st).
Proof.
  intros Hfree Hbound. unfold processSelectionSet_body.
  apply forEach_selection_finishes. destruct ss as [id sels].
  intros sel Hsel. split; [exact (spread_free_selection _ _ _ Hfree Hsel)|].
  pose proof (selection_depth_lt id sels sel Hsel). simpl selections in *.
  lia.
Qed.

Lemma writeSelectionSetToStore_body_finishes d r ss st :
  spread_free ss = true ->
  (2 * selectionSet_depth ss + value_depth r <= n)%nat ->
  finishes (writeSelectionSetToStore_body policies utils context pSS d r ss st).
Proof.
  intros Hfree Hbound. unfold writeSelectionSetToStore_body.
  destruct (already_written st d ss); [exact I|].
  apply finishes_bind; [exact I|]. intros _ s1 _.
  apply finishes_bind; [exact I|]. intros st1 s2 _.
  apply finishes_bind; [now apply pSS_finishes|].
  intros p s3 _. apply commit_processed_finishes.
Qed.

Lemma map_items_finishes f items :
  (forall item, item ∈ items ->
     (2 * field_depth f + value_depth item + 1 <= n)%nat) ->
  field_spread_free f = true ->
  forall i st, finishes (map_items pFV f items i st).
Proof.
  intros Hall Hfree. induction items as [|item rest IH]; intros i st; simpl;
    [exact I|].
  apply finishes_bind.
  - apply pFV_finishes; [exact Hfree|]. apply Hall. left.
  - intros p s1 _. apply finishes_bind; [|intros; exact I].
    apply IH. intros x Hx. apply Hall. now right.
Qed.

Lemma processFieldValue_body_finishes v f st :
  field_spread_free f = true ->
  (2 * field_depth f + value_depth v + 1 <= S n)%nat ->
  finishes
    (processFieldValue_body policies utils production context pSS pFV
       (writeSelectionSetToStore_body policies utils context pSS) v f st).
Proof.
  intros Hfree Hbound. unfold processFieldValue_body.
  destruct (field_selectionSet f) as [ss|] eqn:Hss; [|exact I].
  rewrite (field_depth_selectionSet f ss Hss) in Hbound.
  pose proof (field_spread_free_selectionSet f ss Hss Hfree) as Hssfree.
  assert (Hobj : finishes
    ((match
        (if truthy v then identify policies v ss (fragmentMap context)
         else None)
      with
      | Some dataId =>
          let* _ :=
            writeSelectionSetToStore_body policies utils context pSS
              dataId v ss in
          ret (makeReference dataId, None)
      | None =>
          let* processed :=
            pSS v ss None
              (getTypenameFromResult utils v ss (fragmentMap context)) in
          ret (VObj (fst processed), snd processed)
      end) st)).
  { destruct (if truthy v then _ else _).
    - apply finishes_bind; [|intros; exact I].
      apply writeSelectionSetToStore_body_finishes; [exact Hssfree|lia].
    - apply finishes_bind; [|intros; exact I].
      apply pSS_finishes; [exact Hssfree|lia]. }
  destruct v; try exact Hobj; [exact I|].
  apply finishes_bind; [|intros; exact I].
  apply map_items_finishes; [|exact Hfree].
  intros item Hitem. apply value_depth_item in Hitem.
  rewrite (field_depth_selectionSet f ss Hss). lia.
Qed.
End FinishesBodies.

Lemma process_finishes fuel :
  (forall r ss mo tn st,
      spread_free ss = true ->
      (2 * selectionSet_depth ss + value_depth r <= fuel)%nat ->
      finishes
        (processSelectionSet policies utils production context fuel
           r ss mo tn st))
  /\ (forall v f st,
         field_spread_free f = true ->
         (2 * field_depth f + value_depth v + 1 <= fuel)%nat ->
         finishes
           (processFieldValue policies utils production context fuel v f st)).
Proof.
  induction fuel as [|n [IHs IHf]].
  - split.
    + intros r [id sels] mo tn st _ Hbound. simpl in Hbound. lia.
    + intros v f st _ Hbound. lia.
  - split.
    + intros r ss mo tn st Hfree Hbound. simpl.
      now apply (processSelectionSet_body_finishes n).
    + intros v f st Hfree Hbound. simpl.
      now apply (processFieldValue_body_finishes n).
Qed.
End Finishes.

(** ** Writes under a policy provider without merge functions *)

Lemma plain_bind {A B : Type} (P : A -> Prop) (Q : B -> Prop)
  (m : M A) (k : A -> M B) st :
  plain P (m st) ->
  (forall a st', P a -> plain Q (k a st')) ->
  plain Q (bind m k st).
Proof.
  intros Hm Hk. unfold bind.
  destruct (m st) as [a st'|e st']; [now apply Hk|exact Hm].
Qed.

Lemma commit_processed_plain d p st :
  reports None p -> plain (fun _ => True) (commit_processed d p st).
Proof.
  unfold reports. intros Hp. unfold commit_processed. rewrite Hp. exact I.
Qed.

Section Plain.
Variable policies : Policies.
Variable utils : Utilities.
Variable production : bool.
Variable context : WriteContext.
Hypothesis no_merge : no_merge_functions policies.

Section PlainBodies.
Variable pSS :
  StoreValue -> SelectionSetNode -> option MergeOverrides ->
  option StoreValue -> M (Processed StoreObject).
Variable pFV : StoreValue -> FieldNode -> M (Processed StoreValue).
Hypothesis pSS_plain :
  forall r ss mo tn st, plain (reports mo) (pSS r ss mo tn st).
Hypothesis pFV_plain :
  forall v f st, plain (reports None) (pFV v f st).

Lemma processSelection_plain r tn acc sel st :
  plain (reports (snd acc))
    (processSelection policies utils context pSS pFV r tn acc sel st).
Proof.
  unfold processSelection. destruct acc as [mf mo]. simpl snd.
  destruct (negb _); [reflexivity|].
  destruct sel as [f|name ds|tc ds ss].
  - destruct (is_null r); [split; discriminate|].
    destruct (getProp r (resultKeyNameFromField f)) as [v|].
    + destruct (is_host v); [split; discriminate|].
      eapply plain_bind; [apply pFV_plain|].
      intros p s1 Hp. unfold reports in *. simpl.
      rewrite no_merge, Hp. reflexivity.
    + destruct (_ && _); reflexivity.
  - destruct (getFragmentFromSelection _ _) as [fragment|];
      [|split; discriminate].
    destruct (fragmentMatches _ _ _); [|reflexivity].
    eapply plain_bind; [apply pSS_plain|].
    intros p s1 Hp. unfold reports in *. simpl. rewrite Hp.
    now destruct mo.
  - destruct (getFragmentFromSelection _ _) as [fragment|];
      [|split; discriminate].
    destruct (fragmentMatches _ _ _); [|reflexivity].
    eapply plain_bind; [apply pSS_plain|].
    intros p s1 Hp. unfold reports in *. simpl. rewrite Hp.
    now destruct mo.
Qed.

Lemma forEach_selection_plain r tn sels :
  forall acc st,
    plain (reports (snd acc))
      (forEach_selection policies utils context pSS pFV r tn sels acc st).
Proof.
  induction sels as [|sel rest IH]; intros acc st; simpl; [reflexivity|].
  eapply plain_bind; [apply processSelection_plain|].
  intros acc' s1 Hacc. unfold reports in Hacc. rewrite <- Hacc. apply IH.
Qed.

Lemma processSelectionSet_body_plain r ss mo tn st :
  plain (reports mo)
    (processSelectionSet_body policies utils context pSS pFV r ss mo tn st).
Proof.
  unfold processSelectionSet_body.
  exact (forEach_selection_plain r tn (selections ss) (_, mo) st).
Qed.

Lemma writeSelectionSetToStore_body_plain d r ss st :
  plain (fun _ => True)
    (writeSelectionSetToStore_body policies utils context pSS d r ss st).
Proof.
  unfold writeSelectionSetToStore_body.
  destruct (already_written st d ss); [exact I|].
  apply (plain_bind (fun _ => True)); [exact I|]. intros _ s1 _.
  apply (plain_bind (fun _ => True)); [exact I|]. intros st1 s2 _.
  eapply plain_bind; [apply pSS_plain|].
  intros p s3 Hp. now apply commit_processed_plain.
Qed.

Lemma map_items_plain f items :
  forall i st, plain (fun p => snd p = []) (map_items pFV f items i st).
Proof.
  induction items as [|item rest IH]; intros i st; simpl; [reflexivity|].
  eapply plain_bind; [apply pFV_plain|]. intros p s1 Hp.
  eapply plain_bind; [apply IH|]. intros tl s2 Htl.
  unfold reports in Hp. simpl. rewrite Hp. exact Htl.
Qed.

Lemma processFieldValue_body_plain v f st :
  plain (reports None)
    (processFieldValue_body policies utils production context pSS pFV
       (writeSelectionSetToStore_body policies utils context pSS) v f st).
Proof.
  unfold processFieldValue_body.
  destruct (field_selectionSet f) as [ss|]; [|reflexivity].
  assert (Hobj : plain (reports (A:=StoreValue) None)
    ((match
        (if truthy v then identify policies v ss (fragmentMap context)
         else None)
      with
      | Some dataId =>
          let* _ :=
            writeSelectionSetToStore_body policies utils context pSS
              dataId v ss in
          ret (makeReference dataId, None)
      | None =>
          let* processed :=
            pSS v ss None
              (getTypenameFromResult utils v ss (fragmentMap context)) in
          ret (VObj (fst processed), snd processed)
      end) st)).
  { destruct (if truthy v then _ else _).
    - eapply plain_bind; [apply writeSelectionSetToStore_body_plain|].
      intros; reflexivity.
    - eapply plain_bind; [apply pSS_plain|].
      intros p s1 Hp. exact Hp. }
  destruct v; try exact Hobj; [reflexivity|].
  eapply plain_bind; [apply map_items_plain|].
  intros p s1 Hp. unfold reports. simpl. now rewrite Hp.
Qed.
End PlainBodies.

Lemma process_plain fuel :
  (forall r ss mo tn st,
      plain (reports mo)
        (processSelectionSet policies utils production context fuel
           r ss mo tn st))
  /\ (forall v f st,
         plain (reports None)
           (processFieldValue policies utils production context fuel v f st)).
Proof.
  induction fuel as [|n [IHs IHf]].
  - split; intros; split; discriminate.
  - split.
    + intros r ss mo tn st. simpl.
      now apply processSelectionSet_body_plain.
    + intros v f st. simpl. now apply processFieldValue_body_plain.
Qed.

Lemma writeSelectionSetToStore_plain fuel d r ss st :
  plain (fun _ => True)
    (writeSelectionSetToStore policies utils production context fuel
       d r ss st).
Proof.
  unfold writeSelectionSetToStore.
  apply writeSelectionSetToStore_body_plain. apply process_plain.
Qed.
End Plain.

Lemma writeSelectionSetToStore_finishes policies utils production context
  fuel d r ss st :
  spread_free ss = true ->
  (2 * selectionSet_depth ss + value_depth r <= fuel)%nat ->
  finishes
    (writeSelectionSetToStore policies utils production context fuel
       d r ss st).
Proof.
  intros Hfree Hbound. unfold writeSelectionSetToStore.
  apply (writeSelectionSetToStore_body_finishes policies utils context fuel);
    [|exact Hfree|exact Hbound].
  apply process_finishes.
Qed.

Lemma sample_no_merge_functions strict :
  no_merge_functions (Sample.policies [] strict).
Proof. intros [[| | | | | | |]|] f vs; reflexivity. Qed.

(** X11 ([processSelectionSet], lines 211-223 and 266-273;
    [processFieldValue], lines 302-312): overrides come only from merge
    functions.  When the policy provider has a merge function for no
    field, the selection-set pass returns the very overrides it was given,
    the field-value pass reports none, and neither throws an error of the
    override pass. *)
Theorem overrides_come_from_merge_functions policies utils production
  context fuel :
  no_merge_functions policies ->
  (forall r ss mo tn st,
      match
        processSelectionSet policies utils production context fuel
          r ss mo tn st
      with
      | Ok p _ => snd p = mo
      | Throw e _ => e <> TypeError /\ e <> Unrepresentable
      end)
  /\ (forall v f st,
         match
           processFieldValue policies utils production context fuel v f st
         with
         | Ok p _ => snd p = None
         | Throw e _ => e <> TypeError /\ e <> Unrepresentable
         end).
Proof.
  intros Hno.
  destruct (process_plain policies utils production context Hno fuel)
    as [Hs Hf].
  split.
  - intros r ss mo tn st. exact (Hs r ss mo tn st).
  - intros v f st. exact (Hf v f st).
Qed.

(** The person of the scenario, written with no merge function: the pass
    over its selection set reports no overrides. *)
Lemma overrides_come_from_merge_functions_witness :
  match
    processSelectionSet (Sample.policies [] true) Sample.utils false
      Scenario.no_context 6 Scenario.person Scenario.person_selection None
      (Some (VStr "Person")) Scenario.empty_state
  with
  | Ok p _ => snd p = None
  | Throw e _ => e <> TypeError /\ e <> Unrepresentable
  end.
Proof.
  exact (proj1
           (overrides_come_from_merge_functions (Sample.policies [] true)
              Sample.utils false Scenario.no_context 6
              (sample_no_merge_functions true))
           Scenario.person Scenario.person_selection None
           (Some (VStr "Person")) Scenario.empty_state).
Defined.

(** X12 ([writeSelectionSetToStore], lines 116-170, with the calls of
    [processSelectionSet] and [processFieldValue] below it): the calls
    nest no deeper than the selection set and the result do.  For a
    selection set without named fragment spreads, and for collaborators
    that return (the policy provider, [shouldInclude],
    [getTypenameFromResult], the store, the merge functions), a call depth
    of twice the depth of the selection set plus the depth of the result is
    enough: the write does not stop for lack of depth, nor on a fragment
    that cannot be found. *)
Theorem spread_free_write_finishes policies utils production context
  fuel dataId result selectionSet st :
  spread_free selectionSet = true ->
  (2 * selectionSet_depth selectionSet + value_depth result <= fuel)%nat ->
  match
    writeSelectionSetToStore policies utils production context fuel
      dataId result selectionSet st
  with
  | Ok _ _ => True
  | Throw e _ => e <> OutOfFuel /\ e <> InvariantViolation
  end.
Proof.
  intros Hfree Hbound.
  pose proof (writeSelectionSetToStore_finishes policies utils production
                context fuel dataId result selectionSet st Hfree Hbound)
    as Hfin.
  destruct (writeSelectionSetToStore _ _ _ _ _ _ _ _ _) as [c st'|e st'];
    [exact I|].
  destruct e; simpl in Hfin; try contradiction; split; discriminate.
Qed.

(** The numbers of the scenario, with the concatenating merge function. *)
Lemma spread_free_write_finishes_witness :
  match
    writeSelectionSetToStore Scenario.numbers_policies Sample.utils false
      Scenario.no_context 4 "ROOT_QUERY"
      (VObj [("numbers", VArr [VNum 3])])
      (mkSelectionSet 9 [Sample.leaf "numbers"])
      (mkState Scenario.numbers_store ∅ [])
  with
  | Ok _ _ => True
  | Throw e _ => e <> OutOfFuel /\ e <> InvariantViolation
  end.
Proof.
  apply (spread_free_write_finishes Scenario.numbers_policies Sample.utils
           false Scenario.no_context 4 "ROOT_QUERY"
           (VObj [("numbers", VArr [VNum 3])])
           (mkSelectionSet 9 [Sample.leaf "numbers"])
           (mkState Scenario.numbers_store ∅ [])).
  - reflexivity.
  - apply Nat.leb_le. reflexivity.
Defined.
